(** * FQDN NetworkPolicy controller of the Antrea agent

    A shallow embedding of [pkg/agent/controller/networkpolicy/fqdn.go]:
    the selector index, the DNS entry cache and its merge, the rule
    realization tracker and the packet-in barrier, followed by the
    properties of the specification that were checked against it.

    Conventions of the embedding.
    - Go maps and [sets.Set] are [gmap] and [gset]; a [for ... range] loop
      over one of them is a [foldl] over [map_to_list] or [elements].  Go
      leaves the iteration order unspecified and the model takes the
      order of these lists; the statements are about membership and about
      values that do not depend on the order.
    - [time.Time] is an integer count of nanoseconds; [time.Duration] is
      the [int64] count of nanoseconds it is in Go.
    - A Go [error] is its message; [nil] is [None].
    - Pointers to shared mutable objects ([*subscriber]) are indices into
      an explicit heap; channels are identifiers, and every send on a
      channel is appended to a log.  The capacity of a channel, and a
      sender that blocks on a full one, are not modelled.
    - Mutexes are not modelled: each operation on the index and the cache
      runs atomically, which is what [fqdnSelectorMutex] guarantees, and
      so does each operation of the tracker. *)

From stdpp Require Import gmap strings list fin_maps fin_sets pretty.
From Stdlib Require Import ZArith Lia Ascii.

Set Warnings "-clear-no-such-hyp".

Open Scope string_scope.
Open Scope list_scope.
Open Scope Z_scope.

(** ** Library functions the source calls

    The controller calls into the Go standard library for Unicode-aware
    string functions, regular expressions and address printing.  They are
    an interface of the embedding: every theorem holds for any
    implementation. *)

(** [net.IP] is a byte slice; the cache is keyed by its printed form. *)
Definition IP := list Z.

Class GoLib := {
  strings_ToLower : string → string;
  strings_TrimSpace : string → string;
  (** [regexp.MatchString pattern s], with a pattern that does not compile
      reported as no match (the source discards the error). *)
  regexp_MatchString : string → string → bool;
  (** [ip.String()] *)
  net_IP_String : IP → string;
}.

Definition error := string.
Definition chanId := nat.

(** The values sent so far, oldest first, with the channel of each. *)
Abbreviation chanLog := (list (chanId * option error)).

Definition sentOn (ch : chanId) (log : chanLog) : list (option error) :=
  (filter (λ e, e.1 = ch) log).*2.

(** ** Time *)

Definition Time := Z.
Definition Duration := Z.

Definition wrap64 (z : Z) : Z := (z + 2 ^ 63) mod 2 ^ 64 - 2 ^ 63.

Definition time_Second : Duration := 1000000000.
Definition Duration_mul (a b : Duration) : Duration := wrap64 (a * b).
Definition Time_Add (t : Time) (d : Duration) : Time := t + d.
Definition Time_Before (t u : Time) : bool := bool_decide (t < u).
Definition Time_After (t u : Time) : bool := bool_decide (u < t).

(** [Time.Sub] saturates at the ends of [int64]. *)
Definition Time_Sub (t u : Time) : Duration :=
  Z.max (- 2 ^ 63) (Z.min (2 ^ 63 - 1) (t - u)).

Definition ruleRealizationTimeout : Duration := Duration_mul 2 time_Second.
Definition dnsRequestTimeout : Duration := Duration_mul 10 time_Second.

(** [laterOf] returns the later of the two given times. *)
Definition laterOf (t1 t2 : Time) : Time :=
  if Time_After t1 t2 then t1 else t2.

(** The injected clock: the readings it will return, in order.  [Now]
    returns the first and leaves the rest. *)
Definition Clock := nat → Time.
Definition clock_Now (c : Clock) : Time * Clock := (c 0%nat, λ n, c (S n)).

(** ** Selector items *)

(** [fqdnSelectorItem] selects FQDNs either by exact name or by regex. *)
Record fqdnSelectorItem := mkSelectorItem {
  matchName : string;
  matchRegex : string;
}.

Global Instance fqdnSelectorItem_eq_dec : EqDecision fqdnSelectorItem.
Proof. solve_decision. Defined.

Global Instance fqdnSelectorItem_countable : Countable fqdnSelectorItem.
Proof.
  refine (inj_countable' (λ fs, (matchName fs, matchRegex fs))
            (λ p, mkSelectorItem p.1 p.2) _).
  by intros [].
Defined.

(** [strings.ReplaceAll s old new] for a one-byte [old]. *)
Fixpoint replaceAll1 (s : string) (old : ascii) (new : string) : string :=
  match s with
  | EmptyString => EmptyString
  | String c s' =>
      if decide (c = old) then new +:+ replaceAll1 s' old new
      else String c (replaceAll1 s' old new)
  end.

(** [strings.Contains s old] for a one-byte [old]. *)
Fixpoint contains1 (s : string) (old : ascii) : bool :=
  match s with
  | EmptyString => false
  | String c s' => if decide (c = old) then true else contains1 s' old
  end.

(** [strings.TrimSuffix s suffix] for a one-byte [suffix]. *)
Fixpoint trimSuffix1 (s : string) (suffix : ascii) : string :=
  match s with
  | EmptyString => EmptyString
  | String c EmptyString => if decide (c = suffix) then EmptyString else s
  | String c s' => String c (trimSuffix1 s' suffix)
  end.

Section Selector.
Context {golib : GoLib}.

(** [matches] knows if a FQDN is selected by the item. *)
Definition matches (fs : fqdnSelectorItem) (fqdn : string) : bool :=
  if decide (matchRegex fs ≠ "") then regexp_MatchString (matchRegex fs) fqdn
  else bool_decide (matchName fs = fqdn).

(** [toRegex] converts a wildcard expression to the regex pattern. *)
Definition toRegex (pattern : string) : string :=
  let pattern := strings_TrimSpace pattern in
  let pattern := replaceAll1 pattern "."%char "[.]" in
  let pattern := replaceAll1 pattern "*"%char ".*" in
  "^" +:+ pattern +:+ "$".

(** [fqdnToSelectorItem] converts a FQDN expression to a selector item. *)
Definition fqdnToSelectorItem (fqdn : string) : fqdnSelectorItem :=
  let fqdn := strings_ToLower fqdn in
  if contains1 fqdn "*"%char then mkSelectorItem "" (toRegex fqdn)
  else mkSelectorItem fqdn "".
End Selector.

(** ** Rule realization tracker *)

(** A [subscriber] waits for the realization of a set of dirty rules. *)
Record subscriber := mkSubscriber {
  waitCh : chanId;
  rulesToSyncCount : Z;
}.

(** A realization result reported by the rule reconciler. *)
Record ruleRealizationUpdate := mkUpdate {
  ruleId : string;
  err : option error;
}.

(** [ruleSyncTracker].  The source appends one [*subscriber] to the list
    of every rule it waits for, so the object is shared: [subscriberHeap]
    holds the objects and the lists hold their indices.  [updateCh] is the
    sequence of updates handed to [Run]. *)
Record ruleSyncTracker := mkTracker {
  subscriberHeap : list subscriber;
  ruleToSubscribers : gmap string (list nat);
  dirtyRules : gset string;
}.

Definition newRuleSyncTracker : ruleSyncTracker := mkTracker [] ∅ ∅.

(** [subscribe] registers a subscriber with its dirty rules. *)
Definition subscribe (ch : chanId) (dirty : gset string)
    (rst : ruleSyncTracker) : ruleSyncTracker :=
  let p := length (subscriberHeap rst) in
  {| subscriberHeap :=
       subscriberHeap rst ++ [mkSubscriber ch (Z.of_nat (size dirty))];
     ruleToSubscribers :=
       foldl (λ m r, <[r := default [] (m !! r) ++ [p]]> m)
             (ruleToSubscribers rst) (elements dirty);
     dirtyRules := dirtyRules rst ∪ dirty |}.

(** [getDirtyRules] returns a copy of the dirty rule set. *)
Definition getDirtyRules (rst : ruleSyncTracker) : gset string :=
  dirtyRules rst.

(** The body of the loop over the subscribers of the updated rule. *)
Definition notifySubscriber (update : ruleRealizationUpdate)
    (acc : list subscriber * chanLog) (p : nat) : list subscriber * chanLog :=
  let '(heap, log) := acc in
  match heap !! p with
  | None => acc
  | Some s =>
      match err update with
      | Some _ =>
          (<[p := mkSubscriber (waitCh s) 0]> heap,
           log ++ [(waitCh s,
                    Some ("failed to realize rule " +:+ ruleId update +:+ " in OVS"))])
      | None =>
          if decide (rulesToSyncCount s = 0) then acc
          else
            let n := rulesToSyncCount s - 1 in
            let heap' := <[p := mkSubscriber (waitCh s) n]> heap in
            if decide (n = 0) then (heap', log ++ [(waitCh s, None)])
            else (heap', log)
      end
  end.

(** One iteration of [Run]: the update received from [updateCh]. *)
Definition Run_update (st : ruleSyncTracker * chanLog)
    (update : ruleRealizationUpdate) : ruleSyncTracker * chanLog :=
  let '(rst, log) := st in
  let '(heap, log', r2s) :=
    match ruleToSubscribers rst !! ruleId update with
    | Some subscribers =>
        let '(heap, log') :=
          foldl (notifySubscriber update) (subscriberHeap rst, log) subscribers in
        (heap, log', delete (ruleId update) (ruleToSubscribers rst))
    | None => (subscriberHeap rst, log, ruleToSubscribers rst)
    end in
  ({| subscriberHeap := heap;
      ruleToSubscribers := r2s;
      dirtyRules :=
        match err update with
        | None => dirtyRules rst ∖ {[ruleId update]}
        | Some _ => dirtyRules rst
        end |},
   log').

(** [Run] until the stop channel fires, having received [updates]. *)
Definition Run (st : ruleSyncTracker * chanLog)
    (updates : list ruleRealizationUpdate) : ruleSyncTracker * chanLog :=
  foldl Run_update st updates.

(** ** DNS messages and intercepted packets

    Unpacking is done by libraries.  A message is what the source reads
    from a [dns.Msg]; a packet carries the result of each library call
    [HandlePacketIn] makes on it. *)

Inductive dnsRR :=
  | RR_A (ttl : Z) (a : IP)
  | RR_AAAA (ttl : Z) (aaaa : IP)
  | RR_other.

Record dnsMsg := mkDNSMsg {
  Question : list string;
  Answer : list dnsRR;
}.

(** [GetTCPDNSData] on a TCP segment: the length field, the number of
    bytes captured, and what [UnpackDNSMsgPartially] and [Unpack] return
    on those bytes ([None] is an error). *)
Record tcpDNSData := mkTCPDNSData {
  dataLength : Z;
  capturedLength : Z;
  unpackPartially : option dnsMsg;
  unpackTCP : option dnsMsg;
}.

Inductive l4View :=
  | L4_UDP (unpackUDP : option dnsMsg)
  | L4_TCP (GetTCPPacketFromIPMessage : option (option tcpDNSData))
  | L4_other.

Inductive etherView :=
  | Eth_IPv4 (l4 : l4View)
  | Eth_IPv6 (l4 : l4View)
  | Eth_other.

Record PacketIn := mkPacketIn {
  pktId : nat;
  GetEthernetPacket : option etherView;
}.

(** ** The datapath client

    [openflow.Client] is an interface.  The model records the calls made
    on it; what each call returns is the client's own business and may
    depend on the calls before it. *)

Inductive ofCall :=
  | NewDNSPacketInConjunction (id : Z)
  | AddAddressToDNSConjunction (id : Z) (addrs : list Z)
  | DeleteAddressFromDNSConjunction (id : Z) (addrs : list Z)
  | ResumePausePacket (pktIn : PacketIn).

Record ofClientT := mkOFClient {
  ofCalls : list ofCall;
  ofReply : list ofCall → ofCall → option error;
}.

Definition ofInvoke (c : ofClientT) (call : ofCall) : ofClientT * option error :=
  (mkOFClient (ofCalls c ++ [call]) (ofReply c), ofReply c (ofCalls c) call).

(** ** The work queue of names to query *)

Inductive queueOp :=
  | QAdd (fqdn : string)
  | QAddAfter (fqdn : string) (d : Duration)
  | QAddRateLimited (fqdn : string)
  | QForget (fqdn : string).

(** ** The controller *)

Record ipWithExpiration := mkIPExp {
  ip : IP;
  expirationTime : Time;
}.

(** [dnsMeta] stores the resolution results of a FQDN, keyed by the
    printed form of the address. *)
Record dnsMeta := mkDNSMeta {
  responseIPs : gmap string ipWithExpiration;
}.

(** [fqdnController].  Fields keep their names, except [tracker] (Go:
    [ruleSyncTracker]) and [fqdnToSelectorItems] (Go: [fqdnToSelectorItem]),
    whose names are those of a type and of a function of the source.
    [dirtyRuleHandler] is a callback: the field holds the rule IDs it has
    been run on.  [dnsQueryQueue] holds the operations issued on the
    queue.  Both are oldest first. *)
Record fqdnController := mkController {
  ofClient : ofClientT;
  dnsServerAddr : string;
  minTTL : Z;
  dirtyRuleHandler : list string;
  tracker : ruleSyncTracker;
  dnsEntryCache : gmap string dnsMeta;
  dnsQueryQueue : list queueOp;
  fqdnRuleToSelectedPods : gmap string (gset Z);
  fqdnToSelectorItems : gmap string (gset fqdnSelectorItem);
  selectorItemToFQDN : gmap fqdnSelectorItem (gset string);
  selectorItemToRuleIDs : gmap fqdnSelectorItem (gset string);
  ipv4Enabled : bool;
  ipv6Enabled : bool;
  gwPort : Z;
  clock : Clock;
}.

Definition set_ofClient (v : ofClientT) (f : fqdnController) :=
  mkController v (dnsServerAddr f) (minTTL f) (dirtyRuleHandler f) (tracker f)
    (dnsEntryCache f) (dnsQueryQueue f) (fqdnRuleToSelectedPods f)
    (fqdnToSelectorItems f) (selectorItemToFQDN f) (selectorItemToRuleIDs f)
    (ipv4Enabled f) (ipv6Enabled f) (gwPort f) (clock f).

Definition set_dirtyRuleHandler (v : list string) (f : fqdnController) :=
  mkController (ofClient f) (dnsServerAddr f) (minTTL f) v (tracker f)
    (dnsEntryCache f) (dnsQueryQueue f) (fqdnRuleToSelectedPods f)
    (fqdnToSelectorItems f) (selectorItemToFQDN f) (selectorItemToRuleIDs f)
    (ipv4Enabled f) (ipv6Enabled f) (gwPort f) (clock f).

Definition set_tracker (v : ruleSyncTracker) (f : fqdnController) :=
  mkController (ofClient f) (dnsServerAddr f) (minTTL f) (dirtyRuleHandler f) v
    (dnsEntryCache f) (dnsQueryQueue f) (fqdnRuleToSelectedPods f)
    (fqdnToSelectorItems f) (selectorItemToFQDN f) (selectorItemToRuleIDs f)
    (ipv4Enabled f) (ipv6Enabled f) (gwPort f) (clock f).

Definition set_dnsEntryCache (v : gmap string dnsMeta) (f : fqdnController) :=
  mkController (ofClient f) (dnsServerAddr f) (minTTL f) (dirtyRuleHandler f)
    (tracker f) v (dnsQueryQueue f) (fqdnRuleToSelectedPods f)
    (fqdnToSelectorItems f) (selectorItemToFQDN f) (selectorItemToRuleIDs f)
    (ipv4Enabled f) (ipv6Enabled f) (gwPort f) (clock f).

Definition set_dnsQueryQueue (v : list queueOp) (f : fqdnController) :=
  mkController (ofClient f) (dnsServerAddr f) (minTTL f) (dirtyRuleHandler f)
    (tracker f) (dnsEntryCache f) v (fqdnRuleToSelectedPods f)
    (fqdnToSelectorItems f) (selectorItemToFQDN f) (selectorItemToRuleIDs f)
    (ipv4Enabled f) (ipv6Enabled f) (gwPort f) (clock f).

Definition set_fqdnRuleToSelectedPods (v : gmap string (gset Z))
    (f : fqdnController) :=
  mkController (ofClient f) (dnsServerAddr f) (minTTL f) (dirtyRuleHandler f)
    (tracker f) (dnsEntryCache f) (dnsQueryQueue f) v
    (fqdnToSelectorItems f) (selectorItemToFQDN f) (selectorItemToRuleIDs f)
    (ipv4Enabled f) (ipv6Enabled f) (gwPort f) (clock f).

Definition set_fqdnToSelectorItems (v : gmap string (gset fqdnSelectorItem))
    (f : fqdnController) :=
  mkController (ofClient f) (dnsServerAddr f) (minTTL f) (dirtyRuleHandler f)
    (tracker f) (dnsEntryCache f) (dnsQueryQueue f) (fqdnRuleToSelectedPods f)
    v (selectorItemToFQDN f) (selectorItemToRuleIDs f)
    (ipv4Enabled f) (ipv6Enabled f) (gwPort f) (clock f).

Definition set_selectorItemToFQDN (v : gmap fqdnSelectorItem (gset string))
    (f : fqdnController) :=
  mkController (ofClient f) (dnsServerAddr f) (minTTL f) (dirtyRuleHandler f)
    (tracker f) (dnsEntryCache f) (dnsQueryQueue f) (fqdnRuleToSelectedPods f)
    (fqdnToSelectorItems f) v (selectorItemToRuleIDs f)
    (ipv4Enabled f) (ipv6Enabled f) (gwPort f) (clock f).

Definition set_selectorItemToRuleIDs (v : gmap fqdnSelectorItem (gset string))
    (f : fqdnController) :=
  mkController (ofClient f) (dnsServerAddr f) (minTTL f) (dirtyRuleHandler f)
    (tracker f) (dnsEntryCache f) (dnsQueryQueue f) (fqdnRuleToSelectedPods f)
    (fqdnToSelectorItems f) (selectorItemToFQDN f) v
    (ipv4Enabled f) (ipv6Enabled f) (gwPort f) (clock f).

Definition set_clock (v : Clock) (f : fqdnController) :=
  mkController (ofClient f) (dnsServerAddr f) (minTTL f) (dirtyRuleHandler f)
    (tracker f) (dnsEntryCache f) (dnsQueryQueue f) (fqdnRuleToSelectedPods f)
    (fqdnToSelectorItems f) (selectorItemToFQDN f) (selectorItemToRuleIDs f)
    (ipv4Enabled f) (ipv6Enabled f) (gwPort f) v.

(** Modelled from the spec: [utilsets.MergeInt32] and
    [utilsets.MergeString] of [pkg/util/sets], which are not among the
    sources; the specification has them compute "the union of ports
    across all rules" and the union of the rules of the selectors.  They
    add the members of [src] to [dst]. *)
Definition MergeInt32 (dst src : gset Z) : gset Z := dst ∪ src.
Definition MergeString (dst src : gset string) : gset string := dst ∪ src.

Section Controller.
Context {golib : GoLib}.

(** The rule ID of the DNS interception flow, a constant of the package
    declared outside this file. *)
Variable dnsInterceptRuleID : Z.

(** [net.JoinHostPort]: a host that has a colon is taken to be an IPv6
    literal and is put in brackets. *)
Definition net_JoinHostPort (host port : string) : string :=
  if contains1 host ":"%char
  then "[" +:+ host +:+ "]:" +:+ port
  else host +:+ ":" +:+ port.

(** [newFQDNController], for a client that is not nil.  [envHost] and
    [envPort] are the values of [KUBE_DNS_SERVICE_HOST] and
    [KUBE_DNS_SERVICE_PORT]. *)
Definition newFQDNController (client : ofClientT) (dnsServerOverride : string)
    (envHost envPort : string) (v4Enabled v6Enabled : bool) (gw : Z)
    (clk : Clock) (fqdnCacheMinTTL : Z) : fqdnController + error :=
  let '(client, r) :=
    ofInvoke client (NewDNSPacketInConjunction dnsInterceptRuleID) in
  match r with
  | Some e =>
      inr ("failed to install flow for DNS response interception: " +:+ e)
  | None =>
      inl {| ofClient := client;
             dnsServerAddr :=
               if decide (dnsServerOverride ≠ "") then dnsServerOverride
               else if decide (envHost = "" ∨ envPort = "") then ""
               else net_JoinHostPort envHost envPort;
             minTTL := fqdnCacheMinTTL;
             dirtyRuleHandler := [];
             tracker := newRuleSyncTracker;
             dnsEntryCache := ∅;
             dnsQueryQueue := [];
             fqdnRuleToSelectedPods := ∅;
             fqdnToSelectorItems := ∅;
             selectorItemToFQDN := ∅;
             selectorItemToRuleIDs := ∅;
             ipv4Enabled := v4Enabled;
             ipv6Enabled := v6Enabled;
             gwPort := gw;
             clock := clk |}
  end.

(** [setFQDNMatchSelector] records that a FQDN and a selector item match. *)
Definition setFQDNMatchSelector (fqdn : string) (selectorItem : fqdnSelectorItem)
    (f : fqdnController) : fqdnController :=
  let f :=
    match fqdnToSelectorItems f !! fqdn with
    | None =>
        set_fqdnToSelectorItems
          (<[fqdn := {[selectorItem]}]> (fqdnToSelectorItems f)) f
    | Some matchedSelectorItems =>
        set_fqdnToSelectorItems
          (<[fqdn := matchedSelectorItems ∪ {[selectorItem]}]>
             (fqdnToSelectorItems f)) f
    end in
  match selectorItemToFQDN f !! selectorItem with
  | None =>
      set_selectorItemToFQDN
        (<[selectorItem := {[fqdn]}]> (selectorItemToFQDN f)) f
  | Some matchedFQDNs =>
      set_selectorItemToFQDN
        (<[selectorItem := matchedFQDNs ∪ {[fqdn]}]> (selectorItemToFQDN f)) f
  end.

(** The addresses appended for one matched name. *)
Definition appendCachedIPs (f : fqdnController) (matchedIPs : list IP)
    (fqdn : string) : list IP :=
  match dnsEntryCache f !! fqdn with
  | Some meta =>
      foldl (λ acc kv, acc ++ [ip kv.2]) matchedIPs
            (map_to_list (responseIPs meta))
  | None => matchedIPs
  end.

(** The loop of [getIPsForFQDNSelectors], with its early return. *)
Fixpoint getIPsLoop (f : fqdnController) (fqdns : list string)
    (matchedIPs : list IP) : list IP :=
  match fqdns with
  | [] => matchedIPs
  | fqdn :: rest =>
      match selectorItemToFQDN f !! fqdnToSelectorItem fqdn with
      | None => matchedIPs
      | Some fqdnsMatched =>
          getIPsLoop f rest
            (foldl (appendCachedIPs f) matchedIPs (elements fqdnsMatched))
      end
  end.

(** [getIPsForFQDNSelectors] retrieves the addresses cached for the
    FQDNs that match the given selectors. *)
Definition getIPsForFQDNSelectors (f : fqdnController) (fqdns : list string)
    : list IP :=
  getIPsLoop f fqdns [].

Definition addFQDNSelector1 (ruleID : string) (f : fqdnController)
    (fqdn : string) : fqdnController :=
  let fqdnSelectorItem := fqdnToSelectorItem fqdn in
  match selectorItemToRuleIDs f !! fqdnSelectorItem with
  | None =>
      let f :=
        set_selectorItemToRuleIDs
          (<[fqdnSelectorItem := {[ruleID]}]> (selectorItemToRuleIDs f)) f in
      if decide (matchRegex fqdnSelectorItem ≠ "") then
        foldl (λ f kv,
                 if matches fqdnSelectorItem kv.1
                 then setFQDNMatchSelector kv.1 fqdnSelectorItem f
                 else f)
              f (map_to_list (dnsEntryCache f))
      else
        let f :=
          setFQDNMatchSelector (matchName fqdnSelectorItem) fqdnSelectorItem f in
        set_dnsQueryQueue
          (dnsQueryQueue f ++ [QAdd (matchName fqdnSelectorItem)]) f
  | Some ruleIDs =>
      set_selectorItemToRuleIDs
        (<[fqdnSelectorItem := ruleIDs ∪ {[ruleID]}]> (selectorItemToRuleIDs f)) f
  end.

Definition addFQDNSelector (ruleID : string) (fqdns : list string)
    (f : fqdnController) : fqdnController :=
  foldl (addFQDNSelector1 ruleID) f fqdns.

(** The body of the loop of [cleanupFQDNSelectorItem]. *)
Definition cleanupFQDN (fs : fqdnSelectorItem) (f : fqdnController)
    (fqdn : string) : fqdnController :=
  let selectors := default ∅ (fqdnToSelectorItems f !! fqdn) in
  if decide (fs ∈ selectors) then
    let selectors := selectors ∖ {[fs]} in
    if decide (size selectors = 0%nat) then
      set_dnsEntryCache (delete fqdn (dnsEntryCache f))
        (set_fqdnToSelectorItems (delete fqdn (fqdnToSelectorItems f)) f)
    else
      set_fqdnToSelectorItems
        (<[fqdn := selectors]> (fqdnToSelectorItems f)) f
  else f.

(** [cleanupFQDNSelectorItem] handles the deletion of a selector item. *)
Definition cleanupFQDNSelectorItem (fs : fqdnSelectorItem)
    (f : fqdnController) : fqdnController :=
  let f :=
    foldl (cleanupFQDN fs) f
          (elements (default ∅ (selectorItemToFQDN f !! fs))) in
  set_selectorItemToRuleIDs (delete fs (selectorItemToRuleIDs f))
    (set_selectorItemToFQDN (delete fs (selectorItemToFQDN f)) f).

Definition deleteFQDNSelector1 (ruleID : string) (f : fqdnController)
    (fqdn : string) : fqdnController :=
  let fqdnSelectorItem := fqdnToSelectorItem fqdn in
  match selectorItemToRuleIDs f !! fqdnSelectorItem with
  | Some ruleIDs =>
      if decide (ruleID ∈ ruleIDs) then
        let remainingRules := ruleIDs ∖ {[ruleID]} in
        if decide (0 < size remainingRules)%nat then
          set_selectorItemToRuleIDs
            (<[fqdnSelectorItem := remainingRules]> (selectorItemToRuleIDs f)) f
        else cleanupFQDNSelectorItem fqdnSelectorItem f
      else f
  | None => f
  end.

Definition deleteFQDNSelector (ruleID : string) (fqdns : list string)
    (f : fqdnController) : fqdnController :=
  foldl (deleteFQDNSelector1 ruleID) f fqdns.

(** The union of the Pod ports of all rules. *)
Definition mergedPods (m : gmap string (gset Z)) : gset Z :=
  foldl (λ acc kv, MergeInt32 acc kv.2) ∅ (map_to_list m).

(** [updateRuleSelectedPods] updates the Pod ports selected by a rule
    and programs the difference into the DNS interception flow. *)
Definition updateRuleSelectedPods (ruleID : string) (podOFAddrs : gset Z)
    (f : fqdnController) : fqdnController * option error :=
  let originalPodSet := mergedPods (fqdnRuleToSelectedPods f) in
  let f :=
    set_fqdnRuleToSelectedPods
      (<[ruleID := podOFAddrs]> (fqdnRuleToSelectedPods f)) f in
  let newPodSet := mergedPods (fqdnRuleToSelectedPods f) in
  let addedPods := newPodSet ∖ originalPodSet in
  let removedPods := originalPodSet ∖ newPodSet in
  let '(f, r) :=
    if decide (0 < size addedPods)%nat then
      let '(c, r) :=
        ofInvoke (ofClient f)
          (AddAddressToDNSConjunction dnsInterceptRuleID (elements addedPods)) in
      (set_ofClient c f, r)
    else (f, None) in
  match r with
  | Some e => (f, Some e)
  | None =>
      if decide (0 < size removedPods)%nat then
        let '(c, r) :=
          ofInvoke (ofClient f)
            (DeleteAddressFromDNSConjunction dnsInterceptRuleID
               (elements removedPods)) in
        (set_ofClient c f, r)
      else (f, None)
  end.

(** [deleteRuleSelectedPods] removes the Pod ports selected by a rule. *)
Definition deleteRuleSelectedPods (ruleID : string) (f : fqdnController)
    : fqdnController * option error :=
  match fqdnRuleToSelectedPods f !! ruleID with
  | None => (f, None)
  | Some _ =>
      let originalPodSet := mergedPods (fqdnRuleToSelectedPods f) in
      let f :=
        set_fqdnRuleToSelectedPods (delete ruleID (fqdnRuleToSelectedPods f)) f in
      let newPodSet := mergedPods (fqdnRuleToSelectedPods f) in
      let removedPods := originalPodSet ∖ newPodSet in
      if decide (0 < size removedPods)%nat then
        let '(c, r) :=
          ofInvoke (ofClient f)
            (DeleteAddressFromDNSConjunction dnsInterceptRuleID
               (elements removedPods)) in
        (set_ofClient c f, r)
      else (f, None)
  end.

(** [addFQDNRule] and [deleteFQDNRule], the two entry points. *)
Definition addFQDNRule (ruleID : string) (fqdns : list string)
    (podOFAddrs : gset Z) (f : fqdnController) : fqdnController * option error :=
  updateRuleSelectedPods ruleID podOFAddrs (addFQDNSelector ruleID fqdns f).

Definition deleteFQDNRule (ruleID : string) (fqdns : list string)
    (f : fqdnController) : fqdnController * option error :=
  deleteRuleSelectedPods ruleID (deleteFQDNSelector ruleID fqdns f).

(** The rules of the selector items that select [fqdn]: the set
    [syncDirtyRules] collects in [dirtyRules]. *)
Definition rulesSelecting (f : fqdnController) (fqdn : string) : gset string :=
  foldl (λ dirty selectorItem,
           MergeString dirty
             (default ∅ (selectorItemToRuleIDs f !! selectorItem)))
        ∅ (elements (default ∅ (fqdnToSelectorItems f !! fqdn))).

Definition runDirtyRuleHandler (rules : gset string) (f : fqdnController)
    : fqdnController :=
  set_dirtyRuleHandler (dirtyRuleHandler f ++ elements rules) f.

(** [syncDirtyRules] triggers rule syncs for the rules affected by the
    FQDN of a DNS response.  [waitCh] is [None] for the nil channel. *)
Definition syncDirtyRules (fqdn : string) (waitCh : option chanId)
    (addressUpdate : bool) (st : fqdnController * chanLog)
    : fqdnController * chanLog :=
  let '(f, log) := st in
  match waitCh, addressUpdate with
  | None, false => (f, log)
  | None, true => (runDirtyRuleHandler (rulesSelecting f fqdn) f, log)
  | Some ch, _ =>
      let dirty := rulesSelecting f fqdn in
      let dirty :=
        if addressUpdate then dirty
        else getDirtyRules (tracker f) ∩ dirty in
      if decide (0 < size dirty)%nat then
        (runDirtyRuleHandler dirty
           (set_tracker (subscribe ch dirty (tracker f)) f), log)
      else (f, log ++ [(ch, None)])
  end.

(** The accumulator of the merge: the new address map and the earliest
    expiration seen ([timeToRequery], [None] for nil). *)
Definition updateIPWithExpiration (ipStr : string) (ipMeta : ipWithExpiration)
    (acc : gmap string ipWithExpiration * option Time)
    : gmap string ipWithExpiration * option Time :=
  (<[ipStr := ipMeta]> acc.1,
   match acc.2 with
   | None => Some (expirationTime ipMeta)
   | Some t =>
       if Time_Before (expirationTime ipMeta) t
       then Some (expirationTime ipMeta) else Some t
   end).

Definition mergeState : Type := gmap string ipWithExpiration * option Time * bool.

(** First loop of the merge: addresses of the response not yet cached. *)
Definition mergeNew (cached : gmap string ipWithExpiration)
    (acc : mergeState) (kv : string * ipWithExpiration) : mergeState :=
  let '(m, addressUpdate) := acc in
  match cached !! kv.1 with
  | None => (updateIPWithExpiration kv.1 kv.2 m, true)
  | Some _ => (m, addressUpdate)
  end.

(** Second loop of the merge: the cached addresses. *)
Definition mergeCached (newIPsWithExpiration : gmap string ipWithExpiration)
    (currentTime : Time) (acc : mergeState)
    (kv : string * ipWithExpiration) : mergeState :=
  let '(m, addressUpdate) := acc in
  match newIPsWithExpiration !! kv.1 with
  | None =>
      if Time_Before (expirationTime kv.2) currentTime then (m, true)
      else (updateIPWithExpiration kv.1 kv.2 m, addressUpdate)
  | Some newIPMeta =>
      (updateIPWithExpiration kv.1
         (mkIPExp (ip kv.2)
            (laterOf (expirationTime newIPMeta) (expirationTime kv.2))) m,
       addressUpdate)
  end.

Definition mergeResponse (cached newIPsWithExpiration : gmap string ipWithExpiration)
    (currentTime : Time) : mergeState :=
  foldl (mergeCached newIPsWithExpiration currentTime)
    (foldl (mergeNew cached) (∅, None, false)
       (map_to_list newIPsWithExpiration))
    (map_to_list cached).

(** The loop over the registered selector items for a name seen for the
    first time. *)
Definition matchNewFQDN (fqdn : string) (acc : fqdnController * bool)
    (kv : fqdnSelectorItem * gset string) : fqdnController * bool :=
  if matches kv.1 fqdn then (setFQDNMatchSelector fqdn kv.1 acc.1, true)
  else acc.

(** [onDNSResponse] merges the addresses of a response into the cache. *)
Definition onDNSResponse (fqdn : string)
    (newIPsWithExpiration : gmap string ipWithExpiration)
    (waitCh : option chanId) (st : fqdnController * chanLog)
    : fqdnController * chanLog :=
  let '(f, log) := st in
  if decide (size newIPsWithExpiration = 0%nat) then
    match waitCh with
    | Some ch => (f, log ++ [(ch, None)])
    | None => (f, log)
    end
  else
    let '(currentTime, clk) := clock_Now (clock f) in
    let f := set_clock clk f in
    let '(f, (ipWithExpirationMap, timeToRequery, addressUpdate)) :=
      match dnsEntryCache f !! fqdn with
      | Some cachedDNSMeta =>
          (f, mergeResponse (responseIPs cachedDNSMeta)
                newIPsWithExpiration currentTime)
      | None =>
          let '(f, addToCache) :=
            foldl (matchNewFQDN fqdn) (f, false)
                  (map_to_list (selectorItemToRuleIDs f)) in
          if addToCache then
            (f, (foldl (λ m kv, updateIPWithExpiration kv.1 kv.2 m) (∅, None)
                   (map_to_list newIPsWithExpiration), true))
          else (f, (∅, None, false))
      end in
    let f :=
      if decide (0 < size ipWithExpirationMap)%nat then
        let f :=
          set_dnsEntryCache
            (<[fqdn := mkDNSMeta ipWithExpirationMap]> (dnsEntryCache f)) f in
        match timeToRequery with
        | Some t =>
            set_dnsQueryQueue
              (dnsQueryQueue f ++ [QAddAfter fqdn (Time_Sub t currentTime)]) f
        | None => f
        end
      else f in
    syncDirtyRules fqdn waitCh addressUpdate (f, log).

(** The loop of [parseDNSResponse] over the answer section. *)
Definition parseAnswer (f : fqdnController) (currentTime : Time)
    (responseIPs : gmap string ipWithExpiration) (ans : dnsRR)
    : gmap string ipWithExpiration :=
  match ans with
  | RR_A ttl a =>
      if ipv4Enabled f then
        <[net_IP_String a :=
            mkIPExp a
              (Time_Add currentTime
                 (Duration_mul (Z.max (minTTL f) ttl) time_Second))]> responseIPs
      else responseIPs
  | RR_AAAA ttl aaaa =>
      if ipv6Enabled f then
        <[net_IP_String aaaa :=
            mkIPExp aaaa
              (Time_Add currentTime
                 (Duration_mul (Z.max (minTTL f) ttl) time_Second))]> responseIPs
      else responseIPs
  | RR_other => responseIPs
  end.

(** [parseDNSResponse] returns the FQDN and the addresses of a DNS
    response, or an error. *)
Definition parseDNSResponse (msg : dnsMsg) (f : fqdnController)
    : fqdnController * (string * gmap string ipWithExpiration + error) :=
  match Question msg with
  | [] => (f, inr "invalid DNS message")
  | q :: _ =>
      let fqdn := strings_ToLower q in
      let '(currentTime, clk) := clock_Now (clock f) in
      let f := set_clock clk f in
      let responseIPs := foldl (parseAnswer f currentTime) ∅ (Answer msg) in
      (f, inl (trimSuffix1 fqdn "."%char, responseIPs))
  end.

(** [onDNSResponseMsg] handles a DNS response message. *)
Definition onDNSResponseMsg (dnsMsg : dnsMsg) (waitCh : option chanId)
    (st : fqdnController * chanLog) : fqdnController * chanLog :=
  let '(f, log) := st in
  match parseDNSResponse dnsMsg f with
  | (f, inr e) =>
      match waitCh with
      | Some ch =>
          (f, log ++ [(ch, Some ("failed to parse DNS response: " +:+ e))])
      | None => (f, log)
      end
  | (f, inl (fqdn, responseIPs)) => onDNSResponse fqdn responseIPs waitCh (f, log)
  end.

(** [lookupIP] resolves through the host resolver.  [lookup4] and
    [lookup6] are what [resolver.LookupIP] returns for ["ip4"] and
    ["ip6"]; the result is the list of errors that is aggregated. *)
Definition defaultTTL : Z := 600.

Definition makeResponseIPs (ips : list IP) (f : fqdnController)
    : fqdnController * gmap string ipWithExpiration :=
  foldl (λ acc ip,
           let '(now, clk) := clock_Now (clock acc.1) in
           (set_clock clk acc.1,
            <[net_IP_String ip :=
                mkIPExp ip
                  (Time_Add now (Duration_mul defaultTTL time_Second))]> acc.2))
        (f, ∅) ips.

Definition lookupIP (fqdn : string) (lookup4 lookup6 : list IP + error)
    (st : fqdnController * chanLog) : fqdnController * chanLog * list error :=
  let '(st, errs) :=
    if ipv4Enabled st.1 then
      match lookup4 with
      | inl ips =>
          let '(f, responseIPs) := makeResponseIPs ips st.1 in
          (onDNSResponse fqdn responseIPs None (f, st.2), [])
      | inr e => (st, ["DNS request failed for IPv4: " +:+ e])
      end
    else (st, []) in
  if ipv6Enabled st.1 then
    match lookup6 with
    | inl ips =>
        let '(f, responseIPs) := makeResponseIPs ips st.1 in
        (onDNSResponse fqdn responseIPs None (f, st.2), errs)
    | inr e => (st, errs ++ ["DNS request failed for IPv6: " +:+ e])
    end
  else (st, errs).

(** ** The packet-in barrier

    [HandlePacketIn] starts a goroutine that handles the packet and
    then waits in a [select] for the first of: the timer of
    [ruleRealizationTimeout], a value on [waitCh].  The goroutine is
    [packetInWorker]; the [select] is [HandlePacketIn], given the case
    that was taken. *)

Definition sendNil (ch : chanId) (st : fqdnController * chanLog)
    : fqdnController * chanLog :=
  (st.1, st.2 ++ [(ch, None)]).

Definition handleUDP (unpackUDP : option dnsMsg) (ch : chanId)
    (st : fqdnController * chanLog) : fqdnController * chanLog :=
  match unpackUDP with
  | None => sendNil ch st
  | Some dnsMsg => onDNSResponseMsg dnsMsg (Some ch) st
  end.

Definition handleTCP (tcpPkt : option tcpDNSData) (ch : chanId)
    (st : fqdnController * chanLog) : fqdnController * chanLog :=
  match tcpPkt with
  | None => sendNil ch st
  | Some d =>
      if decide (capturedLength d < dataLength d) then
        match unpackPartially d with
        | None => sendNil ch st
        | Some dnsMsg => onDNSResponseMsg dnsMsg (Some ch) st
        end
      else
        match unpackTCP d with
        | None => sendNil ch st
        | Some dnsMsg => onDNSResponseMsg dnsMsg (Some ch) st
        end
  end.

Definition handleL4 (l4 : l4View) (ch : chanId)
    (st : fqdnController * chanLog) : fqdnController * chanLog :=
  match l4 with
  | L4_UDP u => handleUDP u ch st
  | L4_TCP None => sendNil ch st
  | L4_TCP (Some tcpPkt) => handleTCP tcpPkt ch st
  | L4_other => st
  end.

Definition packetInWorker (pktIn : PacketIn) (ch : chanId)
    (st : fqdnController * chanLog) : fqdnController * chanLog :=
  match GetEthernetPacket pktIn with
  | None => sendNil ch st
  | Some (Eth_IPv4 l4) => handleL4 l4 ch st
  | Some (Eth_IPv6 l4) => handleL4 l4 ch st
  | Some Eth_other => st
  end.

(** The case of the [select] that is taken: the timer fired before any
    value was available on [waitCh], or a value was received from
    [waitCh] before the timer fired. *)
Inductive selectCase :=
  | TimerFired
  | Received (v : option error).

Definition HandlePacketIn (pktIn : PacketIn) (taken : selectCase)
    (f : fqdnController) : fqdnController * option error :=
  match taken with
  | TimerFired =>
      (f, Some "rules not synced within 2s for DNS reply, dropping packet")
  | Received (Some e) =>
      (f, Some ("error when syncing up rules for DNS reply, dropping packet: "
                +:+ e))
  | Received None =>
      let '(c, r) := ofInvoke (ofClient f) (ResumePausePacket pktIn) in
      (set_ofClient c f, r)
  end.

(** ** Reachable states of the selector index and the cache *)

Inductive indexOp :=
  | OpAddFQDNSelector (ruleID : string) (fqdns : list string)
  | OpDeleteFQDNSelector (ruleID : string) (fqdns : list string)
  | OpOnDNSResponse (fqdn : string)
      (newIPsWithExpiration : gmap string ipWithExpiration)
      (waitCh : option chanId).

Definition runIndexOp (st : fqdnController * chanLog) (op : indexOp)
    : fqdnController * chanLog :=
  match op with
  | OpAddFQDNSelector ruleID fqdns => (addFQDNSelector ruleID fqdns st.1, st.2)
  | OpDeleteFQDNSelector ruleID fqdns =>
      (deleteFQDNSelector ruleID fqdns st.1, st.2)
  | OpOnDNSResponse fqdn ips waitCh => onDNSResponse fqdn ips waitCh st
  end.

(** A controller as [newFQDNController] returns it. *)
Definition isNew (f : fqdnController) : Prop :=
  ∃ client over host port v4 v6 gw clk ttl,
    newFQDNController client over host port v4 v6 gw clk ttl = inl f.

Inductive reachable : fqdnController * chanLog → Prop :=
  | reachable_new f : isNew f → reachable (f, [])
  | reachable_step st op : reachable st → reachable (runIndexOp st op).

End Controller.

(** ** An implementation of the library interface for the examples

    Enough of the library for names made of ASCII letters, digits, [-],
    [.] and [*]: ASCII case folding and trimming, the patterns [toRegex]
    makes from such names, and dotted decimal printing of addresses. *)
Module ExampleLib.

Definition lowerChar (c : ascii) : ascii :=
  let n := nat_of_ascii c in
  if decide (65 ≤ n ≤ 90)%nat then ascii_of_nat (n + 32) else c.

Fixpoint toLower (s : string) : string :=
  match s with
  | EmptyString => EmptyString
  | String c s' => String (lowerChar c) (toLower s')
  end.

Definition isSpace (c : ascii) : bool :=
  bool_decide (c = " "%char) || bool_decide (9 ≤ nat_of_ascii c ≤ 13)%nat.

Fixpoint trimLeft (s : string) : string :=
  match s with
  | EmptyString => EmptyString
  | String c s' => if isSpace c then trimLeft s' else s
  end.

Fixpoint trimRight (s : string) : string :=
  match s with
  | EmptyString => EmptyString
  | String c s' =>
      match trimRight s' with
      | EmptyString => if isSpace c then EmptyString else String c EmptyString
      | r => String c r
      end
  end.

(** A pattern is a list of literals and [.*] ([None]). *)
Fixpoint tokens (p : string) : list (option ascii) :=
  match p with
  | EmptyString => []
  | String "["%char (String c (String "]"%char p')) => Some c :: tokens p'
  | String "."%char (String "*"%char p') => None :: tokens p'
  | String c p' => Some c :: tokens p'
  end.

Fixpoint glob (toks : list (option ascii)) (s : string) : bool :=
  match toks with
  | [] => bool_decide (s = "")
  | Some c :: toks' =>
      match s with
      | String d s' => bool_decide (c = d) && glob toks' s'
      | EmptyString => false
      end
  | None :: toks' =>
      (fix star (s : string) : bool :=
         glob toks' s ||
         match s with
         | String _ s' => star s'
         | EmptyString => false
         end) s
  end.

Definition matchString (pattern s : string) : bool :=
  match pattern with
  | String "^"%char p =>
      match reverse (tokens p) with
      | Some "$"%char :: rtoks => glob (reverse rtoks) s
      | _ => false
      end
  | _ => false
  end.

Definition ipString (a : IP) : string :=
  String.concat "." (pretty <$> a).

Definition lib : GoLib :=
  {| strings_ToLower := toLower;
     strings_TrimSpace := λ s, trimRight (trimLeft s);
     regexp_MatchString := matchString;
     net_IP_String := ipString |}.

(** A clock that advances by one second at every reading. *)
Definition tick (start : Time) : Clock :=
  λ n, Z.of_nat n * time_Second + start.

(** Clients that accept every call, and that refuse every call but the
    installation of the interception flow. *)
Definition okClient : ofClientT := mkOFClient [] (λ _ _, None).
Definition failingClient : ofClientT :=
  mkOFClient []
    (λ _ call,
       match call with
       | NewDNSPacketInConjunction _ => None
       | _ => Some "ovs: connection refused"
       end).

(** A controller as [newFQDNController] makes it, IPv4 only.  Both
    clients accept the installation of the interception flow, so the
    second branch is not taken. *)
Definition controller (client : ofClientT) (ttl : Z) : fqdnController :=
  match newFQDNController 1 client "" "" "" true false 2
          (tick 1000000000000) ttl with
  | inl f => f
  | inr _ =>
      mkController client "" ttl [] newRuleSyncTracker ∅ [] ∅ ∅ ∅ ∅
        true false 2 (tick 1000000000000)
  end.

(** Rule r1 selects api.example.com, and a response with two addresses
    of TTL 60 has been merged. *)
Definition twoAddresses : fqdnController :=
  (onDNSResponseMsg (golib := lib)
     (mkDNSMsg ["api.example.com."]
        [RR_A 60 [10; 0; 0; 1]; RR_A 60 [10; 0; 0; 2]])
     None
     (addFQDNSelector (golib := lib) "r1" ["api.example.com"]
        (controller okClient 0), [])).1.

(** Rule r1 selects api.example.com; no response has been seen. *)
Definition oneRule : fqdnController * chanLog :=
  runIndexOp (golib := lib) (controller okClient 0, [])
    (OpAddFQDNSelector "r1" ["api.example.com"]).

(** Rule r1 selects *.example.com, and a response for api.example.com
    has been merged. *)
Definition wildcardResolved : fqdnController * chanLog :=
  runIndexOp (golib := lib)
    (runIndexOp (golib := lib) (controller okClient 0, [])
       (OpAddFQDNSelector "r1" ["*.example.com"]))
    (OpOnDNSResponse "api.example.com"
       {[ "10.0.0.1" := mkIPExp [10; 0; 0; 1] 1060000000000 ]} None).

(** Rule r1 selects *.foo.com and api.example.com, and a response for
    api.example.com has been merged: no cached name matches the
    wildcard. *)
Definition unmatchedWildcard : fqdnController * chanLog :=
  runIndexOp (golib := lib)
    (runIndexOp (golib := lib) (controller okClient 0, [])
       (OpAddFQDNSelector "r1" ["*.foo.com"; "api.example.com"]))
    (OpOnDNSResponse "api.example.com"
       {[ "10.0.0.1" := mkIPExp [10; 0; 0; 1] 1060000000000 ]} None).

End ExampleLib.

(** ** Predicates used in the statements *)

(** [rst'] is [rst] with one more subscriber, waiting on [ch] for the
    rules [X]: a new object with count [size X], appended to the list of
    every rule of [X] and to no other, and [X] added to the dirty rules. *)
Definition subscribed (ch : chanId) (X : gset string)
    (rst rst' : ruleSyncTracker) : Prop :=
  subscriberHeap rst' =
    subscriberHeap rst ++ [mkSubscriber ch (Z.of_nat (size X))] ∧
  dirtyRules rst' = dirtyRules rst ∪ X ∧
  ∀ r,
    ruleToSubscribers rst' !! r =
      if decide (r ∈ X)
      then Some (default [] (ruleToSubscribers rst !! r)
                 ++ [length (subscriberHeap rst)])
      else ruleToSubscribers rst !! r.

(** What [Run] sends to a subscriber that is alone in the tracker, from
    the rules [S] it still waits for and whether one of its rules has
    failed: one error for every first report of a rule of [S] that is a
    failure, and nil when the last rule of [S] succeeds and none failed. *)
Fixpoint sentToSubscriber (S : gset string) (failed : bool)
    (updates : list ruleRealizationUpdate) : list (option error) :=
  match updates with
  | [] => []
  | u :: updates =>
      if decide (ruleId u ∈ S) then
        match err u with
        | Some _ =>
            Some ("failed to realize rule " +:+ ruleId u +:+ " in OVS")
            :: sentToSubscriber (S ∖ {[ruleId u]}) true updates
        | None =>
            (if negb failed && bool_decide (size S = 1%nat) then [None] else [])
            ++ sentToSubscriber (S ∖ {[ruleId u]}) failed updates
        end
      else sentToSubscriber S failed updates
  end.

(** The tracker holds one subscriber, on [ch], still listed for the rules
    [S]; its count is zero after a failure and [size S] otherwise. *)
Definition loneSubscriber (ch : chanId) (S : gset string) (failed : bool)
    (rst : ruleSyncTracker) : Prop :=
  subscriberHeap rst =
    [mkSubscriber ch (if failed then 0 else Z.of_nat (size S))] ∧
  ∀ r, ruleToSubscribers rst !! r = if decide (r ∈ S) then Some [0%nat] else None.

(** The entry the merge gives to an address, from the cached entry [c]
    and the entry [n] of the response, at the time [now] of the merge. *)
Definition merged1 (now : Time) (c n : option ipWithExpiration)
    : option ipWithExpiration :=
  match c, n with
  | Some c, Some n =>
      Some (mkIPExp (ip c) (laterOf (expirationTime n) (expirationTime c)))
  | Some c, None => if Time_Before (expirationTime c) now then None else Some c
  | None, n => n
  end.

(** The TTL of a resource record, as [r.Header().Ttl] reads it. *)
Definition rrTTL (rr : dnsRR) : Z :=
  match rr with
  | RR_A ttl _ | RR_AAAA ttl _ => ttl
  | RR_other => 0
  end.

(** The selector index as relations.  [linked f fqdn s]: [s] is in the
    set [fqdnToSelectorItems] has for [fqdn].  [rlinked f s fqdn]: [fqdn]
    is in the set [selectorItemToFQDN] has for [s].  [registered f s]:
    [s] is a key of [selectorItemToRuleIDs].  [cachedName f fqdn]: [fqdn]
    is a key of [dnsEntryCache]. *)
Definition linked (f : fqdnController) (fqdn : string)
    (s : fqdnSelectorItem) : Prop :=
  ∃ selectors, fqdnToSelectorItems f !! fqdn = Some selectors ∧ s ∈ selectors.

Definition rlinked (f : fqdnController) (s : fqdnSelectorItem)
    (fqdn : string) : Prop :=
  ∃ names, selectorItemToFQDN f !! s = Some names ∧ fqdn ∈ names.

Definition registered (f : fqdnController) (s : fqdnSelectorItem) : Prop :=
  is_Some (selectorItemToRuleIDs f !! s).

Definition cachedName (f : fqdnController) (fqdn : string) : Prop :=
  is_Some (dnsEntryCache f !! fqdn).

(** The name [x] is cached only because of [fs]. *)
Definition onlySelectedBy (f : fqdnController) (fs : fqdnSelectorItem)
    (x : string) : Prop :=
  ∃ selectors,
    fqdnToSelectorItems f !! x = Some selectors ∧ fs ∈ selectors ∧
    selectors ∖ {[fs]} = ∅.

(** [a] is one of the addresses cached for [name]. *)
Definition cachedIP (f : fqdnController) (name : string) (a : IP) : Prop :=
  ∃ meta k v,
    dnsEntryCache f !! name = Some meta ∧ responseIPs meta !! k = Some v ∧
    ip v = a.

Section IndexInvariant.
Context {golib : GoLib}.

(** The invariant of the index.  Every link is between a name and a
    registered selector item that matches it, and is recorded in both
    directions; every cached name has a link; every key of
    [selectorItemToFQDN] is registered. *)
Definition linksInv (f : fqdnController) : Prop :=
  (∀ fqdn s, linked f fqdn s →
     matches s fqdn = true ∧ registered f s ∧ rlinked f s fqdn) ∧
  (∀ s fqdn, rlinked f s fqdn → linked f fqdn s) ∧
  (∀ fqdn, cachedName f fqdn → ∃ s, linked f fqdn s) ∧
  (∀ s, is_Some (selectorItemToFQDN f !! s) → registered f s).

(** [s] is linked to every cached name it matches. *)
Definition complete (f : fqdnController) (s : fqdnSelectorItem) : Prop :=
  ∀ fqdn, cachedName f fqdn → matches s fqdn = true → rlinked f s fqdn.

Definition indexInv (f : fqdnController) : Prop :=
  linksInv f ∧ ∀ s, registered f s → complete f s.

(** [f'] is [f] with more links: same cache and registered selectors. *)
Definition grown (f f' : fqdnController) : Prop :=
  dnsEntryCache f' = dnsEntryCache f ∧
  selectorItemToRuleIDs f' = selectorItemToRuleIDs f ∧
  (∀ y x, rlinked f y x → rlinked f' y x) ∧
  (linksInv f → linksInv f').

End IndexInvariant.

(** ** Proactive queries *)

Section Proactive.
Context {golib : GoLib}.

(** [dns.TypeA] and [dns.TypeAAAA]. *)
Definition dns_TypeA : Z := 1.
Definition dns_TypeAAAA : Z := 28.

(** [fqdn[len(fqdn)-1]], [None] when the index is out of range. *)
Fixpoint lastByte (s : string) : option ascii :=
  match s with
  | EmptyString => None
  | String c EmptyString => Some c
  | String _ s' => lastByte s'
  end.

(** [makeDNSRequest] makes a proactive query for a FQDN.  [lookup4] and
    [lookup6] are the answers of the host resolver and [exchange name
    qtype] is what [dnsClient.ExchangeContext] returns for a question.
    The result is [None] when the function panics (the index expression
    on an empty name), and otherwise the list of errors that is
    aggregated. *)
Definition makeDNSRequest (fqdn : string) (lookup4 lookup6 : list IP + error)
    (exchange : string → Z → dnsMsg + error)
    (st : fqdnController * chanLog)
    : option (fqdnController * chanLog * list error) :=
  if decide (dnsServerAddr st.1 = "") then
    Some (lookupIP fqdn lookup4 lookup6 st)
  else
    match lastByte fqdn with
    | None => None
    | Some c =>
        let fqdnToQuery :=
          if decide (c ≠ "."%char) then fqdn +:+ "." else fqdn in
        let '(st, errs) :=
          if ipv4Enabled st.1 then
            match exchange fqdnToQuery dns_TypeA with
            | inl res => (onDNSResponseMsg res None st, [])
            | inr e => (st, ["DNS request failed for IPv4: " +:+ e])
            end
          else (st, []) in
        Some
          (if ipv6Enabled st.1 then
             match exchange fqdnToQuery dns_TypeAAAA with
             | inl res => (onDNSResponseMsg res None st, errs)
             | inr e => (st, errs ++ ["DNS request failed for IPv6: " +:+ e])
             end
           else (st, errs))
    end.

(** [handleErr], on the aggregate of the errors: nil when there is none. *)
Definition handleErr (errs : list error) (key : string)
    (f : fqdnController) : fqdnController :=
  match errs with
  | [] => set_dnsQueryQueue (dnsQueryQueue f ++ [QForget key]) f
  | _ => set_dnsQueryQueue (dnsQueryQueue f ++ [QAddRateLimited key]) f
  end.

End Proactive.

(** ** Further predicates *)

(** Modelled from the spec: the address set of the DNS interception
    flow, which the datapath holds and whose implementation is not among
    the sources; the specification has the datapath add or remove the
    given ports and return an error.  A call changes the set of the flow
    it names, and a call that the datapath refused is taken to have left
    the set as it was. *)
Definition programmedStep (id : Z) (ports : gset Z) (call : ofCall) : gset Z :=
  match call with
  | AddAddressToDNSConjunction id' addrs =>
      if decide (id' = id) then ports ∪ list_to_set addrs else ports
  | DeleteAddressFromDNSConjunction id' addrs =>
      if decide (id' = id) then ports ∖ list_to_set addrs else ports
  | _ => ports
  end.

(** The calls made before, and the ports in the address set of the flow
    [id], after one more call on a datapath that answers with [reply]. *)
Definition programmedCall (id : Z) (reply : list ofCall → ofCall → option error)
    (acc : list ofCall * gset Z) (call : ofCall) : list ofCall * gset Z :=
  (acc.1 ++ [call],
   match reply acc.1 call with
   | None => programmedStep id acc.2 call
   | Some _ => acc.2
   end).

(** The ports in the address set of the DNS interception flow [id] after
    the calls made on the client [c], of which only those the datapath
    accepted count. *)
Definition programmedPorts (id : Z) (c : ofClientT) : gset Z :=
  (foldl (programmedCall id (ofReply c)) ([], ∅) (ofCalls c)).2.

(** The subscriber at position [p] of the heap, on [ch], is the only one
    listed in the tracker, for the rules [S]; its count is zero after a
    failure and [size S] otherwise.  The heap may hold other subscriber
    objects, which no rule lists any more. *)
Definition soleSubscriber (p : nat) (ch : chanId) (S : gset string)
    (failed : bool) (rst : ruleSyncTracker) : Prop :=
  subscriberHeap rst !! p =
    Some (mkSubscriber ch (if failed then 0 else Z.of_nat (size S))) ∧
  ∀ r, ruleToSubscribers rst !! r = if decide (r ∈ S) then Some [p] else None.

(** No map of the index or of the cache holds an empty set: a selector
    item has a rule, a linked name a selector item and the reverse, and a
    cached name an address. *)
Definition nonEmptyInv (f : fqdnController) : Prop :=
  (∀ s rules, selectorItemToRuleIDs f !! s = Some rules → rules ≠ ∅) ∧
  (∀ x selectors, fqdnToSelectorItems f !! x = Some selectors → selectors ≠ ∅) ∧
  (∀ s names, selectorItemToFQDN f !! s = Some names → names ≠ ∅) ∧
  (∀ x meta, dnsEntryCache f !! x = Some meta → responseIPs meta ≠ ∅).

(** The rule set of a selector item once a rule is released: the entry
    goes when the set becomes empty. *)
Definition releaseRule (ruleID : string) (o : option (gset string))
    : option (gset string) :=
  match o with
  | Some rules =>
      if decide (ruleID ∈ rules) then
        if decide (rules ∖ {[ruleID]} = ∅) then None
        else Some (rules ∖ {[ruleID]})
      else Some rules
  | None => None
  end.

(** [t] is the earliest expiration time among the entries of [m], and
    nil when [m] has no entry. *)
Definition earliest (m : gmap string ipWithExpiration) (t : option Time)
    : Prop :=
  match t with
  | None => m = ∅
  | Some t0 =>
      (∃ k v, m !! k = Some v ∧ expirationTime v = t0) ∧
      ∀ k v, m !! k = Some v → t0 ≤ expirationTime v
  end.

(** The fields that the operations on the selector index and on the
    cache leave alone: the datapath client with the calls made on it, the
    Pods of the rules, and the configuration. *)
Definition datapathFields (f : fqdnController) :=
  (ofClient f, fqdnRuleToSelectedPods f, dnsServerAddr f, minTTL f,
   ipv4Enabled f, ipv6Enabled f, gwPort f).

(** The errors a proactive query collects for one address family: none
    when the family is disabled or the request was answered. *)
Definition requestError {A} (prefix : string) (enabled : bool)
    (r : A + error) : list error :=
  if enabled then
    match r with
    | inl _ => []
    | inr e => [prefix +:+ e]
    end
  else [].

(** * Properties *)

(** Sanity checks of the example library against the pattern examples of
    the specification. *)
Example toRegex_k8s :
  toRegex (golib := ExampleLib.lib) "*.k8s.io" = "^.*[.]k8s[.]io$".
Proof. reflexivity. Qed.

Example regex_matches_k8s :
  let fs := fqdnToSelectorItem (golib := ExampleLib.lib) "*.K8S.io" in
  matches (golib := ExampleLib.lib) fs "foo.k8s.io" = true ∧
  matches (golib := ExampleLib.lib) fs "a.b.k8s.io" = true ∧
  matches (golib := ExampleLib.lib) fs "k8s.io" = false ∧
  matches (golib := ExampleLib.lib) fs "fooxk8sxio" = false.
Proof. vm_compute. done. Qed.


(** ** The packet-in barrier *)

(** C1.  Whatever the packet and the state of the controller, the call of
    [HandlePacketIn] asks the datapath to resume the paused packet exactly
    when the [select] received nil from [waitCh] before the timer of
    [ruleRealizationTimeout] (two seconds) fired.  When the timer fired
    first, or an error was received, it returns an error and leaves the
    controller as it was: the datapath client is not called, so the
    packet is not resumed.  When it resumes, the result is the one of
    [ResumePausePacket]. *)
Theorem HandlePacketIn_resumes_iff_nil_received
    (pktIn : PacketIn) (taken : selectCase) (f : fqdnController) :
  let f' := (HandlePacketIn pktIn taken f).1 in
  let r := (HandlePacketIn pktIn taken f).2 in
  ruleRealizationTimeout = 2 * time_Second ∧
  (ofCalls (ofClient f') = ofCalls (ofClient f) ++ [ResumePausePacket pktIn]
   ↔ taken = Received None) ∧
  match taken with
  | Received None =>
      r = ofReply (ofClient f) (ofCalls (ofClient f)) (ResumePausePacket pktIn)
  | _ => is_Some r ∧ f' = f
  end.
Proof.
  split; [reflexivity|].
  destruct taken as [|[e|]]; simpl.
  - split; [|by eauto]. split; [|done].
    intros Heq. apply (f_equal length) in Heq. rewrite length_app in Heq.
    simpl in Heq. lia.
  - split; [|by eauto]. split; [|done].
    intros Heq. apply (f_equal length) in Heq. rewrite length_app in Heq.
    simpl in Heq. lia.
  - done.
Qed.

(** ** The response merge on an empty answer *)

(** C10.  [onDNSResponse] with an empty address map returns the controller
    unchanged (cache, selector maps, query queue, tracker and clock
    alike), and when [waitCh] is not nil its only effect is one nil sent
    on it.  The state is arbitrary: the tracker is not consulted, so this
    holds also when rules selecting the name are dirty. *)
Theorem onDNSResponse_empty_releases
    {golib : GoLib} (fqdn : string) (waitCh : option chanId)
    (f : fqdnController) (log : chanLog) :
  onDNSResponse fqdn ∅ waitCh (f, log) =
    (f, match waitCh with
        | Some ch => log ++ [(ch, None)]
        | None => log
        end).
Proof.
  unfold onDNSResponse. rewrite decide_True by apply map_size_empty.
  by destruct waitCh.
Qed.

(** ** The ports of the interception flow *)

(** The mapping is written before the datapath is called. *)
Lemma updateRuleSelectedPods_mapping (id : Z) (ruleID : string)
    (podOFAddrs : gset Z) (f : fqdnController) :
  fqdnRuleToSelectedPods (updateRuleSelectedPods id ruleID podOFAddrs f).1 =
    <[ruleID := podOFAddrs]> (fqdnRuleToSelectedPods f).
Proof.
  unfold updateRuleSelectedPods.
  repeat (case_decide || case_match || simplify_eq/=); done.
Qed.

(** An error that [updateRuleSelectedPods] returns is the one the
    datapath client returned for the last call made on it. *)
Lemma updateRuleSelectedPods_error_origin (id : Z) (ruleID : string)
    (podOFAddrs : gset Z) (f f' : fqdnController) (e : error) :
  updateRuleSelectedPods id ruleID podOFAddrs f = (f', Some e) →
  fqdnRuleToSelectedPods f' = <[ruleID := podOFAddrs]> (fqdnRuleToSelectedPods f) ∧
  ∃ before call,
    ofCalls (ofClient f') = before ++ [call] ∧
    ofReply (ofClient f) before call = Some e.
Proof.
  intros Hrun. split.
  - by rewrite <- (updateRuleSelectedPods_mapping id ruleID podOFAddrs f), Hrun.
  - revert Hrun. unfold updateRuleSelectedPods, ofInvoke.
    repeat (case_decide || case_match || simplify_eq/=);
      intros; simplify_eq/=; eauto.
Qed.

Lemma app_cons_eq_nil {A} (h mid after : list A) (call : A) :
  h = h ++ mid ++ call :: after → False.
Proof.
  intros Heq. apply (f_equal length) in Heq.
  rewrite !length_app in Heq. cbn in Heq. lia.
Qed.

Lemma app_cons_eq_one {A} (h mid after : list A) (call c : A) :
  h ++ [c] = h ++ mid ++ call :: after → mid = [] ∧ call = c ∧ after = [].
Proof.
  intros Heq%app_inv_head. destruct mid as [|m mid]; cbn in Heq.
  - by injection Heq as <- <-.
  - injection Heq as _ Heq. by destruct mid.
Qed.

Lemma app_cons_eq_two {A} (h mid after : list A) (call c1 c2 : A) :
  (h ++ [c1]) ++ [c2] = h ++ mid ++ call :: after →
  (mid = [] ∧ call = c1 ∧ after = [c2]) ∨
  (mid = [c1] ∧ call = c2 ∧ after = []).
Proof.
  rewrite <- app_assoc. intros Heq%app_inv_head. cbn in Heq.
  destruct mid as [|m mid]; cbn in Heq.
  - injection Heq as <- <-. by left.
  - injection Heq as <- Heq. destruct mid as [|m' mid]; cbn in Heq.
    + injection Heq as <- <-. by right.
    + injection Heq as _ Heq. by destruct mid.
Qed.

(** C9, as the code has it.  When a call that [updateRuleSelectedPods]
    makes on the datapath client to add or delete ports fails, the
    function makes no further call and returns the error of that call to
    its caller.  The rule-to-selected-pods mapping then holds the new Pod
    set of the rule: the assignment precedes the datapath calls and is
    not rolled back. *)
Theorem updateRuleSelectedPods_failure_surfaced (id : Z) (ruleID : string)
    (podOFAddrs : gset Z) (f : fqdnController)
    (mid after : list ofCall) (call : ofCall) (e : error) :
  let res := updateRuleSelectedPods id ruleID podOFAddrs f in
  ofCalls (ofClient res.1) = ofCalls (ofClient f) ++ mid ++ call :: after →
  ofReply (ofClient f) (ofCalls (ofClient f) ++ mid) call = Some e →
  res.2 = Some e ∧ after = [] ∧
  fqdnRuleToSelectedPods res.1 =
    <[ruleID := podOFAddrs]> (fqdnRuleToSelectedPods f).
Proof.
  intros res Hcalls Hreply.
  split; [|split; [|apply updateRuleSelectedPods_mapping]];
    revert Hcalls; subst res; unfold updateRuleSelectedPods, ofInvoke;
    cbn [ofClient set_fqdnRuleToSelectedPods set_ofClient ofCalls ofReply fst snd].
  all: repeat (case_decide || case_match || simplify_eq/=); intros Hcalls.
  all: try (by apply app_cons_eq_nil in Hcalls).
  all: try (apply app_cons_eq_one in Hcalls as (-> & -> & ->);
            rewrite ?app_nil_r in *; congruence).
  all: try (apply app_cons_eq_two in Hcalls as [(-> & -> & ->)|(-> & -> & ->)];
            rewrite ?app_nil_r in *; congruence).
Qed.

(** C9 fails as stated: with a datapath that refuses the call, the error
    is returned and the mapping has changed. *)
Lemma updateRuleSelectedPods_keeps_partial_state :
  let f := ExampleLib.controller ExampleLib.failingClient 0 in
  let r := updateRuleSelectedPods 1 "r1" {[7]} f in
  r.2 = Some "ovs: connection refused" ∧
  fqdnRuleToSelectedPods f !! "r1" = None ∧
  fqdnRuleToSelectedPods r.1 !! "r1" = Some {[7]}.
Proof. vm_compute. done. Qed.

(** What the state kept after the failure does to a retry: the mapping
    already holds the Pod set, the difference is empty, and the second
    call returns nil without calling the datapath, which never received
    port 7. *)
Example updateRuleSelectedPods_retry_after_failure :
  let f := ExampleLib.controller ExampleLib.failingClient 0 in
  let first := updateRuleSelectedPods 1 "r1" {[7]} f in
  let second := updateRuleSelectedPods 1 "r1" {[7]} first.1 in
  first.2 = Some "ovs: connection refused" ∧
  second.2 = None ∧
  ofCalls (ofClient second.1) = ofCalls (ofClient first.1).
Proof. vm_compute. done. Qed.

(** The theorem of C9 on the example: the only call made is refused. *)
Lemma updateRuleSelectedPods_failure_surfaced_witness :
  let f := ExampleLib.controller ExampleLib.failingClient 0 in
  let call := AddAddressToDNSConjunction 1 [7] in
  let res := updateRuleSelectedPods 1 "r1" {[7]} f in
  ofCalls (ofClient res.1) = ofCalls (ofClient f) ++ [] ++ call :: [] ∧
  ofReply (ofClient f) (ofCalls (ofClient f) ++ []) call =
    Some "ovs: connection refused" ∧
  res.2 = Some "ovs: connection refused" ∧ ([] : list ofCall) = [] ∧
  fqdnRuleToSelectedPods res.1 = <[ "r1" := {[7]} ]> (fqdnRuleToSelectedPods f).
Proof.
  intros f call res.
  assert (ofCalls (ofClient res.1) = ofCalls (ofClient f) ++ [] ++ call :: [])
    as Hcalls by (vm_compute; reflexivity).
  assert (ofReply (ofClient f) (ofCalls (ofClient f) ++ []) call =
            Some "ovs: connection refused") as Hreply
    by (vm_compute; reflexivity).
  split; [exact Hcalls|]. split; [exact Hreply|].
  exact (updateRuleSelectedPods_failure_surfaced 1 "r1" {[7]} f [] [] call _
           Hcalls Hreply).
Defined.

(** ** The rule realization tracker *)

Lemma subscribe_fold_lookup (p : nat) (l : list string)
    (m : gmap string (list nat)) (r : string) :
  NoDup l →
  foldl (λ m r, <[r := default [] (m !! r) ++ [p]]> m) m l !! r =
    if decide (r ∈ l) then Some (default [] (m !! r) ++ [p]) else m !! r.
Proof.
  revert m. induction l as [|x l IH]; intros m Hnd; cbn [foldl].
  - destruct (decide (r ∈ [])); [by exfalso; set_solver|done].
  - apply NoDup_cons in Hnd as [Hx Hnd]. rewrite IH by done.
    destruct (decide (r = x)) as [->|Hne].
    + rewrite lookup_insert_eq.
      destruct (decide (x ∈ l)), (decide (x ∈ x :: l));
        try done; exfalso; set_solver.
    + rewrite lookup_insert_ne by done.
      destruct (decide (r ∈ l)), (decide (r ∈ x :: l));
        try done; exfalso; set_solver.
Qed.

Lemma subscribe_subscribed (ch : chanId) (X : gset string)
    (rst : ruleSyncTracker) :
  subscribed ch X rst (subscribe ch X rst).
Proof.
  split; [done|]. split; [done|]. intros r. simpl.
  rewrite subscribe_fold_lookup by apply NoDup_elements.
  destruct (decide (r ∈ X)) as [Hin|Hnin].
  - by rewrite decide_True by (by apply elem_of_elements).
  - by rewrite decide_False by (by rewrite elem_of_elements).
Qed.

(** C2, at the failing input.  A subscriber waits on channel 0 for the
    rules r1 and r2; the reconciler reports a failure for each.  [Run]
    sends two values on the channel: the error branch of the loop sends
    without looking at [rulesToSyncCount], which the first failure had
    set to zero. *)
Example Run_second_failure_sends_again :
  let rst := subscribe 0%nat {["r1"; "r2"]} newRuleSyncTracker in
  let updates := [mkUpdate "r1" (Some "timeout"); mkUpdate "r2" (Some "timeout")] in
  sentOn 0%nat (Run (rst, []) updates).2 =
    [Some "failed to realize rule r1 in OVS";
     Some "failed to realize rule r2 in OVS"].
Proof. vm_compute. reflexivity. Qed.

(** For contrast: after a failure, successes of the other rules send
    nothing more, as the comment in [Run] says. *)
Example Run_success_after_failure_is_silent :
  let rst := subscribe 0%nat {["r1"; "r2"]} newRuleSyncTracker in
  let updates := [mkUpdate "r1" (Some "timeout"); mkUpdate "r2" None] in
  sentOn 0%nat (Run (rst, []) updates).2 =
    [Some "failed to realize rule r1 in OVS"].
Proof. vm_compute. reflexivity. Qed.

(** *** A subscriber alone in the tracker *)

Lemma sentOn_app ch l1 l2 : sentOn ch (l1 ++ l2) = sentOn ch l1 ++ sentOn ch l2.
Proof. unfold sentOn. by rewrite filter_app, fmap_app. Qed.

Lemma sentOn_here ch v : sentOn ch [(ch, v)] = [v].
Proof.
  unfold sentOn. rewrite filter_cons_True by done. by rewrite filter_nil.
Qed.

Lemma subscribe_loneSubscriber ch X :
  loneSubscriber ch X false (subscribe ch X newRuleSyncTracker).
Proof.
  split; [done|]. intros r.
  destruct (subscribe_subscribed ch X newRuleSyncTracker) as (_ & _ & Hr).
  rewrite Hr. cbn. rewrite lookup_empty. by case_decide.
Qed.

Lemma Run_update_loneSubscriber ch S failed rst log u :
  loneSubscriber ch S failed rst →
  let st' := Run_update (rst, log) u in
  loneSubscriber ch (S ∖ {[ruleId u]})
    (failed || (bool_decide (ruleId u ∈ S) && bool_decide (is_Some (err u))))
    st'.1 ∧
  sentOn ch st'.2 = sentOn ch log ++ sentToSubscriber S failed [u].
Proof.
  destruct rst as [heap r2s dirty]. intros [Hheap Hr2s].
  cbn [subscriberHeap ruleToSubscribers] in Hheap, Hr2s. subst heap.
  assert (∀ r, delete (ruleId u) r2s !! r =
               if decide (r ∈ S ∖ {[ruleId u]}) then Some [0%nat] else None)
    as Hdel.
  { intros r. rewrite lookup_delete, Hr2s.
    repeat case_decide; try done; exfalso; set_solver. }
  unfold Run_update. cbn [subscriberHeap ruleToSubscribers]. rewrite Hr2s.
  cbn [sentToSubscriber].
  destruct (decide (ruleId u ∈ S)) as [Hin|Hnin].
  - rewrite bool_decide_eq_true_2 by done.
    assert (size (S ∖ {[ruleId u]}) = (size S - 1)%nat) as Hsize.
    { rewrite size_difference by set_solver. by rewrite size_singleton. }
    assert (size S ≠ 0%nat) as Hpos.
    { intros Hz%size_empty_inv. set_solver. }
    cbn [foldl notifySubscriber lookup list_lookup].
    destruct (err u) as [e|] eqn:He.
    + rewrite bool_decide_eq_true_2 by eauto. rewrite orb_true_r.
      cbn [fst snd waitCh insert list_insert]. split; [by split|].
      by rewrite sentOn_app, sentOn_here.
    + rewrite bool_decide_eq_false_2 by (by intros [? [=]]).
      rewrite andb_false_r, orb_false_r.
      destruct failed; cbn [rulesToSyncCount waitCh negb andb].
      * rewrite decide_True by done. cbn [fst snd]. split; [by split|].
        cbn. by rewrite app_nil_r.
      * rewrite decide_False by lia.
        destruct (decide (Z.of_nat (size S) - 1 = 0)) as [Hz|Hnz];
          cbn [fst snd insert list_insert].
        -- split; [split; [|done]|].
           ++ cbn [subscriberHeap]. rewrite Hsize. do 2 f_equal. lia.
           ++ rewrite sentOn_app, sentOn_here.
              by rewrite bool_decide_eq_true_2 by lia.
        -- split; [split; [|done]|].
           ++ cbn [subscriberHeap]. rewrite Hsize. do 2 f_equal. lia.
           ++ rewrite bool_decide_eq_false_2 by lia. cbn.
              by rewrite app_nil_r.
  - rewrite bool_decide_eq_false_2 by done. rewrite andb_false_l, orb_false_r.
    cbn [fst snd]. split.
    + assert (S ∖ {[ruleId u]} = S) as -> by set_solver. by split.
    + by rewrite app_nil_r.
Qed.

(** What [Run] sends on the channel of a subscriber that is alone in the
    tracker. *)
Lemma Run_loneSubscriber ch S failed rst log updates :
  loneSubscriber ch S failed rst →
  sentOn ch (Run (rst, log) updates).2 =
    sentOn ch log ++ sentToSubscriber S failed updates.
Proof.
  revert S failed rst log.
  induction updates as [|u updates IH]; intros S failed rst log Hlone.
  - cbn. by rewrite app_nil_r.
  - cbn [Run foldl].
    destruct (Run_update_loneSubscriber ch S failed rst log u Hlone)
      as [Hlone' Hsent].
    destruct (Run_update (rst, log) u) as [rst' log'] eqn:Hstep.
    cbn [fst snd] in *. unfold Run in IH. rewrite (IH _ _ _ _ Hlone'), Hsent.
    rewrite <- app_assoc. f_equal. cbn [sentToSubscriber].
    destruct (decide (ruleId u ∈ S)) as [Hin|Hnin].
    + rewrite (bool_decide_eq_true_2 (ruleId u ∈ S)) by done.
      destruct (err u) as [e|].
      * rewrite (bool_decide_eq_true_2 (is_Some (Some e))) by eauto.
        by rewrite orb_true_r.
      * rewrite (bool_decide_eq_false_2 (is_Some None)) by (by intros [? [=]]).
        rewrite andb_false_r, orb_false_r. by rewrite app_nil_r.
    + rewrite (bool_decide_eq_false_2 (ruleId u ∈ S)) by done.
      rewrite andb_false_l, orb_false_r.
      by assert (S ∖ {[ruleId u]} = S) as -> by set_solver.
Qed.

(** The values [Run] sends on the channel of a subscriber registered on
    a new tracker, for any sequence of updates. *)
Lemma Run_sends_to_new_subscriber ch X updates :
  sentOn ch (Run (subscribe ch X newRuleSyncTracker, []) updates).2 =
    sentToSubscriber X false updates.
Proof.
  by rewrite (Run_loneSubscriber ch X false) by apply subscribe_loneSubscriber.
Qed.

(** Two distinct rules of one subscriber that both fail: two errors. *)
Lemma Run_two_failures r1 r2 ch e1 e2 :
  r1 ≠ r2 →
  sentOn ch (Run (subscribe ch {[r1; r2]} newRuleSyncTracker, [])
               [mkUpdate r1 (Some e1); mkUpdate r2 (Some e2)]).2 =
    [Some ("failed to realize rule " +:+ r1 +:+ " in OVS");
     Some ("failed to realize rule " +:+ r2 +:+ " in OVS")].
Proof.
  intros Hne. rewrite Run_sends_to_new_subscriber. cbn.
  rewrite decide_True by set_solver. rewrite decide_True by set_solver. done.
Qed.

(** ** Dirty rules of a DNS response *)

Lemma mergeString_fold_elem (g : fqdnSelectorItem → gset string)
    (l : list fqdnSelectorItem) (acc : gset string) (r : string) :
  r ∈ foldl (λ dirty s, MergeString dirty (g s)) acc l ↔
  r ∈ acc ∨ ∃ s, s ∈ l ∧ r ∈ g s.
Proof.
  revert acc. induction l as [|x l IH]; intros acc; cbn [foldl].
  - split; [by left|]. intros [?|(s & Hs & _)]; [done|]. by apply elem_of_nil in Hs.
  - rewrite IH. unfold MergeString. rewrite elem_of_union.
    setoid_rewrite elem_of_cons. naive_solver.
Qed.

Lemma rulesSelecting_elem (f : fqdnController) (fqdn r : string) :
  r ∈ rulesSelecting f fqdn ↔
  ∃ selectors s rules,
    fqdnToSelectorItems f !! fqdn = Some selectors ∧ s ∈ selectors ∧
    selectorItemToRuleIDs f !! s = Some rules ∧ r ∈ rules.
Proof.
  unfold rulesSelecting. rewrite mergeString_fold_elem. split.
  - intros [Hr|(s & Hs & Hr)]; [by apply not_elem_of_empty in Hr|].
    apply elem_of_elements in Hs.
    destruct (fqdnToSelectorItems f !! fqdn) as [selectors|] eqn:Hf;
      [|by apply not_elem_of_empty in Hs].
    destruct (selectorItemToRuleIDs f !! s) as [rules|] eqn:Hs2;
      [|by apply not_elem_of_empty in Hr].
    by exists selectors, s, rules.
  - intros (selectors & s & rules & Hf & Hs & Hs2 & Hr). right. exists s.
    rewrite Hf, Hs2. split; [by apply elem_of_elements|done].
Qed.

(** C3.  [syncDirtyRules] with a [waitCh] that is not nil.  The rules
    selecting the name are those of the selector items recorded for it in
    [fqdnToSelectorItems], looked up in [selectorItemToRuleIDs].  Without
    an address update the set to wait for is their intersection with the
    dirty rules of the tracker; with an address update it is all of them.
    When the set is empty, nil is sent on [waitCh] and nothing else
    changes.  Otherwise [waitCh] is subscribed to exactly that set and the
    dirty rule handler is run on each of its rules. *)
Theorem syncDirtyRules_with_waitCh (fqdn : string) (ch : chanId)
    (addressUpdate : bool) (f : fqdnController) (log : chanLog) :
  let selecting := rulesSelecting f fqdn in
  let dirty :=
    if addressUpdate then selecting
    else dirtyRules (tracker f) ∩ selecting in
  (∀ r, r ∈ selecting ↔
        ∃ selectors s rules,
          fqdnToSelectorItems f !! fqdn = Some selectors ∧ s ∈ selectors ∧
          selectorItemToRuleIDs f !! s = Some rules ∧ r ∈ rules) ∧
  if decide (dirty = ∅) then
    syncDirtyRules fqdn (Some ch) addressUpdate (f, log) =
      (f, log ++ [(ch, None)])
  else
    ∃ rst',
      subscribed ch dirty (tracker f) rst' ∧
      syncDirtyRules fqdn (Some ch) addressUpdate (f, log) =
        (set_dirtyRuleHandler (dirtyRuleHandler f ++ elements dirty)
           (set_tracker rst' f), log).
Proof.
  intros selecting dirty. split; [apply rulesSelecting_elem|].
  unfold syncDirtyRules. fold selecting.
  replace (if addressUpdate then selecting
           else getDirtyRules (tracker f) ∩ selecting) with dirty by done.
  destruct (decide (dirty = ∅)) as [Hemp|Hne].
  - rewrite decide_False; [done|]. rewrite Hemp, size_empty. lia.
  - rewrite decide_True.
    + exists (subscribe ch dirty (tracker f)).
      split; [apply subscribe_subscribed|done].
    + destruct (decide (size dirty = 0%nat)) as [Hz|Hz]; [|lia].
      by apply size_empty_inv, leibniz_equiv in Hz.
Qed.

(** ** The response merge *)

Lemma updateIPWithExpiration_lookup (k k' : string) (v : ipWithExpiration)
    (acc : gmap string ipWithExpiration * option Time) :
  (updateIPWithExpiration k v acc).1 !! k' =
    if decide (k = k') then Some v else acc.1 !! k'.
Proof.
  unfold updateIPWithExpiration. cbn [fst]. apply lookup_insert.
Qed.

Lemma laterOf_max (t1 t2 : Time) : laterOf t1 t2 = Z.max t1 t2.
Proof. unfold laterOf, Time_After. case_bool_decide; lia. Qed.

Section Merge.
Variables (cached new : gmap string ipWithExpiration) (now : Time).

Lemma foldl_mergeNew_lookup (l : list (string * ipWithExpiration))
    (acc : mergeState) (k : string) :
  NoDup l.*1 →
  (foldl (mergeNew cached) acc l).1.1 !! k =
    match (list_to_map l : gmap string ipWithExpiration) !! k, cached !! k with
    | Some v, None => Some v
    | _, _ => acc.1.1 !! k
    end.
Proof.
  revert acc. induction l as [|[k0 v0] l IH]; intros acc Hnd; cbn [foldl].
  - cbn. rewrite lookup_empty. done.
  - cbn in Hnd. apply NoDup_cons in Hnd as [Hk0 Hnd]. rewrite IH by done.
    cbn [list_to_map foldr curry]. unfold mergeNew at 1 2. cbn [fst snd].
    destruct acc as [m u].
    destruct (decide (k = k0)) as [->|Hne].
    + rewrite lookup_insert_eq.
      rewrite (not_elem_of_list_to_map_1 l k0) by done.
      destruct (cached !! k0); cbn [fst snd]; [done|].
      by rewrite updateIPWithExpiration_lookup, decide_True.
    + rewrite lookup_insert_ne by done.
      destruct (cached !! k0) eqn:Hc0; cbn [fst snd]; [done|].
      rewrite updateIPWithExpiration_lookup, decide_False by done. done.
Qed.

Lemma foldl_mergeNew_update (l : list (string * ipWithExpiration))
    (acc : mergeState) :
  (foldl (mergeNew cached) acc l).2 = true ↔
  acc.2 = true ∨ ∃ kv, kv ∈ l ∧ cached !! kv.1 = None.
Proof.
  revert acc. induction l as [|[k0 v0] l IH]; intros acc; cbn [foldl].
  - setoid_rewrite elem_of_nil. naive_solver.
  - rewrite IH. setoid_rewrite elem_of_cons. unfold mergeNew.
    destruct acc as [m u]. cbn [fst snd].
    destruct (cached !! k0) eqn:Hc0; cbn [fst snd].
    + split; [naive_solver|].
      intros [?|(kv & [->|?] & Hkv)]; [by left| |by eauto].
      cbn in Hkv. congruence.
    + split; [|by left]. intros _. right. exists (k0, v0). by split; [left|].
Qed.

Lemma mergeCached_lookup (acc : mergeState) (k0 k : string)
    (v0 : ipWithExpiration) :
  (mergeCached new now acc (k0, v0)).1.1 !! k =
    if decide (k0 = k) then
      match merged1 now (Some v0) (new !! k0) with
      | Some v => Some v
      | None => acc.1.1 !! k
      end
    else acc.1.1 !! k.
Proof.
  unfold mergeCached, merged1. destruct acc as [m u]. cbn [fst snd].
  destruct (new !! k0); [|destruct (Time_Before _ _)]; cbn [fst snd];
    rewrite ?updateIPWithExpiration_lookup; by case_decide.
Qed.

Lemma foldl_mergeCached_lookup (l : list (string * ipWithExpiration))
    (acc : mergeState) (k : string) :
  NoDup l.*1 →
  (foldl (mergeCached new now) acc l).1.1 !! k =
    match (list_to_map l : gmap string ipWithExpiration) !! k with
    | Some c =>
        match merged1 now (Some c) (new !! k) with
        | Some v => Some v
        | None => acc.1.1 !! k
        end
    | None => acc.1.1 !! k
    end.
Proof.
  revert acc. induction l as [|[k0 v0] l IH]; intros acc Hnd; cbn [foldl].
  - cbn. by rewrite lookup_empty.
  - cbn in Hnd. apply NoDup_cons in Hnd as [Hk0 Hnd]. rewrite IH by done.
    cbn [list_to_map foldr curry]. rewrite mergeCached_lookup.
    destruct (decide (k0 = k)) as [->|Hne].
    + rewrite lookup_insert_eq.
      by rewrite (not_elem_of_list_to_map_1 l k) by done.
    + rewrite lookup_insert_ne by done. done.
Qed.

Lemma foldl_mergeCached_update (l : list (string * ipWithExpiration))
    (acc : mergeState) :
  (foldl (mergeCached new now) acc l).2 = true ↔
  acc.2 = true ∨
  ∃ kv, kv ∈ l ∧ new !! kv.1 = None ∧ expirationTime kv.2 < now.
Proof.
  revert acc. induction l as [|[k0 v0] l IH]; intros acc; cbn [foldl].
  - setoid_rewrite elem_of_nil. naive_solver.
  - rewrite IH. setoid_rewrite elem_of_cons. unfold mergeCached, Time_Before.
    destruct acc as [m u]. cbn [fst snd].
    destruct (new !! k0) eqn:Hn0; cbn [fst snd].
    + split; [naive_solver|].
      intros [?|(kv & [->|?] & Hkv & ?)]; [by left| |by eauto].
      cbn in Hkv. congruence.
    + case_bool_decide; cbn [fst snd].
      * split; [|by left]. intros _. right. exists (k0, v0). by split; [left|].
      * split; [naive_solver|].
        intros [?|(kv & [->|?] & Hkv & Hlt)]; [by left| |by eauto].
        cbn in Hlt. lia.
Qed.

Lemma mergeResponse_lookup (k : string) :
  (mergeResponse cached new now).1.1 !! k = merged1 now (cached !! k) (new !! k).
Proof.
  unfold mergeResponse.
  rewrite foldl_mergeCached_lookup by apply NoDup_fst_map_to_list.
  rewrite foldl_mergeNew_lookup by apply NoDup_fst_map_to_list.
  rewrite !list_to_map_to_list. cbn [fst snd]. rewrite lookup_empty.
  unfold merged1.
  destruct (cached !! k) as [c|], (new !! k) as [n|]; try done.
  by destruct (Time_Before _ _).
Qed.

Lemma mergeResponse_update :
  (mergeResponse cached new now).2 = true ↔
  (∃ k, is_Some (new !! k) ∧ cached !! k = None) ∨
  (∃ k old, cached !! k = Some old ∧ new !! k = None ∧ expirationTime old < now).
Proof.
  unfold mergeResponse.
  rewrite foldl_mergeCached_update, foldl_mergeNew_update. cbn [snd]. split.
  - intros [[?|([k v] & Hkv & Hc)]|([k v] & Hkv & Hn & Hlt)]; [done| |].
    + apply elem_of_map_to_list in Hkv. left. exists k. eauto.
    + apply elem_of_map_to_list in Hkv. right. exists k, v. eauto.
  - intros [(k & [v Hv] & Hc)|(k & old & Hc & Hn & Hlt)].
    + left. right. exists (k, v). split; [by apply elem_of_map_to_list|done].
    + right. exists (k, old). split; [by apply elem_of_map_to_list|done].
Qed.

Lemma mergeResponse_nonempty :
  new ≠ ∅ → (0 < size (mergeResponse cached new now).1.1)%nat.
Proof.
  intros Hne. apply map_choose in Hne as (k & n & Hn).
  destruct (decide (size (mergeResponse cached new now).1.1 = 0%nat)) as [Hz|?];
    [|lia].
  apply map_size_empty_inv in Hz.
  pose proof (mergeResponse_lookup k) as Hk. rewrite Hz, lookup_empty, Hn in Hk.
  unfold merged1 in Hk. by destruct (cached !! k).
Qed.
End Merge.

(** *** The earliest expiration *)

Lemma updateIPWithExpiration_earliest (k : string) (v : ipWithExpiration)
    (acc : gmap string ipWithExpiration * option Time) :
  acc.1 !! k = None →
  earliest acc.1 acc.2 →
  earliest (updateIPWithExpiration k v acc).1 (updateIPWithExpiration k v acc).2.
Proof.
  destruct acc as [m t]. cbn [fst snd]. intros Hk He.
  unfold updateIPWithExpiration. cbn [fst snd].
  destruct t as [t0|]; cbn [earliest] in *.
  - destruct He as [(k1 & v1 & Hk1 & Ht0) Hmin].
    unfold Time_Before. case_bool_decide; cbn [earliest].
    + split.
      * exists k, v. by rewrite lookup_insert_eq.
      * intros k' v'. rewrite lookup_insert. case_decide.
        -- intros [= <-]. lia.
        -- intros Hk'%Hmin. lia.
    + split.
      * exists k1, v1. rewrite lookup_insert_ne; [done|]. congruence.
      * intros k' v'. rewrite lookup_insert. case_decide.
        -- intros [= <-]. lia.
        -- apply Hmin.
  - subst m. split.
    + exists k, v. by rewrite lookup_insert_eq.
    + intros k' v'. rewrite lookup_insert. case_decide; [|by rewrite lookup_empty].
      by intros [= <-].
Qed.

Lemma foldl_updateIPWithExpiration_earliest
    (l : list (string * ipWithExpiration))
    (acc : gmap string ipWithExpiration * option Time) :
  NoDup l.*1 →
  (∀ k, k ∈ l.*1 → acc.1 !! k = None) →
  earliest acc.1 acc.2 →
  let r := foldl (λ m kv, updateIPWithExpiration kv.1 kv.2 m) acc l in
  earliest r.1 r.2.
Proof.
  revert acc. induction l as [|[k0 v0] l IH]; intros acc Hnd Hfresh He;
    cbn [foldl fst snd]; [done|].
  cbn in Hnd. apply NoDup_cons in Hnd as [Hk0 Hnd].
  apply IH; [done| |].
  - intros k Hk. rewrite updateIPWithExpiration_lookup.
    rewrite decide_False by (by intros ->).
    apply Hfresh. cbn. by apply elem_of_cons; right.
  - apply updateIPWithExpiration_earliest; [|done].
    apply Hfresh. cbn. by apply elem_of_cons; left.
Qed.

Section MergeEarliest.
Variables (cached new : gmap string ipWithExpiration) (now : Time).

Lemma foldl_mergeNew_earliest (l : list (string * ipWithExpiration))
    (acc : mergeState) :
  NoDup l.*1 →
  (∀ k, k ∈ l.*1 → acc.1.1 !! k = None) →
  earliest acc.1.1 acc.1.2 →
  let r := foldl (mergeNew cached) acc l in
  earliest r.1.1 r.1.2.
Proof.
  revert acc. induction l as [|[k0 v0] l IH]; intros acc Hnd Hfresh He;
    cbn [foldl]; [done|].
  cbn in Hnd. apply NoDup_cons in Hnd as [Hk0 Hnd].
  assert (acc.1.1 !! k0 = None) as Hk0'
    by (apply Hfresh; cbn; by apply elem_of_cons; left).
  assert (∀ k, k ∈ l.*1 → acc.1.1 !! k = None) as Hfresh'
    by (intros k Hk; apply Hfresh; cbn; by apply elem_of_cons; right).
  destruct acc as [m u]. cbn [fst snd] in *.
  change (mergeNew cached (m, u) (k0, v0))
    with (match cached !! k0 with
          | None => (updateIPWithExpiration k0 v0 m, true)
          | Some _ => (m, u)
          end).
  destruct (cached !! k0); apply IH; cbn [fst snd]; try done.
  - intros k Hk. rewrite updateIPWithExpiration_lookup.
    rewrite decide_False by (by intros ->). by apply Hfresh'.
  - by apply updateIPWithExpiration_earliest.
Qed.

Lemma foldl_mergeCached_earliest (l : list (string * ipWithExpiration))
    (acc : mergeState) :
  NoDup l.*1 →
  (∀ k, k ∈ l.*1 → acc.1.1 !! k = None) →
  earliest acc.1.1 acc.1.2 →
  let r := foldl (mergeCached new now) acc l in
  earliest r.1.1 r.1.2.
Proof.
  revert acc. induction l as [|[k0 v0] l IH]; intros acc Hnd Hfresh He;
    cbn [foldl]; [done|].
  cbn in Hnd. apply NoDup_cons in Hnd as [Hk0 Hnd].
  assert (acc.1.1 !! k0 = None) as Hk0'
    by (apply Hfresh; cbn; by apply elem_of_cons; left).
  assert (∀ k, k ∈ l.*1 → acc.1.1 !! k = None) as Hfresh'
    by (intros k Hk; apply Hfresh; cbn; by apply elem_of_cons; right).
  destruct acc as [m u]. cbn [fst snd] in *.
  change (mergeCached new now (m, u) (k0, v0))
    with (match new !! k0 with
          | None =>
              if Time_Before (expirationTime v0) now then (m, true)
              else (updateIPWithExpiration k0 v0 m, u)
          | Some newIPMeta =>
              (updateIPWithExpiration k0
                 (mkIPExp (ip v0)
                    (laterOf (expirationTime newIPMeta) (expirationTime v0))) m,
               u)
          end).
  destruct (new !! k0); [|destruct (Time_Before _ _)];
    apply IH; cbn [fst snd]; try done.
  - intros k Hk. rewrite updateIPWithExpiration_lookup.
    rewrite decide_False by (by intros ->). by apply Hfresh'.
  - by apply updateIPWithExpiration_earliest.
  - intros k Hk. rewrite updateIPWithExpiration_lookup.
    rewrite decide_False by (by intros ->). by apply Hfresh'.
  - by apply updateIPWithExpiration_earliest.
Qed.

Lemma mergeResponse_earliest :
  let r := mergeResponse cached new now in earliest r.1.1 r.1.2.
Proof.
  unfold mergeResponse. apply foldl_mergeCached_earliest.
  - apply NoDup_fst_map_to_list.
  - intros k Hk. rewrite foldl_mergeNew_lookup by apply NoDup_fst_map_to_list.
    rewrite list_to_map_to_list. cbn [fst snd]. rewrite lookup_empty.
    apply list_elem_of_fmap in Hk as ([k' v] & -> & Hkv).
    apply elem_of_map_to_list in Hkv. cbn [fst]. rewrite Hkv.
    by destruct (new !! k').
  - apply foldl_mergeNew_earliest; [apply NoDup_fst_map_to_list| |done].
    intros k _. cbn. apply lookup_empty.
Qed.
End MergeEarliest.

Lemma syncDirtyRules_dnsEntryCache (fqdn : string) (waitCh : option chanId)
    (addressUpdate : bool) (f : fqdnController) (log : chanLog) :
  dnsEntryCache (syncDirtyRules fqdn waitCh addressUpdate (f, log)).1 =
    dnsEntryCache f.
Proof.
  unfold syncDirtyRules.
  destruct waitCh, addressUpdate; try done; by case_decide.
Qed.

Section OnDNSResponse.
Context {golib : GoLib}.

Lemma onDNSResponse_cached (fqdn : string)
    (new : gmap string ipWithExpiration) (waitCh : option chanId)
    (f : fqdnController) (log : chanLog) (cached : dnsMeta) :
  dnsEntryCache f !! fqdn = Some cached →
  new ≠ ∅ →
  let r := mergeResponse (responseIPs cached) new (clock f 0%nat) in
  ∃ f1,
    onDNSResponse fqdn new waitCh (f, log) =
      syncDirtyRules fqdn waitCh r.2 (f1, log) ∧
    dnsEntryCache f1 = <[fqdn := mkDNSMeta r.1.1]> (dnsEntryCache f) ∧
    fqdnToSelectorItems f1 = fqdnToSelectorItems f ∧
    selectorItemToFQDN f1 = selectorItemToFQDN f ∧
    selectorItemToRuleIDs f1 = selectorItemToRuleIDs f ∧
    tracker f1 = tracker f.
Proof.
  intros Hc Hne r. unfold onDNSResponse.
  rewrite decide_False by (by intros ?%map_size_empty_inv).
  cbn [clock_Now]. cbn [set_clock dnsEntryCache]. rewrite Hc.
  fold r. pose proof (mergeResponse_nonempty (responseIPs cached) new
                        (clock f 0%nat) Hne) as Hsz.
  fold r in Hsz. destruct r as [[m t] u]. cbn [fst snd] in *.
  rewrite decide_True by done.
  destruct t; eexists; (split; [reflexivity|]); done.
Qed.

(** C5.  A response with at least one address for a name that is cached:
    after [onDNSResponse] the name is cached with the merged entry.  Every
    address that is in the entry before and after has an expiration time
    that is not earlier than before; an address that is in the old entry
    and in the response is kept, with the later ([laterOf], which is the
    maximum) of the two expiration times. *)
Theorem onDNSResponse_expiration_monotone (fqdn : string)
    (new : gmap string ipWithExpiration) (waitCh : option chanId)
    (f : fqdnController) (log : chanLog) (cached : dnsMeta) :
  dnsEntryCache f !! fqdn = Some cached →
  new ≠ ∅ →
  ∃ merged,
    dnsEntryCache (onDNSResponse fqdn new waitCh (f, log)).1 !! fqdn
      = Some merged ∧
    (∀ k before after,
       responseIPs cached !! k = Some before →
       responseIPs merged !! k = Some after →
       expirationTime before ≤ expirationTime after) ∧
    (∀ k before n,
       responseIPs cached !! k = Some before →
       new !! k = Some n →
       ∃ after,
         responseIPs merged !! k = Some after ∧
         expirationTime after = laterOf (expirationTime n) (expirationTime before) ∧
         expirationTime after =
           Z.max (expirationTime before) (expirationTime n)).
Proof.
  intros Hc Hne.
  destruct (onDNSResponse_cached fqdn new waitCh f log cached Hc Hne)
    as (f1 & -> & Hcache & _).
  rewrite syncDirtyRules_dnsEntryCache, Hcache, lookup_insert_eq.
  eexists. split; [reflexivity|]. cbn [responseIPs]. split.
  - intros k before after Hb. rewrite mergeResponse_lookup, Hb.
    unfold merged1. destruct (new !! k) as [n|].
    + intros [= <-]. cbn. rewrite laterOf_max. lia.
    + destruct (Time_Before _ _); [done|]. intros [= <-]. lia.
  - intros k before n Hb Hn. rewrite mergeResponse_lookup, Hb, Hn.
    eexists. split; [reflexivity|]. cbn. split; [done|].
    rewrite laterOf_max. lia.
Qed.

(** C6.  Same setting, [currentTime] being the reading of the clock the
    merge takes.  [onDNSResponse] reads the clock, stores the merged
    entry, queues the next query and calls [syncDirtyRules] with the
    [addressUpdate] of the merge; it changes nothing else.  A cached
    address that is absent from the response is dropped when its
    expiration time is before [currentTime], and kept with its old entry
    otherwise.  [addressUpdate] is true exactly when the response has an
    address that was not cached, or a cached address absent from the
    response has expired: an absent address that has not expired does
    not set it. *)
Theorem onDNSResponse_absent_addresses (fqdn : string)
    (new : gmap string ipWithExpiration) (waitCh : option chanId)
    (f : fqdnController) (log : chanLog) (cached : dnsMeta) :
  dnsEntryCache f !! fqdn = Some cached →
  new ≠ ∅ →
  let currentTime := clock f 0%nat in
  ∃ merged addressUpdate timeToRequery,
    onDNSResponse fqdn new waitCh (f, log) =
      syncDirtyRules fqdn waitCh addressUpdate
        (set_dnsQueryQueue
           (dnsQueryQueue f ++
            [QAddAfter fqdn (Time_Sub timeToRequery currentTime)])
           (set_dnsEntryCache (<[fqdn := merged]> (dnsEntryCache f))
              (set_clock (λ n, clock f (S n)) f)),
         log) ∧
    dnsEntryCache (onDNSResponse fqdn new waitCh (f, log)).1 !! fqdn
      = Some merged ∧
    earliest (responseIPs merged) (Some timeToRequery) ∧
    (∀ k, responseIPs merged !! k =
            merged1 currentTime (responseIPs cached !! k) (new !! k)) ∧
    (∀ k old,
       responseIPs cached !! k = Some old →
       new !! k = None →
       if Time_Before (expirationTime old) currentTime
       then responseIPs merged !! k = None
       else responseIPs merged !! k = Some old) ∧
    (addressUpdate = true ↔
       (∃ k, is_Some (new !! k) ∧ responseIPs cached !! k = None) ∨
       (∃ k old,
          responseIPs cached !! k = Some old ∧ new !! k = None ∧
          expirationTime old < currentTime)).
Proof.
  intros Hc Hne currentTime.
  pose proof (mergeResponse_nonempty (responseIPs cached) new currentTime Hne)
    as Hsz.
  pose proof (mergeResponse_earliest (responseIPs cached) new currentTime)
    as Hearliest.
  pose proof (mergeResponse_lookup (responseIPs cached) new currentTime)
    as Hlookup.
  pose proof (mergeResponse_update (responseIPs cached) new currentTime)
    as Hupdate.
  cbv zeta in Hearliest.
  assert (onDNSResponse fqdn new waitCh (f, log) =
          let '(m, t, u) := mergeResponse (responseIPs cached) new currentTime in
          syncDirtyRules fqdn waitCh u
            (let f1 :=
               set_dnsEntryCache (<[fqdn := mkDNSMeta m]> (dnsEntryCache f))
                 (set_clock (λ n, clock f (S n)) f) in
             if decide (0 < size m)%nat then
               match t with
               | Some t =>
                   set_dnsQueryQueue
                     (dnsQueryQueue f ++ [QAddAfter fqdn (Time_Sub t currentTime)])
                     f1
               | None => f1
               end
             else set_clock (λ n, clock f (S n)) f, log)) as Hrun.
  { unfold onDNSResponse.
    rewrite decide_False by (by intros ?%map_size_empty_inv).
    cbn [clock_Now]. cbn [set_clock dnsEntryCache]. rewrite Hc.
    fold currentTime.
    destruct (mergeResponse (responseIPs cached) new currentTime)
      as [[m t] u].
    by case_decide; [destruct t|]. }
  destruct (mergeResponse (responseIPs cached) new currentTime) as [[m t] u].
  cbn [fst snd] in *. rewrite decide_True in Hrun by done. cbv zeta in Hrun.
  destruct t as [t|]; cbn [earliest] in Hearliest;
    [|subst m; rewrite map_size_empty in Hsz; lia].
  exists (mkDNSMeta m), u, t. split; [exact Hrun|].
  rewrite Hrun, syncDirtyRules_dnsEntryCache.
  cbn [dnsEntryCache set_dnsQueryQueue set_dnsEntryCache responseIPs].
  rewrite lookup_insert_eq.
  split; [reflexivity|]. split; [exact Hearliest|]. split; [exact Hlookup|].
  split; [|exact Hupdate].
  intros k old Hold Hn. rewrite Hlookup, Hold, Hn.
  unfold merged1. by destruct (Time_Before _ _).
Qed.
End OnDNSResponse.

(** The theorem of C5 on the example: the two cached addresses expire at
    1060 s, the response has 10.0.0.1 alone, expiring at 1040 s. *)
Lemma onDNSResponse_expiration_monotone_witness :
  let f := ExampleLib.twoAddresses in
  let new : gmap string ipWithExpiration :=
    {[ "10.0.0.1" := mkIPExp [10; 0; 0; 1] 1040000000000 ]} in
  ∃ cached,
    dnsEntryCache f !! "api.example.com" = Some cached ∧
    new ≠ ∅ ∧
    ∃ merged,
      dnsEntryCache
        (onDNSResponse (golib := ExampleLib.lib) "api.example.com" new None (f, [])).1
        !! "api.example.com" = Some merged ∧
      (∀ k before after,
         responseIPs cached !! k = Some before →
         responseIPs merged !! k = Some after →
         expirationTime before ≤ expirationTime after) ∧
      (∀ k before n,
         responseIPs cached !! k = Some before →
         new !! k = Some n →
         ∃ after,
           responseIPs merged !! k = Some after ∧
           expirationTime after =
             laterOf (expirationTime n) (expirationTime before) ∧
           expirationTime after =
             Z.max (expirationTime before) (expirationTime n)).
Proof.
  intros f new.
  destruct (dnsEntryCache f !! "api.example.com") as [cached|] eqn:Hc;
    [|by vm_compute in Hc].
  exists cached. split; [reflexivity|].
  split; [apply map_non_empty_singleton|].
  exact (onDNSResponse_expiration_monotone (golib := ExampleLib.lib)
           "api.example.com" new None f [] cached Hc
           (map_non_empty_singleton _ _)).
Defined.

(** The theorem of C6 on the same example. *)
Lemma onDNSResponse_absent_addresses_witness :
  let f := ExampleLib.twoAddresses in
  let new : gmap string ipWithExpiration :=
    {[ "10.0.0.1" := mkIPExp [10; 0; 0; 1] 1040000000000 ]} in
  let currentTime := clock f 0%nat in
  ∃ cached,
    dnsEntryCache f !! "api.example.com" = Some cached ∧
    new ≠ ∅ ∧
    ∃ merged addressUpdate timeToRequery,
      onDNSResponse (golib := ExampleLib.lib) "api.example.com" new None (f, []) =
        syncDirtyRules "api.example.com" None addressUpdate
          (set_dnsQueryQueue
             (dnsQueryQueue f ++
              [QAddAfter "api.example.com"
                 (Time_Sub timeToRequery currentTime)])
             (set_dnsEntryCache
                (<[ "api.example.com" := merged ]> (dnsEntryCache f))
                (set_clock (λ n, clock f (S n)) f)),
           []) ∧
      dnsEntryCache
        (onDNSResponse (golib := ExampleLib.lib) "api.example.com" new None (f, [])).1
        !! "api.example.com" = Some merged ∧
      earliest (responseIPs merged) (Some timeToRequery) ∧
      (∀ k, responseIPs merged !! k =
              merged1 currentTime (responseIPs cached !! k) (new !! k)) ∧
      (∀ k old,
         responseIPs cached !! k = Some old →
         new !! k = None →
         if Time_Before (expirationTime old) currentTime
         then responseIPs merged !! k = None
         else responseIPs merged !! k = Some old) ∧
      (addressUpdate = true ↔
         (∃ k, is_Some (new !! k) ∧ responseIPs cached !! k = None) ∨
         (∃ k old,
            responseIPs cached !! k = Some old ∧ new !! k = None ∧
            expirationTime old < currentTime)).
Proof.
  intros f new currentTime.
  destruct (dnsEntryCache f !! "api.example.com") as [cached|] eqn:Hc;
    [|by vm_compute in Hc].
  exists cached. split; [reflexivity|].
  split; [apply map_non_empty_singleton|].
  exact (onDNSResponse_absent_addresses (golib := ExampleLib.lib)
           "api.example.com" new None f [] cached Hc
           (map_non_empty_singleton _ _)).
Defined.

(** The fifth scenario of the specification: the partial response keeps
    10.0.0.2 and refreshes 10.0.0.1 to the later time. *)
Example partial_response_keeps_unexpired :
  let f := ExampleLib.twoAddresses in
  let new : gmap string ipWithExpiration :=
    {[ "10.0.0.1" := mkIPExp [10; 0; 0; 1] 1040000000000 ]} in
  let st' :=
    onDNSResponse (golib := ExampleLib.lib) "api.example.com" new None (f, []) in
  (map_to_list ∘ responseIPs) <$> dnsEntryCache st'.1 !! "api.example.com" =
    Some [("10.0.0.1", mkIPExp [10; 0; 0; 1] 1060000000000);
          ("10.0.0.2", mkIPExp [10; 0; 0; 2] 1060000000000)] ∧
  dirtyRuleHandler st'.1 = dirtyRuleHandler f.
Proof. vm_compute. done. Qed.

(** ** The TTL floor *)

Lemma Duration_mul_seconds (n : Z) :
  0 ≤ n < 2 ^ 32 → Duration_mul n time_Second = n * 1000000000.
Proof.
  intros Hn. unfold Duration_mul, wrap64, time_Second.
  rewrite Z.mod_small; lia.
Qed.

Section Parse.
Context {golib : GoLib}.

(** The TTL floor on the path of parsed DNS messages: every entry that
    [parseDNSResponse] returns expires at least [minTTL] seconds after the
    reading of the clock it took. *)
Lemma parseDNSResponse_ttl_floor (msg : dnsMsg) (f f' : fqdnController)
    (fqdn k : string) (ips : gmap string ipWithExpiration)
    (e : ipWithExpiration) :
  0 ≤ minTTL f < 2 ^ 32 →
  (∀ rr, rr ∈ Answer msg → 0 ≤ rrTTL rr < 2 ^ 32) →
  parseDNSResponse msg f = (f', inl (fqdn, ips)) →
  ips !! k = Some e →
  minTTL f * time_Second ≤ expirationTime e - clock f 0%nat.
Proof.
  intros Hmin Hrr. unfold parseDNSResponse.
  destruct (Question msg) as [|q qs]; [done|]. cbn [clock_Now].
  intros [= <- <- <-]. revert k e.
  set (f1 := set_clock _ f).
  assert (∀ (l : list dnsRR) (m : gmap string ipWithExpiration),
            (∀ rr, rr ∈ l → 0 ≤ rrTTL rr < 2 ^ 32) →
            (∀ k e, m !! k = Some e →
                    minTTL f * time_Second ≤ expirationTime e - clock f 0%nat) →
            ∀ k e, foldl (parseAnswer f1 (clock f 0%nat)) m l !! k = Some e →
                   minTTL f * time_Second ≤ expirationTime e - clock f 0%nat)
    as Hfold.
  { induction l as [|rr l IH]; intros m Hl Hm; [exact Hm|].
    cbn [foldl]. apply IH.
    - intros rr' Hin. apply Hl. by apply elem_of_cons; right.
    - assert (0 ≤ rrTTL rr < 2 ^ 32) as Httl
        by (apply Hl; by apply elem_of_cons; left).
      intros k e. unfold parseAnswer.
      destruct rr as [ttl a|ttl a|]; cbn in Httl;
        [destruct (ipv4Enabled f1)|destruct (ipv6Enabled f1)|];
        try apply Hm.
      all: rewrite lookup_insert; case_decide; [|by apply Hm].
      all: intros [= <-]; cbn [expirationTime]; unfold Time_Add.
      all: change (minTTL f1) with (minTTL f).
      all: rewrite Duration_mul_seconds by lia.
      all: unfold time_Second; lia. }
  apply Hfold; [done|]. intros k e. by rewrite lookup_empty.
Qed.
End Parse.

(** C4, at the failing input.  [minTTL] is 3600 and no DNS server is
    configured, so the name is resolved by [lookupIP].  The entry it
    stores expires [defaultTTL] = 600 seconds after the reading of the
    clock, which is less than [minTTL] seconds: [makeResponseIPs] does not
    apply the floor that [parseAnswer] applies. *)
Example lookupIP_below_minTTL :
  let f :=
    addFQDNSelector (golib := ExampleLib.lib) "r1" ["a.example.com"]
      (ExampleLib.controller ExampleLib.okClient 3600) in
  let received := clock f 0%nat in
  let f' :=
    (lookupIP (golib := ExampleLib.lib) "a.example.com"
       (inl [[10; 0; 0; 1]]) (inr "no AAAA") (f, [])).1.1 in
  minTTL f' = 3600 ∧
  ∃ meta e,
    dnsEntryCache f' !! "a.example.com" = Some meta ∧
    responseIPs meta !! "10.0.0.1" = Some e ∧
    expirationTime e - received = 600 * time_Second ∧
    expirationTime e - received < minTTL f' * time_Second.
Proof.
  intros f received f'. split; [reflexivity|].
  eexists _, _. split; [vm_compute; reflexivity|].
  split; [vm_compute; reflexivity|]. vm_compute. done.
Qed.

(** ** The selector index and the cache *)

Section IndexProperties.
Context {golib : GoLib}.


Lemma setFQDNMatchSelector_fqdnToSelectorItems fqdn s f :
  fqdnToSelectorItems (setFQDNMatchSelector fqdn s f) =
    <[fqdn := default ∅ (fqdnToSelectorItems f !! fqdn) ∪ {[s]}]>
      (fqdnToSelectorItems f).
Proof.
  unfold setFQDNMatchSelector.
  destruct (fqdnToSelectorItems f !! fqdn);
    cbn [selectorItemToFQDN set_fqdnToSelectorItems];
    destruct (selectorItemToFQDN f !! s); cbn; try done;
    by rewrite union_empty_l_L.
Qed.

Lemma setFQDNMatchSelector_selectorItemToFQDN fqdn s f :
  selectorItemToFQDN (setFQDNMatchSelector fqdn s f) =
    <[s := default ∅ (selectorItemToFQDN f !! s) ∪ {[fqdn]}]>
      (selectorItemToFQDN f).
Proof.
  unfold setFQDNMatchSelector.
  destruct (fqdnToSelectorItems f !! fqdn);
    cbn [selectorItemToFQDN set_fqdnToSelectorItems];
    destruct (selectorItemToFQDN f !! s); cbn; try done;
    by rewrite union_empty_l_L.
Qed.

Lemma setFQDNMatchSelector_dnsEntryCache fqdn s f :
  dnsEntryCache (setFQDNMatchSelector fqdn s f) = dnsEntryCache f.
Proof.
  unfold setFQDNMatchSelector.
  destruct (fqdnToSelectorItems f !! fqdn);
    cbn [selectorItemToFQDN set_fqdnToSelectorItems];
    by destruct (selectorItemToFQDN f !! s).
Qed.

Lemma setFQDNMatchSelector_selectorItemToRuleIDs fqdn s f :
  selectorItemToRuleIDs (setFQDNMatchSelector fqdn s f) = selectorItemToRuleIDs f.
Proof.
  unfold setFQDNMatchSelector.
  destruct (fqdnToSelectorItems f !! fqdn);
    cbn [selectorItemToFQDN set_fqdnToSelectorItems];
    by destruct (selectorItemToFQDN f !! s).
Qed.

Lemma setFQDNMatchSelector_linked fqdn s f x y :
  linked (setFQDNMatchSelector fqdn s f) x y ↔
  linked f x y ∨ (x = fqdn ∧ y = s).
Proof.
  unfold linked. rewrite setFQDNMatchSelector_fqdnToSelectorItems.
  destruct (decide (x = fqdn)) as [->|Hne].
  - rewrite lookup_insert_eq.
    destruct (fqdnToSelectorItems f !! fqdn) as [ss|]; cbn [default]; split.
    + intros (? & [= <-] & [Hin| ->%elem_of_singleton]%elem_of_union); eauto.
    + intros [(? & [= <-] & Hin)|[_ ->]]; eexists; (split; [done|]); set_solver.
    + intros (? & [= <-] & [Hin| ->%elem_of_singleton]%elem_of_union);
        [set_solver|eauto].
    + intros [(? & [=] & _)|[_ ->]]. eexists; (split; [done|]); set_solver.
  - rewrite lookup_insert_ne by done. naive_solver.
Qed.

Lemma setFQDNMatchSelector_rlinked fqdn s f x y :
  rlinked (setFQDNMatchSelector fqdn s f) y x ↔
  rlinked f y x ∨ (x = fqdn ∧ y = s).
Proof.
  unfold rlinked. rewrite setFQDNMatchSelector_selectorItemToFQDN.
  destruct (decide (y = s)) as [->|Hne].
  - rewrite lookup_insert_eq.
    destruct (selectorItemToFQDN f !! s) as [ss|]; cbn [default]; split.
    + intros (? & [= <-] & [Hin| ->%elem_of_singleton]%elem_of_union); eauto.
    + intros [(? & [= <-] & Hin)|[-> _]]; eexists; (split; [done|]); set_solver.
    + intros (? & [= <-] & [Hin| ->%elem_of_singleton]%elem_of_union);
        [set_solver|eauto].
    + intros [(? & [=] & _)|[-> _]]. eexists; (split; [done|]); set_solver.
  - rewrite lookup_insert_ne by done. naive_solver.
Qed.

Lemma setFQDNMatchSelector_known fqdn s f y :
  is_Some (selectorItemToFQDN (setFQDNMatchSelector fqdn s f) !! y) ↔
  is_Some (selectorItemToFQDN f !! y) ∨ y = s.
Proof.
  rewrite setFQDNMatchSelector_selectorItemToFQDN, lookup_insert.
  case_decide; subst; naive_solver.
Qed.

Lemma setFQDNMatchSelector_linksInv fqdn s f :
  linksInv f → registered f s → matches s fqdn = true →
  linksInv (setFQDNMatchSelector fqdn s f).
Proof.
  intros (Hl & Hr & Hc & Hk) Hreg Hm. unfold linksInv, registered, cachedName.
  rewrite setFQDNMatchSelector_selectorItemToRuleIDs,
    setFQDNMatchSelector_dnsEntryCache.
  setoid_rewrite setFQDNMatchSelector_linked.
  setoid_rewrite setFQDNMatchSelector_rlinked.
  setoid_rewrite setFQDNMatchSelector_known.
  split; [|split; [|split]].
  - intros x y [Hxy|[-> ->]]; [|by eauto].
    destruct (Hl x y Hxy) as (? & ? & ?). eauto.
  - intros y x [Hxy|[-> ->]]; [|by eauto]. left. by apply Hr.
  - intros x Hx. destruct (Hc x Hx) as [y Hy]. eauto.
  - intros y [Hy| ->]; [by apply Hk|done].
Qed.

Lemma setFQDNMatchSelector_complete fqdn s f s' :
  complete f s' → complete (setFQDNMatchSelector fqdn s f) s'.
Proof.
  unfold complete, cachedName. rewrite setFQDNMatchSelector_dnsEntryCache.
  setoid_rewrite setFQDNMatchSelector_rlinked. eauto.
Qed.

Lemma grown_refl f : grown f f.
Proof. unfold grown. eauto. Qed.

Lemma grown_trans f1 f2 f3 : grown f1 f2 → grown f2 f3 → grown f1 f3.
Proof.
  intros (Hc1 & Hr1 & Hl1 & Hi1) (Hc2 & Hr2 & Hl2 & Hi2).
  split; [congruence|]. split; [congruence|]. split; eauto.
Qed.

Lemma grown_complete f f' s : grown f f' → complete f s → complete f' s.
Proof.
  intros (Hc & _ & Hl & _) Hcomp x. unfold cachedName. rewrite Hc. eauto.
Qed.

Lemma grown_registered f f' s : grown f f' → registered f' s ↔ registered f s.
Proof. intros (_ & Hr & _). unfold registered. by rewrite Hr. Qed.

Lemma setFQDNMatchSelector_grown fqdn s f :
  registered f s → matches s fqdn = true →
  grown f (setFQDNMatchSelector fqdn s f).
Proof.
  intros Hreg Hm. split; [apply setFQDNMatchSelector_dnsEntryCache|].
  split; [apply setFQDNMatchSelector_selectorItemToRuleIDs|]. split.
  - intros y x Hyx. apply setFQDNMatchSelector_rlinked. by left.
  - intros Hinv. by apply setFQDNMatchSelector_linksInv.
Qed.

(** The loop of [addFQDNSelector] over the cached names. *)
Lemma matchCachedNames_grown {A} (s : fqdnSelectorItem) (l : list (string * A))
    (f : fqdnController) :
  registered f s →
  let f' :=
    foldl (λ f kv, if matches s kv.1 then setFQDNMatchSelector kv.1 s f else f)
          f l in
  grown f f' ∧ ∀ kv, kv ∈ l → matches s kv.1 = true → rlinked f' s kv.1.
Proof.
  revert f. induction l as [|[k v] l IH]; intros f Hreg; cbn [foldl].
  - split; [apply grown_refl|]. by intros kv ?%elem_of_nil.
  - cbn [fst]. set (f1 := if matches s k then _ else f).
    assert (grown f f1 ∧ (matches s k = true → rlinked f1 s k)) as [Hg Hk].
    { subst f1. destruct (matches s k) eqn:Hm.
      - split; [by apply setFQDNMatchSelector_grown|].
        intros _. apply setFQDNMatchSelector_rlinked. by right.
      - split; [apply grown_refl|done]. }
    destruct (IH f1) as [Hg' Hl]; [by apply (grown_registered f f1)|].
    split; [by eapply grown_trans|].
    intros kv [->|Hin]%elem_of_cons Hm; [|exact (Hl kv Hin Hm)].
    destruct Hg' as (_ & _ & Hmono & _). apply Hmono, Hk, Hm.
Qed.

(** The loop of [onDNSResponse] over the registered selector items. *)
Lemma matchNewFQDN_grown (fqdn : string)
    (l : list (fqdnSelectorItem * gset string)) (f : fqdnController)
    (add : bool) :
  (∀ kv, kv ∈ l → registered f kv.1) →
  let r := foldl (matchNewFQDN fqdn) (f, add) l in
  grown f r.1 ∧
  (∀ kv, kv ∈ l → matches kv.1 fqdn = true → rlinked r.1 kv.1 fqdn) ∧
  (r.2 = true ↔ add = true ∨ ∃ kv, kv ∈ l ∧ matches kv.1 fqdn = true).
Proof.
  revert f add. induction l as [|[s v] l IH]; intros f add Hreg; cbn [foldl].
  - split; [apply grown_refl|]. split; [by intros kv ?%elem_of_nil|].
    cbn. setoid_rewrite elem_of_nil. naive_solver.
  - change (matchNewFQDN fqdn (f, add) (s, v))
      with (if matches s fqdn then (setFQDNMatchSelector fqdn s f, true)
            else (f, add)).
    assert (registered f s) as Hs by (apply (Hreg (s, v)), elem_of_cons; by left).
    destruct (matches s fqdn) eqn:Hm.
    + assert (grown f (setFQDNMatchSelector fqdn s f)) as Hg
        by (by apply setFQDNMatchSelector_grown).
      destruct (IH (setFQDNMatchSelector fqdn s f) true) as (Hg' & Hl & Hadd).
      { intros kv Hin. apply (grown_registered f); [done|].
        apply Hreg, elem_of_cons. by right. }
      split; [by eapply grown_trans|]. split.
      * intros kv [->|Hin]%elem_of_cons Hkv; [|exact (Hl kv Hin Hkv)].
        destruct Hg' as (_ & _ & Hmono & _). apply Hmono.
        apply setFQDNMatchSelector_rlinked. by right.
      * rewrite Hadd. split; [|by left]. intros _. right. exists (s, v).
        split; [by apply elem_of_cons; left|done].
    + destruct (IH f add) as (Hg' & Hl & Hadd).
      { intros kv Hin. apply Hreg, elem_of_cons. by right. }
      split; [done|]. split.
      * intros kv [->|Hin]%elem_of_cons Hkv;
          [cbn in Hkv; congruence|exact (Hl kv Hin Hkv)].
      * rewrite Hadd. setoid_rewrite elem_of_cons. split; [naive_solver|].
        intros [?|(kv & [->|?] & Hkv)]; [by left| |by eauto].
        cbn in Hkv. congruence.
Qed.

(** *** Cleanup of a selector item *)

Lemma cleanupFQDN_unfold fs f x0 :
  cleanupFQDN fs f x0 =
    match fqdnToSelectorItems f !! x0 with
    | Some ss =>
        if decide (fs ∈ ss) then
          if decide (ss ∖ {[fs]} = ∅) then
            set_dnsEntryCache (delete x0 (dnsEntryCache f))
              (set_fqdnToSelectorItems (delete x0 (fqdnToSelectorItems f)) f)
          else
            set_fqdnToSelectorItems
              (<[x0 := ss ∖ {[fs]}]> (fqdnToSelectorItems f)) f
        else f
    | None => f
    end.
Proof.
  unfold cleanupFQDN.
  destruct (fqdnToSelectorItems f !! x0) as [ss|]; cbn [default from_option id].
  - destruct (decide (fs ∈ ss)); [|done].
    destruct (decide (size (ss ∖ {[fs]}) = 0%nat)) as [Hz|Hnz],
             (decide (ss ∖ {[fs]} = ∅)) as [He|Hne]; try done.
    + by apply size_empty_inv, leibniz_equiv in Hz.
    + rewrite He, size_empty in Hnz. done.
  - destruct (decide (fs ∈ ∅)) as [Hin|]; [|done].
    by apply not_elem_of_empty in Hin.
Qed.

Lemma cleanupFQDN_linked fs f x0 x y :
  linked (cleanupFQDN fs f x0) x y ↔ linked f x y ∧ ¬ (x = x0 ∧ y = fs).
Proof.
  unfold linked. rewrite cleanupFQDN_unfold.
  destruct (fqdnToSelectorItems f !! x0) as [ss|] eqn:Hx0.
  - destruct (decide (fs ∈ ss)) as [Hin|Hnin].
    + destruct (decide (ss ∖ {[fs]} = ∅)) as [Hz|Hnz];
        cbn [fqdnToSelectorItems set_dnsEntryCache set_fqdnToSelectorItems].
      * destruct (decide (x = x0)) as [->|Hne].
        -- rewrite lookup_delete_eq, Hx0. split; [by intros (? & [=] & _)|].
           intros [(? & [= <-] & Hy) Hn]. exfalso. apply Hn. split; [done|].
           destruct (decide (y = fs)); [done|]. set_solver.
        -- rewrite lookup_delete_ne by done. naive_solver.
      * destruct (decide (x = x0)) as [->|Hne].
        -- rewrite lookup_insert_eq, Hx0. split.
           ++ intros (? & [= <-] & Hy). split; [exists ss; set_solver|].
              set_solver.
           ++ intros [(? & [= <-] & Hy) Hn]. eexists. split; [done|].
              set_solver.
        -- rewrite lookup_insert_ne by done. naive_solver.
    + split; [|naive_solver]. intros (ss' & Hss' & Hy). split; [by eauto|].
      intros [-> ->]. congruence.
  - split; [|naive_solver]. intros (ss' & Hss' & Hy). split; [by eauto|].
    intros [-> ->]. congruence.
Qed.

Lemma cleanupFQDN_cachedName fs f x0 x :
  cachedName (cleanupFQDN fs f x0) x ↔
  cachedName f x ∧ ¬ (x = x0 ∧ onlySelectedBy f fs x).
Proof.
  unfold cachedName, onlySelectedBy. rewrite cleanupFQDN_unfold.
  destruct (fqdnToSelectorItems f !! x0) as [ss|] eqn:Hx0.
  - destruct (decide (fs ∈ ss)) as [Hin|Hnin].
    + destruct (decide (ss ∖ {[fs]} = ∅)) as [Hz|Hnz];
        cbn [dnsEntryCache set_dnsEntryCache set_fqdnToSelectorItems].
      * destruct (decide (x = x0)) as [->|Hne].
        -- rewrite lookup_delete_eq. split; [by intros [? [=]]|].
           intros [_ Hn]. exfalso. apply Hn. eauto.
        -- rewrite lookup_delete_ne by done. naive_solver.
      * split; [|naive_solver]. intros Hc. split; [done|].
        intros [-> (ss' & Hss' & _ & Hemp)]. congruence.
    + split; [|naive_solver]. intros Hc. split; [done|].
      intros [-> (ss' & Hss' & Hfs & _)]. congruence.
  - split; [|naive_solver]. intros Hc. split; [done|].
    intros [-> (ss' & Hss' & _)]. congruence.
Qed.

Lemma cleanupFQDN_other fs f x0 :
  selectorItemToFQDN (cleanupFQDN fs f x0) = selectorItemToFQDN f ∧
  selectorItemToRuleIDs (cleanupFQDN fs f x0) = selectorItemToRuleIDs f.
Proof.
  rewrite cleanupFQDN_unfold.
  destruct (fqdnToSelectorItems f !! x0); [|done]. repeat case_decide; done.
Qed.

Lemma cleanupFQDN_onlySelectedBy fs f x0 x :
  x ≠ x0 →
  onlySelectedBy (cleanupFQDN fs f x0) fs x ↔ onlySelectedBy f fs x.
Proof.
  intros Hne. unfold onlySelectedBy. rewrite cleanupFQDN_unfold.
  destruct (fqdnToSelectorItems f !! x0); [|done].
  repeat case_decide;
    cbn [fqdnToSelectorItems set_dnsEntryCache set_fqdnToSelectorItems];
    [| |done].
  - by rewrite lookup_delete_ne.
  - by rewrite lookup_insert_ne.
Qed.

Lemma onlySelectedBy_linked f fs x : onlySelectedBy f fs x → linked f x fs.
Proof. intros (ss & ? & ? & _). by exists ss. Qed.

Lemma cleanupLoop_spec fs (l : list string) f :
  let f' := foldl (cleanupFQDN fs) f l in
  (∀ x y, linked f' x y ↔ linked f x y ∧ ¬ (x ∈ l ∧ y = fs)) ∧
  (∀ x, cachedName f' x ↔ cachedName f x ∧ ¬ (x ∈ l ∧ onlySelectedBy f fs x)) ∧
  selectorItemToFQDN f' = selectorItemToFQDN f ∧
  selectorItemToRuleIDs f' = selectorItemToRuleIDs f.
Proof.
  revert f. induction l as [|x0 l IH]; intros f; cbn [foldl].
  - setoid_rewrite elem_of_nil. naive_solver.
  - destruct (IH (cleanupFQDN fs f x0)) as (Hl & Hc & Hs2f & Hs2r).
    destruct (cleanupFQDN_other fs f x0) as [Ho1 Ho2].
    split; [|split; [|split; congruence]].
    + intros x y. rewrite Hl, cleanupFQDN_linked, elem_of_cons. naive_solver.
    + intros x. rewrite Hc, cleanupFQDN_cachedName, elem_of_cons.
      destruct (decide (x = x0)) as [->|Hne].
      * split.
        -- intros [[Hcx Hn] _]. split; [done|]. intros [_ Honly]. by apply Hn.
        -- intros [Hcx Hn]. split; [split; [done|]|].
           ++ intros [_ Honly]. apply Hn. split; [by left|done].
           ++ intros [_ Honly%onlySelectedBy_linked].
              apply cleanupFQDN_linked in Honly as [_ Hn']. by apply Hn'.
      * rewrite cleanupFQDN_onlySelectedBy by done. naive_solver.
Qed.

(** *** The operations preserve the invariant *)

Lemma indexInv_ext f f' :
  (∀ x, cachedName f' x ↔ cachedName f x) →
  fqdnToSelectorItems f' = fqdnToSelectorItems f →
  selectorItemToFQDN f' = selectorItemToFQDN f →
  (∀ s, registered f' s ↔ registered f s) →
  indexInv f → indexInv f'.
Proof.
  intros Hc Hf2s Hs2f Hreg [(Hl & Hr & Hcn & Hk) Hcomp].
  assert (∀ x y, linked f' x y ↔ linked f x y) as Hlk
    by (intros; unfold linked; by rewrite Hf2s).
  assert (∀ y x, rlinked f' y x ↔ rlinked f y x) as Hrl
    by (intros; unfold rlinked; by rewrite Hs2f).
  split; [split; [|split; [|split]]|].
  - intros x y Hxy%Hlk. destruct (Hl x y Hxy) as (? & ? & ?).
    split; [done|]. split; [by apply Hreg|by apply Hrl].
  - intros y x Hyx%Hrl. by apply Hlk, Hr.
  - intros x Hx%Hc. destruct (Hcn x Hx) as [y Hy]. exists y. by apply Hlk.
  - intros y. rewrite Hs2f, Hreg. apply Hk.
  - intros y Hy%Hreg x Hx%Hc Hm. apply Hrl. by apply Hcomp.
Qed.

Lemma cleanupFQDNSelectorItem_indexInv fs f :
  indexInv f → indexInv (cleanupFQDNSelectorItem fs f).
Proof.
  intros [(Hl & Hr & Hcn & Hk) Hcomp]. unfold cleanupFQDNSelectorItem.
  set (names := default ∅ (selectorItemToFQDN f !! fs)).
  destruct (cleanupLoop_spec fs (elements names) f) as (Hlk & Hc & Hs2f & Hs2r).
  set (f1 := foldl (cleanupFQDN fs) f (elements names)) in *.
  set (f' := set_selectorItemToRuleIDs _ _).
  assert (∀ x, linked f x fs → x ∈ elements names) as Hnames.
  { intros x Hx. destruct (Hl x fs Hx) as (_ & _ & ns & Hns & Hin).
    apply elem_of_elements. subst names. by rewrite Hns. }
  assert (∀ x y, linked f' x y ↔ linked f x y ∧ y ≠ fs) as Hlk'.
  { intros x y. change (linked f' x y) with (linked f1 x y). rewrite Hlk.
    split; [|naive_solver]. intros [Hxy Hn]. split; [done|].
    intros ->. apply Hn. split; [by apply Hnames|done]. }
  assert (∀ y x, rlinked f' y x ↔ rlinked f y x ∧ y ≠ fs) as Hrl'.
  { intros y x. unfold rlinked.
    cbn [f' selectorItemToFQDN set_selectorItemToRuleIDs set_selectorItemToFQDN].
    rewrite Hs2f. destruct (decide (y = fs)) as [->|Hne].
    - rewrite lookup_delete_eq. naive_solver.
    - rewrite lookup_delete_ne by done. naive_solver. }
  assert (∀ y, registered f' y ↔ registered f y ∧ y ≠ fs) as Hreg'.
  { intros y. unfold registered.
    cbn [f' selectorItemToRuleIDs set_selectorItemToRuleIDs set_selectorItemToFQDN].
    rewrite Hs2r. destruct (decide (y = fs)) as [->|Hne].
    - rewrite lookup_delete_eq. split; [by intros [? [=]]|naive_solver].
    - rewrite lookup_delete_ne by done. naive_solver. }
  assert (∀ x, cachedName f' x ↔
               cachedName f x ∧ ¬ (x ∈ elements names ∧ onlySelectedBy f fs x))
    as Hc' by exact Hc.
  split; [split; [|split; [|split]]|].
  - intros x y [Hxy Hne]%Hlk'. destruct (Hl x y Hxy) as (? & ? & ?).
    split; [done|]. split; [by apply Hreg'|by apply Hrl'].
  - intros y x [Hyx Hne]%Hrl'. apply Hlk'. split; [by apply Hr|done].
  - intros x [Hx Hn]%Hc'. destruct (Hcn x Hx) as [y Hy].
    destruct (decide (y = fs)) as [->|Hne]; [|exists y; by apply Hlk'].
    destruct Hy as (ss & Hss & Hin).
    destruct (decide (ss ∖ {[fs]} = ∅)) as [Hemp|Hnemp].
    + exfalso. apply Hn. split; [apply Hnames; by exists ss|by exists ss].
    + apply set_choose_L in Hnemp as [y Hy]. exists y. apply Hlk'.
      split; [exists ss; set_solver|set_solver].
  - intros y.
    cbn [f' selectorItemToFQDN set_selectorItemToRuleIDs set_selectorItemToFQDN].
    rewrite Hs2f, Hreg'. destruct (decide (y = fs)) as [->|Hne].
    + rewrite lookup_delete_eq. by intros [? [=]].
    + rewrite lookup_delete_ne by done. intros ?%Hk. done.
  - intros y [Hy Hne]%Hreg' x [Hx _]%Hc' Hm. apply Hrl'.
    split; [by apply Hcomp|done].
Qed.

Lemma registered_insert_same f s v y :
  registered f s →
  registered (set_selectorItemToRuleIDs (<[s := v]> (selectorItemToRuleIDs f)) f) y
  ↔ registered f y.
Proof.
  intros Hs. unfold registered. cbn [selectorItemToRuleIDs set_selectorItemToRuleIDs].
  rewrite lookup_insert. case_decide; subst; naive_solver.
Qed.

Lemma deleteFQDNSelector1_indexInv ruleID f fqdn :
  indexInv f → indexInv (deleteFQDNSelector1 ruleID f fqdn).
Proof.
  intros Hinv. unfold deleteFQDNSelector1.
  destruct (selectorItemToRuleIDs f !! fqdnToSelectorItem fqdn) as [rules|] eqn:Hs;
    [|done].
  destruct (decide (ruleID ∈ rules)); [|done].
  destruct (decide (0 < size (rules ∖ {[ruleID]}))%nat).
  - apply (indexInv_ext f); try done.
    intros y. apply registered_insert_same. by exists rules.
  - by apply cleanupFQDNSelectorItem_indexInv.
Qed.

Lemma deleteFQDNSelector_indexInv ruleID fqdns f :
  indexInv f → indexInv (deleteFQDNSelector ruleID fqdns f).
Proof.
  unfold deleteFQDNSelector. revert f.
  induction fqdns as [|fqdn fqdns IH]; intros f Hinv; [done|].
  cbn [foldl]. by apply IH, deleteFQDNSelector1_indexInv.
Qed.

Lemma matches_name (s : fqdnSelectorItem) (x : string) :
  matchRegex s = "" → matches s x = true ↔ matchName s = x.
Proof.
  intros Hre. unfold matches. rewrite decide_False by (by intros []).
  apply bool_decide_eq_true.
Qed.

Lemma addFQDNSelector1_indexInv ruleID f fqdn :
  indexInv f → indexInv (addFQDNSelector1 ruleID f fqdn).
Proof.
  intros Hinv. unfold addFQDNSelector1.
  set (s := fqdnToSelectorItem fqdn).
  destruct (selectorItemToRuleIDs f !! s) as [rules|] eqn:Hs.
  { apply (indexInv_ext f); try done.
    intros y. apply registered_insert_same. by exists rules. }
  set (f0 := set_selectorItemToRuleIDs _ f). cbv zeta.
  destruct Hinv as [(Hl & Hr & Hcn & Hk) Hcomp].
  assert (∀ y, registered f0 y ↔ registered f y ∨ y = s) as Hreg0.
  { intros y. unfold registered.
    cbn [f0 selectorItemToRuleIDs set_selectorItemToRuleIDs].
    rewrite lookup_insert. case_decide; subst; naive_solver. }
  assert (linksInv f0) as Hinv0.
  { split; [|split; [|split]].
    - intros x y Hxy. destruct (Hl x y Hxy) as (? & ? & ?).
      split; [done|]. split; [apply Hreg0; by left|done].
    - exact Hr.
    - exact Hcn.
    - intros y Hy. apply Hreg0. left. by apply Hk. }
  assert (∀ y, registered f y → complete f0 y) as Hcomp0 by exact Hcomp.
  destruct (decide (matchRegex s ≠ "")) as [Hre|Hre].
  - destruct (matchCachedNames_grown s (map_to_list (dnsEntryCache f0)) f0)
      as [Hg Hlinks]; [apply Hreg0; by right|].
    set (f' := foldl _ f0 _) in *.
    split; [by apply Hg|].
    intros y [Hy| ->]%(grown_registered f0 f' _ Hg)%Hreg0.
    + by apply (grown_complete f0), Hcomp0.
    + intros x [v Hx] Hm. destruct Hg as (Hc & _).
      rewrite Hc in Hx. apply elem_of_map_to_list in Hx.
      exact (Hlinks (x, v) Hx Hm).
  - apply dec_stable in Hre.
    assert (grown f0 (setFQDNMatchSelector (matchName s) s f0)) as Hg.
    { apply setFQDNMatchSelector_grown; [apply Hreg0; by right|].
      by apply matches_name. }
    set (f1 := setFQDNMatchSelector (matchName s) s f0) in *.
    apply (indexInv_ext f1); try done.
    split; [by apply Hg|].
    intros y [Hy| ->]%(grown_registered f0 f1 _ Hg)%Hreg0.
    + by apply (grown_complete f0), Hcomp0.
    + intros x _ Hm%matches_name; [|done]. subst x.
      apply setFQDNMatchSelector_rlinked. by right.
Qed.

Lemma addFQDNSelector_indexInv ruleID fqdns f :
  indexInv f → indexInv (addFQDNSelector ruleID fqdns f).
Proof.
  unfold addFQDNSelector. revert f.
  induction fqdns as [|fqdn fqdns IH]; intros f Hinv; [done|].
  cbn [foldl]. by apply IH, addFQDNSelector1_indexInv.
Qed.

Lemma syncDirtyRules_index fqdn waitCh addressUpdate f log :
  let f' := (syncDirtyRules fqdn waitCh addressUpdate (f, log)).1 in
  dnsEntryCache f' = dnsEntryCache f ∧
  fqdnToSelectorItems f' = fqdnToSelectorItems f ∧
  selectorItemToFQDN f' = selectorItemToFQDN f ∧
  selectorItemToRuleIDs f' = selectorItemToRuleIDs f.
Proof.
  unfold syncDirtyRules.
  destruct waitCh, addressUpdate; try done; by case_decide.
Qed.

Lemma syncDirtyRules_indexInv fqdn waitCh addressUpdate f log :
  indexInv f → indexInv (syncDirtyRules fqdn waitCh addressUpdate (f, log)).1.
Proof.
  destruct (syncDirtyRules_index fqdn waitCh addressUpdate f log)
    as (Hc & Hf & Hs & Hr).
  apply indexInv_ext; try done.
  - intros x. unfold cachedName. by rewrite Hc.
  - intros y. unfold registered. by rewrite Hr.
Qed.

Lemma foldl_updateIPWithExpiration_lookup
    (l : list (string * ipWithExpiration))
    (acc : gmap string ipWithExpiration * option Time) (k : string) :
  NoDup l.*1 →
  (foldl (λ m kv, updateIPWithExpiration kv.1 kv.2 m) acc l).1 !! k =
    match (list_to_map l : gmap string ipWithExpiration) !! k with
    | Some v => Some v
    | None => acc.1 !! k
    end.
Proof.
  revert acc. induction l as [|[k0 v0] l IH]; intros acc Hnd; cbn [foldl].
  - cbn. by rewrite lookup_empty.
  - cbn in Hnd. apply NoDup_cons in Hnd as [Hk0 Hnd]. rewrite IH by done.
    cbn [list_to_map foldr curry fst snd].
    rewrite updateIPWithExpiration_lookup.
    destruct (decide (k0 = k)) as [->|Hne].
    + rewrite lookup_insert_eq.
      by rewrite (not_elem_of_list_to_map_1 l k) by done.
    + by rewrite lookup_insert_ne by done.
Qed.

Lemma foldl_updateIPWithExpiration_map (new : gmap string ipWithExpiration) :
  (foldl (λ m kv, updateIPWithExpiration kv.1 kv.2 m) (∅, None)
     (map_to_list new)).1 = new.
Proof.
  apply map_eq. intros k.
  rewrite foldl_updateIPWithExpiration_lookup by apply NoDup_fst_map_to_list.
  rewrite list_to_map_to_list. cbn. rewrite lookup_empty.
  by destruct (new !! k).
Qed.

(** [onDNSResponse] for a name that is not cached. *)
Lemma onDNSResponse_new (fqdn : string)
    (new : gmap string ipWithExpiration) (waitCh : option chanId)
    (f : fqdnController) (log : chanLog) :
  dnsEntryCache f !! fqdn = None →
  new ≠ ∅ →
  let r :=
    foldl (matchNewFQDN fqdn) (set_clock (λ n, clock f (S n)) f, false)
          (map_to_list (selectorItemToRuleIDs f)) in
  ∃ f1,
    onDNSResponse fqdn new waitCh (f, log) =
      syncDirtyRules fqdn waitCh r.2 (f1, log) ∧
    dnsEntryCache f1 =
      (if r.2 then <[fqdn := mkDNSMeta new]> (dnsEntryCache r.1)
       else dnsEntryCache r.1) ∧
    fqdnToSelectorItems f1 = fqdnToSelectorItems r.1 ∧
    selectorItemToFQDN f1 = selectorItemToFQDN r.1 ∧
    selectorItemToRuleIDs f1 = selectorItemToRuleIDs r.1.
Proof.
  intros Hc Hne r. unfold onDNSResponse.
  rewrite decide_False by (by intros ?%map_size_empty_inv).
  cbn [clock_Now]. cbn [set_clock dnsEntryCache selectorItemToRuleIDs].
  rewrite Hc. fold r. destruct r as [f2 [|]]; cbn [fst snd].
  - pose proof (foldl_updateIPWithExpiration_map new) as Hmap.
    destruct (foldl _ (∅, None) (map_to_list new)) as [m t].
    cbn [fst] in Hmap. subst m.
    rewrite decide_True.
    2:{ destruct (decide (size new = 0%nat)) as [Hz|]; [|lia].
        by apply map_size_empty_inv in Hz. }
    destruct t; eexists; (split; [reflexivity|]); done.
  - rewrite decide_False by (rewrite map_size_empty; lia).
    eexists. split; [reflexivity|]. done.
Qed.

Lemma onDNSResponse_indexInv fqdn new waitCh f log :
  indexInv f → indexInv (onDNSResponse fqdn new waitCh (f, log)).1.
Proof.
  intros Hinv.
  destruct (decide (new = ∅)) as [->|Hne].
  { unfold onDNSResponse. rewrite decide_True by apply map_size_empty.
    by destruct waitCh. }
  destruct (dnsEntryCache f !! fqdn) as [cached|] eqn:Hc.
  - destruct (onDNSResponse_cached fqdn new waitCh f log cached Hc Hne)
      as (f1 & -> & Hcache & Hf2s & Hs2f & Hs2r & _).
    apply syncDirtyRules_indexInv. apply (indexInv_ext f); try done.
    + intros x. unfold cachedName. rewrite Hcache.
      destruct (decide (x = fqdn)) as [->|Hx].
      * rewrite lookup_insert_eq, Hc. split; eauto.
      * by rewrite lookup_insert_ne.
    + intros y. unfold registered. by rewrite Hs2r.
  - destruct (onDNSResponse_new fqdn new waitCh f log Hc Hne)
      as (f1 & -> & Hcache & Hf2s & Hs2f & Hs2r).
    apply syncDirtyRules_indexInv.
    set (f0 := set_clock (λ n, clock f (S n)) f) in *.
    destruct (matchNewFQDN_grown fqdn (map_to_list (selectorItemToRuleIDs f))
                f0 false) as (Hg & Hlinks & Hadd).
    { intros [y v] Hin%elem_of_map_to_list. by exists v. }
    set (r := foldl (matchNewFQDN fqdn) (f0, false) _) in *.
    assert (indexInv r.1) as Hinvr.
    { destruct Hinv as [Hli Hcomp]. split; [by apply Hg|].
      intros y Hy%(grown_registered f0 r.1 _ Hg).
      apply (grown_complete f0); [done|]. by apply Hcomp. }
    destruct r.2 eqn:Hr2.
    + destruct Hinvr as [(Hl & Hr & Hcn & Hk) Hcomp].
      assert (∀ x y, linked f1 x y ↔ linked r.1 x y) as Hlk
        by (intros; unfold linked; by rewrite Hf2s).
      assert (∀ y x, rlinked f1 y x ↔ rlinked r.1 y x) as Hrl
        by (intros; unfold rlinked; by rewrite Hs2f).
      assert (∀ y, registered f1 y ↔ registered r.1 y) as Hreg
        by (intros; unfold registered; by rewrite Hs2r).
      assert (∀ x, cachedName f1 x ↔ cachedName r.1 x ∨ x = fqdn) as Hcn1.
      { intros x. unfold cachedName. rewrite Hcache, lookup_insert.
        case_decide; subst; naive_solver. }
      assert (∀ y, registered r.1 y → matches y fqdn = true →
                   rlinked r.1 y fqdn) as Hnew.
      { intros y [v Hy]%(grown_registered f0 r.1 _ Hg) Hm.
        apply (Hlinks (y, v)); [|done]. by apply elem_of_map_to_list. }
      split; [split; [|split; [|split]]|].
      * intros x y Hxy%Hlk. destruct (Hl x y Hxy) as (? & ? & ?).
        split; [done|]. split; [by apply Hreg|by apply Hrl].
      * intros y x Hyx%Hrl. by apply Hlk, Hr.
      * intros x [Hx| ->]%Hcn1.
        -- destruct (Hcn x Hx) as [y Hy]. exists y. by apply Hlk.
        -- destruct (proj1 Hadd eq_refl) as [[=]|([y v] & Hin & Hm)].
           exists y. apply Hlk, Hr. exact (Hlinks (y, v) Hin Hm).
      * intros y. rewrite Hs2f, Hreg. apply Hk.
      * intros y Hy%Hreg x [Hx| ->]%Hcn1 Hm; apply Hrl.
        -- by apply Hcomp.
        -- by apply Hnew.
    + apply (indexInv_ext r.1); try done.
      * intros x. unfold cachedName. by rewrite Hcache.
      * intros y. unfold registered. by rewrite Hs2r.
Qed.

Lemma isNew_indexInv (id : Z) (f : fqdnController) :
  isNew id f → indexInv f.
Proof.
  intros (client & over & host & port & v4 & v6 & gw & clk & ttl & Hnew).
  unfold newFQDNController in Hnew.
  destruct (ofInvoke client _) as [c [e|]]; [done|].
  injection Hnew as <-.
  split; [split; [|split; [|split]]|].
  - intros x y (ss & Hss & _). cbn in Hss. by rewrite ?lookup_empty in Hss.
  - intros y x (ns & Hns & _). cbn in Hns. by rewrite ?lookup_empty in Hns.
  - intros x [? Hx]. cbn in Hx. by rewrite ?lookup_empty in Hx.
  - intros y [? Hy]. cbn in Hy. by rewrite ?lookup_empty in Hy.
  - intros y [? Hy]. cbn in Hy. by rewrite ?lookup_empty in Hy.
Qed.

Lemma reachable_indexInv (id : Z) (st : fqdnController * chanLog) :
  reachable id st → indexInv st.1.
Proof.
  induction 1 as [f Hnew|st op _ IH]; [by eapply isNew_indexInv|].
  destruct op as [ruleID fqdns|ruleID fqdns|fqdn new waitCh]; cbn [runIndexOp fst].
  - by apply addFQDNSelector_indexInv.
  - by apply deleteFQDNSelector_indexInv.
  - destruct st as [f log]. by apply onDNSResponse_indexInv.
Qed.

(** *** No orphan names *)


(** *** The addresses of a list of selectors *)

Lemma foldl_append_ip_elem (l : list (string * ipWithExpiration))
    (acc : list IP) (a : IP) :
  a ∈ foldl (λ acc kv, acc ++ [ip kv.2]) acc l ↔
  a ∈ acc ∨ ∃ kv, kv ∈ l ∧ ip kv.2 = a.
Proof.
  revert acc. induction l as [|kv0 l IH]; intros acc; cbn [foldl].
  - setoid_rewrite elem_of_nil. naive_solver.
  - rewrite IH, elem_of_app, list_elem_of_singleton.
    setoid_rewrite elem_of_cons. naive_solver.
Qed.

Lemma appendCachedIPs_elem f acc name a :
  a ∈ appendCachedIPs f acc name ↔ a ∈ acc ∨ cachedIP f name a.
Proof.
  unfold appendCachedIPs, cachedIP.
  destruct (dnsEntryCache f !! name) as [meta|]; [|naive_solver].
  rewrite foldl_append_ip_elem. split.
  - intros [?|([k v] & Hin%elem_of_map_to_list & Ha)]; [by left|].
    right. by exists meta, k, v.
  - intros [?|(? & k & v & [= <-] & Hk & Ha)]; [by left|].
    right. exists (k, v). split; [by apply elem_of_map_to_list|done].
Qed.

Lemma foldl_appendCachedIPs_elem f (l : list string) acc a :
  a ∈ foldl (appendCachedIPs f) acc l ↔
  a ∈ acc ∨ ∃ name, name ∈ l ∧ cachedIP f name a.
Proof.
  revert acc. induction l as [|x l IH]; intros acc; cbn [foldl].
  - setoid_rewrite elem_of_nil. naive_solver.
  - rewrite IH, appendCachedIPs_elem. setoid_rewrite elem_of_cons. naive_solver.
Qed.

Lemma getIPsLoop_elem f (fqdns : list string) acc a :
  (∀ e, e ∈ fqdns → is_Some (selectorItemToFQDN f !! fqdnToSelectorItem e)) →
  a ∈ getIPsLoop f fqdns acc ↔
  a ∈ acc ∨ ∃ e name, e ∈ fqdns ∧ rlinked f (fqdnToSelectorItem e) name ∧
                      cachedIP f name a.
Proof.
  revert acc. induction fqdns as [|e fqdns IH]; intros acc Hknown; cbn [getIPsLoop].
  - setoid_rewrite elem_of_nil. naive_solver.
  - destruct (Hknown e) as [names Hnames]; [by apply elem_of_cons; left|].
    rewrite Hnames, IH, foldl_appendCachedIPs_elem.
    2:{ intros e' He'. apply Hknown, elem_of_cons. by right. }
    setoid_rewrite elem_of_cons. setoid_rewrite elem_of_elements.
    unfold rlinked. split.
    + intros [[?|(name & Hin & Hip)]|(e' & name & He' & Hrl & Hip)];
        [by left| |].
      * right. exists e, name. split; [by left|]. split; [by exists names|done].
      * right. exists e', name. eauto.
    + intros [?|(e' & name & [->|He'] & (ns & Hns & Hin) & Hip)];
        [by left; left| |].
      * left. right. exists name. split; [congruence|done].
      * right. exists e', name. split; [done|]. split; [by exists ns|done].
Qed.

(** When the loop does not return early.  In a reachable state, for a
    list of FQDN expressions whose selector items all have an entry in
    [selectorItemToFQDN], the addresses [getIPsForFQDNSelectors] returns
    are exactly the addresses cached for the cached names that the
    selector item of some expression of the list matches. *)
Lemma getIPsForFQDNSelectors_known_selectors (id : Z)
    (st : fqdnController * chanLog) (fqdns : list string) (a : IP) :
  reachable id st →
  (∀ e, e ∈ fqdns →
        is_Some (selectorItemToFQDN st.1 !! fqdnToSelectorItem e)) →
  a ∈ getIPsForFQDNSelectors st.1 fqdns ↔
  ∃ e name meta k v,
    e ∈ fqdns ∧
    dnsEntryCache st.1 !! name = Some meta ∧
    matches (fqdnToSelectorItem e) name = true ∧
    responseIPs meta !! k = Some v ∧ ip v = a.
Proof.
  intros [(Hl & Hr & Hcn & Hk) Hcomp]%reachable_indexInv Hknown.
  unfold getIPsForFQDNSelectors. rewrite getIPsLoop_elem by done.
  rewrite elem_of_nil. split.
  - intros [[]|(e & name & He & Hrl & meta & k & v & Hc & Hv & Ha)].
    exists e, name, meta, k, v. split; [done|]. split; [done|].
    split; [|done]. by apply Hl, Hr.
  - intros (e & name & meta & k & v & He & Hc & Hm & Hv & Ha).
    right. exists e, name. split; [done|]. split.
    + apply Hcomp; [by apply Hk, Hknown|by exists meta|done].
    + by exists meta, k, v.
Qed.

(** The loop returns at the first selector item it does not know. *)
Lemma getIPsLoop_unknown f e rest acc :
  selectorItemToFQDN f !! fqdnToSelectorItem e = None →
  getIPsLoop f (e :: rest) acc = acc.
Proof. intros Hnone. cbn [getIPsLoop]. by rewrite Hnone. Qed.
End IndexProperties.

(** ** The index on the examples *)

Lemma example_controller_isNew (client : ofClientT) (ttl : Z) :
  ofReply client (ofCalls client) (NewDNSPacketInConjunction 1) = None →
  isNew 1 (ExampleLib.controller client ttl).
Proof.
  intros Hok.
  exists client, "", "", "", true, false, 2, (ExampleLib.tick 1000000000000), ttl.
  unfold ExampleLib.controller, newFQDNController, ofInvoke. by rewrite Hok.
Qed.

Lemma oneRule_reachable :
  reachable (golib := ExampleLib.lib) 1 ExampleLib.oneRule.
Proof.
  apply reachable_step, reachable_new. by apply example_controller_isNew.
Qed.

Lemma wildcardResolved_reachable :
  reachable (golib := ExampleLib.lib) 1 ExampleLib.wildcardResolved.
Proof.
  do 2 apply reachable_step. apply reachable_new.
  by apply example_controller_isNew.
Qed.

(** C7 fails as stated: a selector item registered for a name that has
    not been resolved matches the name, and the name is not cached. *)
Lemma registered_selector_name_not_cached :
  let st := ExampleLib.oneRule in
  reachable (golib := ExampleLib.lib) 1 st ∧
  ¬ (is_Some (dnsEntryCache st.1 !! "api.example.com") ↔
     ∃ s, is_Some (selectorItemToRuleIDs st.1 !! s) ∧
          matches (golib := ExampleLib.lib) s "api.example.com" = true).
Proof.
  split; [exact oneRule_reachable|]. intros [_ Hcached].
  destruct Hcached as [meta Hmeta].
  - exists (mkSelectorItem "api.example.com" "").
    split; [|by vm_compute]. vm_compute. eauto.
  - by vm_compute in Hmeta.
Qed.


(** An expression that no rule has registered: the exact name
    api.example.com is cached with an address and its own selector item
    matches it, but only the wildcard of rule r1 is registered, so the
    lookup by selector item finds no entry and no address is returned. *)
Lemma getIPsForFQDNSelectors_unknown_selector :
  let st := ExampleLib.wildcardResolved in
  reachable (golib := ExampleLib.lib) 1 st ∧
  getIPsForFQDNSelectors (golib := ExampleLib.lib) st.1 ["api.example.com"] = [] ∧
  ∃ meta v,
    dnsEntryCache st.1 !! "api.example.com" = Some meta ∧
    matches (golib := ExampleLib.lib)
      (fqdnToSelectorItem (golib := ExampleLib.lib) "api.example.com")
      "api.example.com" = true ∧
    responseIPs meta !! "10.0.0.1" = Some v ∧ ip v = [10; 0; 0; 1].
Proof.
  split; [exact wildcardResolved_reachable|]. split; [by vm_compute|].
  eexists _, _. split; [vm_compute; reflexivity|]. split; [by vm_compute|].
  split; by vm_compute.
Qed.

(** The lemma on the same example, for the expression of the rule. *)
Lemma getIPsForFQDNSelectors_known_selectors_witness :
  let st := ExampleLib.wildcardResolved in
  let fqdns := ["*.example.com"] in
  let a := [10; 0; 0; 1] in
  reachable (golib := ExampleLib.lib) 1 st ∧
  (∀ e, e ∈ fqdns →
        is_Some (selectorItemToFQDN st.1
                   !! fqdnToSelectorItem (golib := ExampleLib.lib) e)) ∧
  (a ∈ getIPsForFQDNSelectors (golib := ExampleLib.lib) st.1 fqdns ↔
   ∃ e name meta k v,
     e ∈ fqdns ∧
     dnsEntryCache st.1 !! name = Some meta ∧
     matches (golib := ExampleLib.lib)
       (fqdnToSelectorItem (golib := ExampleLib.lib) e) name = true ∧
     responseIPs meta !! k = Some v ∧ ip v = a).
Proof.
  intros st fqdns a.
  assert (∀ e, e ∈ fqdns →
               is_Some (selectorItemToFQDN st.1
                          !! fqdnToSelectorItem (golib := ExampleLib.lib) e))
    as Hknown.
  { intros e ->%list_elem_of_singleton. vm_compute. eauto. }
  split; [exact wildcardResolved_reachable|]. split; [exact Hknown|].
  exact (getIPsForFQDNSelectors_known_selectors (golib := ExampleLib.lib) 1
           st fqdns a wildcardResolved_reachable Hknown).
Defined.

Example wildcard_addresses :
  getIPsForFQDNSelectors (golib := ExampleLib.lib)
    ExampleLib.wildcardResolved.1 ["*.example.com"] = [[10; 0; 0; 1]].
Proof. by vm_compute. Qed.

Lemma unmatchedWildcard_reachable :
  reachable (golib := ExampleLib.lib) 1 ExampleLib.unmatchedWildcard.
Proof.
  do 2 apply reachable_step. apply reachable_new.
  by apply example_controller_isNew.
Qed.

(** C8.  The code diverges from the claim, on expressions that are all
    registered.  Rule r1 has registered *.foo.com and api.example.com,
    and api.example.com is cached with the address 10.0.0.1, which its
    selector item matches.  No cached name matches *.foo.com, so this
    selector item, although registered, has no entry in
    [selectorItemToFQDN]: the guard for a selector that is not known
    fires on it and returns from the loop.  For the expressions of the
    rule in the order *.foo.com, api.example.com the function returns no
    address; in the other order it returns 10.0.0.1. *)
Theorem getIPsForFQDNSelectors_returns_early_on_registered_wildcard :
  let st := ExampleLib.unmatchedWildcard in
  let sel := fqdnToSelectorItem (golib := ExampleLib.lib) in
  reachable (golib := ExampleLib.lib) 1 st ∧
  (∀ e, e ∈ ["*.foo.com"; "api.example.com"] →
        is_Some (selectorItemToRuleIDs st.1 !! sel e)) ∧
  selectorItemToFQDN st.1 !! sel "*.foo.com" = None ∧
  (∃ meta v,
     dnsEntryCache st.1 !! "api.example.com" = Some meta ∧
     matches (golib := ExampleLib.lib) (sel "api.example.com")
       "api.example.com" = true ∧
     responseIPs meta !! "10.0.0.1" = Some v ∧ ip v = [10; 0; 0; 1]) ∧
  getIPsForFQDNSelectors (golib := ExampleLib.lib) st.1
    ["*.foo.com"; "api.example.com"] = [] ∧
  getIPsForFQDNSelectors (golib := ExampleLib.lib) st.1
    ["api.example.com"; "*.foo.com"] = [[10; 0; 0; 1]].
Proof.
  split; [exact unmatchedWildcard_reachable|]. split.
  { intros e [->|[->|[]%elem_of_nil]%elem_of_cons]%elem_of_cons;
      vm_compute; eauto. }
  split; [by vm_compute|]. split.
  { eexists _, _. split; [vm_compute; reflexivity|]. split; [by vm_compute|].
    split; by vm_compute. }
  split; by vm_compute.
Qed.

(** * Further properties of the code *)

(** ** Selector items *)

Section SelectorShape.
Context {golib : GoLib}.

(** X1.  A selector item never has both fields set: an expression with a
    [*] (after lowering) gives an anchored regex and no name, and any
    other expression gives a name, no regex, and matches that name only. *)
Theorem fqdnToSelectorItem_shape (e : string) :
  let s := fqdnToSelectorItem e in
  (matchRegex s ≠ "" ↔ contains1 (strings_ToLower e) "*"%char = true) ∧
  (matchRegex s ≠ "" →
   matchName s = "" ∧ ∃ p, matchRegex s = "^" +:+ p +:+ "$") ∧
  (matchRegex s = "" →
   matchName s = strings_ToLower e ∧
   ∀ x, matches s x = true ↔ x = strings_ToLower e).
Proof.
  unfold fqdnToSelectorItem, toRegex.
  destruct (contains1 (strings_ToLower e) "*"%char) eqn:Hstar;
    cbn [matchRegex matchName].
  - split; [done|]. split; [|done]. intros _. split; [done|]. eauto.
  - split; [by split|]. split; [done|]. intros _. split; [done|].
    intros x. rewrite matches_name by done. cbn. naive_solver.
Qed.
End SelectorShape.

(** ** The selector index *)

Section IndexMore.
Context {golib : GoLib}.

(** X2.  Bidirectional integrity: in a reachable state a selector item is in
    the set of a name exactly when the name is in the set of the selector
    item. *)
Theorem reachable_bidirectional (id : Z) (st : fqdnController * chanLog)
    (x : string) (s : fqdnSelectorItem) :
  reachable id st →
  (∃ selectors, fqdnToSelectorItems st.1 !! x = Some selectors ∧ s ∈ selectors)
  ↔ (∃ names, selectorItemToFQDN st.1 !! s = Some names ∧ x ∈ names).
Proof.
  intros [(Hl & Hr & _) _]%reachable_indexInv. split.
  - intros Hxs. by apply (Hl x s).
  - intros Hsx. by apply (Hr s x).
Qed.

(** X3.  For a cached name of a reachable state, the rules [syncDirtyRules]
    collects are exactly the rules of the registered selector items that
    match the name. *)
Theorem rulesSelecting_cached_name (id : Z) (st : fqdnController * chanLog)
    (x r : string) :
  reachable id st →
  is_Some (dnsEntryCache st.1 !! x) →
  r ∈ rulesSelecting st.1 x ↔
  ∃ s rules,
    selectorItemToRuleIDs st.1 !! s = Some rules ∧ matches s x = true ∧
    r ∈ rules.
Proof.
  intros [(Hl & Hr & _) Hcomp]%reachable_indexInv Hx.
  rewrite rulesSelecting_elem. split.
  - intros (ss & s & rules & Hss & Hs & Hrules & Hin).
    exists s, rules. split; [done|]. split; [|done].
    apply (Hl x s). by exists ss.
  - intros (s & rules & Hrules & Hm & Hin).
    destruct (Hr s x) as (ss & Hss & Hs).
    { apply Hcomp; [by exists rules|done|done]. }
    by exists ss, s, rules.
Qed.
End IndexMore.

Section Registry.
Context {golib : GoLib}.

Lemma matchCachedNames_fields {A} (s : fqdnSelectorItem)
    (l : list (string * A)) (f : fqdnController) :
  let f' :=
    foldl (λ f kv, if matches s kv.1 then setFQDNMatchSelector kv.1 s f else f)
          f l in
  selectorItemToRuleIDs f' = selectorItemToRuleIDs f ∧
  dnsEntryCache f' = dnsEntryCache f ∧
  dnsQueryQueue f' = dnsQueryQueue f.
Proof.
  revert f. induction l as [|[k v] l IH]; intros f; cbn [foldl fst]; [done|].
  destruct (IH (if matches s k then setFQDNMatchSelector k s f else f))
    as (-> & -> & ->).
  destruct (matches s k); [|done].
  rewrite setFQDNMatchSelector_selectorItemToRuleIDs,
    setFQDNMatchSelector_dnsEntryCache.
  split; [done|]. split; [done|].
  unfold setFQDNMatchSelector.
  destruct (fqdnToSelectorItems f !! k);
    cbn [selectorItemToFQDN set_fqdnToSelectorItems];
    by destruct (selectorItemToFQDN f !! s).
Qed.

Lemma setFQDNMatchSelector_dnsQueryQueue fqdn s f :
  dnsQueryQueue (setFQDNMatchSelector fqdn s f) = dnsQueryQueue f.
Proof.
  unfold setFQDNMatchSelector.
  destruct (fqdnToSelectorItems f !! fqdn);
    cbn [selectorItemToFQDN set_fqdnToSelectorItems];
    by destruct (selectorItemToFQDN f !! s).
Qed.

(** One step of [addFQDNSelector]: the registry, the cache and the queue. *)
Lemma addFQDNSelector1_fields ruleID f e :
  let s := fqdnToSelectorItem e in
  let f' := addFQDNSelector1 ruleID f e in
  selectorItemToRuleIDs f' =
    <[s := default ∅ (selectorItemToRuleIDs f !! s) ∪ {[ruleID]}]>
      (selectorItemToRuleIDs f) ∧
  dnsEntryCache f' = dnsEntryCache f ∧
  dnsQueryQueue f' =
    dnsQueryQueue f ++
    (if decide (is_Some (selectorItemToRuleIDs f !! s)) then []
     else if decide (matchRegex s ≠ "") then []
     else [QAdd (matchName s)]).
Proof.
  intros s f'. subst f'. unfold addFQDNSelector1. fold s.
  destruct (selectorItemToRuleIDs f !! s) as [rules|] eqn:Hs.
  - rewrite decide_True by eauto. cbn. by rewrite app_nil_r.
  - rewrite (decide_False (P := is_Some None)) by (by intros [? [=]]).
    cbn [default]. rewrite union_empty_l_L.
    destruct (decide (matchRegex s ≠ "")).
    + match goal with
      | |- context [foldl ?g ?f0 ?l] =>
          destruct (matchCachedNames_fields s l f0) as (-> & -> & ->)
      end.
      cbn. by rewrite app_nil_r.
    + cbn [selectorItemToRuleIDs dnsEntryCache dnsQueryQueue set_dnsQueryQueue].
      rewrite setFQDNMatchSelector_selectorItemToRuleIDs,
        setFQDNMatchSelector_dnsEntryCache, setFQDNMatchSelector_dnsQueryQueue.
      done.
Qed.

Lemma addFQDNSelector_lookup (ruleID : string) (fqdns : list string)
    (f : fqdnController) (s : fqdnSelectorItem) :
  selectorItemToRuleIDs (addFQDNSelector ruleID fqdns f) !! s =
    if decide (s ∈ fqdnToSelectorItem <$> fqdns)
    then Some (default ∅ (selectorItemToRuleIDs f !! s) ∪ {[ruleID]})
    else selectorItemToRuleIDs f !! s.
Proof.
  unfold addFQDNSelector. revert f.
  induction fqdns as [|e fqdns IH]; intros f; cbn [foldl fmap list_fmap].
  - by rewrite decide_False by apply not_elem_of_nil.
  - rewrite IH. destruct (addFQDNSelector1_fields ruleID f e) as (-> & _).
    destruct (decide (s = fqdnToSelectorItem e)) as [->|Hne].
    + rewrite lookup_insert_eq. cbn [default].
      rewrite (decide_True (P := _ ∈ _ :: _)) by (apply elem_of_cons; by left).
      case_decide; [|done]. f_equal. set_solver.
    + rewrite lookup_insert_ne by done.
      destruct (decide (s ∈ fqdnToSelectorItem <$> fqdns)) as [Hin|Hnin].
      * by rewrite decide_True by (apply elem_of_cons; by right).
      * rewrite decide_False; [done|]. by intros [?|?]%elem_of_cons.
Qed.

(** X4.  The registry after [addFQDNSelector]: the rule is added to the rule
    set of the selector item of every expression of the list, a selector
    item that was not registered starting from the empty set, and no
    other selector item changes. *)
Theorem addFQDNSelector_registry (ruleID : string) (fqdns : list string)
    (f : fqdnController) (s : fqdnSelectorItem) :
  selectorItemToRuleIDs (addFQDNSelector ruleID fqdns f) !! s =
    if decide (s ∈ fqdnToSelectorItem <$> fqdns)
    then Some (default ∅ (selectorItemToRuleIDs f !! s) ∪ {[ruleID]})
    else selectorItemToRuleIDs f !! s.
Proof. apply addFQDNSelector_lookup. Qed.

(** X5.  [addFQDNSelector] never touches the cache, and the only operations it
    issues on the query queue are immediate queries for exact names of
    the list: a wildcard triggers no query. *)
Theorem addFQDNSelector_cache_and_queue (ruleID : string)
    (fqdns : list string) (f : fqdnController) :
  dnsEntryCache (addFQDNSelector ruleID fqdns f) = dnsEntryCache f ∧
  ∃ ops,
    dnsQueryQueue (addFQDNSelector ruleID fqdns f) = dnsQueryQueue f ++ ops ∧
    ∀ op, op ∈ ops →
      ∃ e, e ∈ fqdns ∧ matchRegex (fqdnToSelectorItem e) = "" ∧
           op = QAdd (matchName (fqdnToSelectorItem e)).
Proof.
  unfold addFQDNSelector. revert f.
  induction fqdns as [|e fqdns IH]; intros f; cbn [foldl].
  - split; [done|]. exists []. rewrite app_nil_r. split; [done|].
    by intros op ?%elem_of_nil.
  - destruct (IH (addFQDNSelector1 ruleID f e)) as (-> & ops & -> & Hops).
    destruct (addFQDNSelector1_fields ruleID f e) as (_ & -> & ->).
    split; [done|]. eexists. rewrite <- app_assoc. split; [reflexivity|].
    intros op [Hop|Hop]%elem_of_app.
    + exists e. split; [apply elem_of_cons; by left|].
      repeat case_decide; try (by apply elem_of_nil in Hop).
      apply list_elem_of_singleton in Hop as ->. by split.
    + destruct (Hops op Hop) as (e' & He' & ?). exists e'.
      split; [apply elem_of_cons; by right|done].
Qed.

End Registry.

Section RegistryDelete.
Context {golib : GoLib}.



Lemma releaseRule_idemp ruleID o :
  releaseRule ruleID (releaseRule ruleID o) = releaseRule ruleID o.
Proof.
  unfold releaseRule. destruct o as [rules|]; [|done].
  destruct (decide (ruleID ∈ rules)) as [Hin|Hnin].
  - destruct (decide (rules ∖ {[ruleID]} = ∅)); [done|].
    rewrite decide_False; [done|]. set_solver.
  - by rewrite decide_False.
Qed.

Lemma cleanupFQDNSelectorItem_registry fs f :
  selectorItemToRuleIDs (cleanupFQDNSelectorItem fs f) =
    delete fs (selectorItemToRuleIDs f).
Proof.
  unfold cleanupFQDNSelectorItem.
  cbn [selectorItemToRuleIDs set_selectorItemToRuleIDs set_selectorItemToFQDN].
  by destruct (cleanupLoop_spec fs
                 (elements (default ∅ (selectorItemToFQDN f !! fs))) f)
    as (_ & _ & _ & ->).
Qed.

Lemma deleteFQDNSelector1_registry ruleID f e s :
  selectorItemToRuleIDs (deleteFQDNSelector1 ruleID f e) !! s =
    if decide (s = fqdnToSelectorItem e)
    then releaseRule ruleID (selectorItemToRuleIDs f !! s)
    else selectorItemToRuleIDs f !! s.
Proof.
  unfold deleteFQDNSelector1, releaseRule.
  destruct (decide (s = fqdnToSelectorItem e)) as [->|Hne].
  - destruct (selectorItemToRuleIDs f !! fqdnToSelectorItem e)
      as [rules|] eqn:Hs; [|done].
    destruct (decide (ruleID ∈ rules)); [|done].
    destruct (decide (0 < size (rules ∖ {[ruleID]}))%nat) as [Hpos|Hz].
    + cbn [selectorItemToRuleIDs set_selectorItemToRuleIDs].
      rewrite lookup_insert_eq. rewrite decide_False; [done|].
      intros Hemp. rewrite Hemp, size_empty in Hpos. lia.
    + rewrite cleanupFQDNSelectorItem_registry, lookup_delete_eq.
      rewrite decide_True; [done|].
      destruct (decide (size (rules ∖ {[ruleID]}) = 0%nat)) as [Hz'|]; [|lia].
      by apply size_empty_inv, leibniz_equiv in Hz'.
  - destruct (selectorItemToRuleIDs f !! fqdnToSelectorItem e)
      as [rules|] eqn:Hs; [|done].
    destruct (decide (ruleID ∈ rules)); [|done].
    destruct (decide (0 < size (rules ∖ {[ruleID]}))%nat).
    + cbn [selectorItemToRuleIDs set_selectorItemToRuleIDs].
      by rewrite lookup_insert_ne.
    + rewrite cleanupFQDNSelectorItem_registry. by rewrite lookup_delete_ne.
Qed.

Lemma deleteFQDNSelector_lookup (ruleID : string) (fqdns : list string)
    (f : fqdnController) (s : fqdnSelectorItem) :
  selectorItemToRuleIDs (deleteFQDNSelector ruleID fqdns f) !! s =
    if decide (s ∈ fqdnToSelectorItem <$> fqdns)
    then releaseRule ruleID (selectorItemToRuleIDs f !! s)
    else selectorItemToRuleIDs f !! s.
Proof.
  unfold deleteFQDNSelector. revert f.
  induction fqdns as [|e fqdns IH]; intros f; cbn [foldl fmap list_fmap].
  - by rewrite decide_False by apply not_elem_of_nil.
  - rewrite IH, deleteFQDNSelector1_registry.
    destruct (decide (s = fqdnToSelectorItem e)) as [->|Hne].
    + rewrite (decide_True (P := _ ∈ _ :: _)) by (apply elem_of_cons; by left).
      case_decide; [|done]. apply releaseRule_idemp.
    + destruct (decide (s ∈ fqdnToSelectorItem <$> fqdns)) as [Hin|Hnin].
      * by rewrite decide_True by (apply elem_of_cons; by right).
      * rewrite decide_False; [done|]. by intros [?|?]%elem_of_cons.
Qed.

(** X6.  The registry after [deleteFQDNSelector]: the rule is released from
    the selector item of every expression of the list, an entry whose
    rule set becomes empty is removed, and no other selector item
    changes.  A selector item that is not registered, or does not hold
    the rule, is left as it is. *)
Theorem deleteFQDNSelector_registry (ruleID : string) (fqdns : list string)
    (f : fqdnController) (s : fqdnSelectorItem) :
  selectorItemToRuleIDs (deleteFQDNSelector ruleID fqdns f) !! s =
    if decide (s ∈ fqdnToSelectorItem <$> fqdns)
    then releaseRule ruleID (selectorItemToRuleIDs f !! s)
    else selectorItemToRuleIDs f !! s.
Proof. apply deleteFQDNSelector_lookup. Qed.

(** X7.  Releasing a rule that no selector item of the list holds changes
    nothing at all. *)
Theorem deleteFQDNSelector_not_held (ruleID : string) (fqdns : list string)
    (f : fqdnController) :
  (∀ e rules, e ∈ fqdns →
     selectorItemToRuleIDs f !! fqdnToSelectorItem e = Some rules →
     ruleID ∉ rules) →
  deleteFQDNSelector ruleID fqdns f = f.
Proof.
  unfold deleteFQDNSelector.
  induction fqdns as [|e fqdns IH]; intros Hnot; cbn [foldl]; [done|].
  assert (deleteFQDNSelector1 ruleID f e = f) as ->.
  { unfold deleteFQDNSelector1.
    destruct (selectorItemToRuleIDs f !! fqdnToSelectorItem e)
      as [rules|] eqn:Hs; [|done].
    rewrite decide_False; [done|].
    apply (Hnot e); [apply elem_of_cons; by left|done]. }
  apply IH. intros e' rules He'. apply Hnot, elem_of_cons. by right.
Qed.

End RegistryDelete.

Section NonEmpty.
Context {golib : GoLib}.

Lemma nonEmptyInv_ext f f' :
  selectorItemToRuleIDs f' = selectorItemToRuleIDs f →
  fqdnToSelectorItems f' = fqdnToSelectorItems f →
  selectorItemToFQDN f' = selectorItemToFQDN f →
  dnsEntryCache f' = dnsEntryCache f →
  nonEmptyInv f → nonEmptyInv f'.
Proof. unfold nonEmptyInv. by intros -> -> -> ->. Qed.

Lemma setFQDNMatchSelector_nonEmptyInv fqdn s f :
  nonEmptyInv f → nonEmptyInv (setFQDNMatchSelector fqdn s f).
Proof.
  intros (H1 & H2 & H3 & H4). unfold nonEmptyInv.
  rewrite setFQDNMatchSelector_selectorItemToRuleIDs,
    setFQDNMatchSelector_dnsEntryCache,
    setFQDNMatchSelector_fqdnToSelectorItems,
    setFQDNMatchSelector_selectorItemToFQDN.
  split; [done|]. split; [|split; [|done]].
  - intros x ss. rewrite lookup_insert. case_decide; [|by apply H2].
    intros [= <-]. set_solver.
  - intros y ns. rewrite lookup_insert. case_decide; [|by apply H3].
    intros [= <-]. set_solver.
Qed.

Lemma matchCachedNames_nonEmptyInv {A} (s : fqdnSelectorItem)
    (l : list (string * A)) (f : fqdnController) :
  nonEmptyInv f →
  nonEmptyInv
    (foldl (λ f kv, if matches s kv.1 then setFQDNMatchSelector kv.1 s f else f)
       f l).
Proof.
  revert f. induction l as [|[k v] l IH]; intros f Hinv; cbn [foldl fst];
    [done|].
  apply IH. destruct (matches s k); [|done].
  by apply setFQDNMatchSelector_nonEmptyInv.
Qed.

Lemma matchNewFQDN_nonEmptyInv (fqdn : string)
    (l : list (fqdnSelectorItem * gset string)) (f : fqdnController)
    (add : bool) :
  nonEmptyInv f → nonEmptyInv (foldl (matchNewFQDN fqdn) (f, add) l).1.
Proof.
  revert f add. induction l as [|[s v] l IH]; intros f add Hinv; cbn [foldl];
    [done|].
  change (matchNewFQDN fqdn (f, add) (s, v))
    with (if matches s fqdn then (setFQDNMatchSelector fqdn s f, true)
          else (f, add)).
  destruct (matches s fqdn); apply IH; [|done].
  by apply setFQDNMatchSelector_nonEmptyInv.
Qed.

Lemma addFQDNSelector1_nonEmptyInv ruleID f e :
  nonEmptyInv f → nonEmptyInv (addFQDNSelector1 ruleID f e).
Proof.
  intros Hinv. unfold addFQDNSelector1.
  set (s := fqdnToSelectorItem e).
  assert (∀ v, v ≠ ∅ →
            nonEmptyInv (set_selectorItemToRuleIDs
                           (<[s := v]> (selectorItemToRuleIDs f)) f)) as Hins.
  { intros v Hv. destruct Hinv as (H1 & H2 & H3 & H4).
    split; [|done]. intros y rules.
    cbn [selectorItemToRuleIDs set_selectorItemToRuleIDs].
    rewrite lookup_insert. case_decide; [|by apply H1]. by intros [= <-]. }
  destruct (selectorItemToRuleIDs f !! s) as [rules|] eqn:Hs.
  - apply Hins. set_solver.
  - cbv zeta. destruct (decide (matchRegex s ≠ "")).
    + apply matchCachedNames_nonEmptyInv, Hins. set_solver.
    + eapply nonEmptyInv_ext;
        [..|apply (setFQDNMatchSelector_nonEmptyInv (matchName s) s);
            apply (Hins {[ruleID]}); set_solver]; done.
Qed.

Lemma cleanupFQDN_nonEmptyInv fs f x0 :
  nonEmptyInv f → nonEmptyInv (cleanupFQDN fs f x0).
Proof.
  intros (H1 & H2 & H3 & H4). rewrite cleanupFQDN_unfold.
  destruct (fqdnToSelectorItems f !! x0) as [ss|]; [|done].
  destruct (decide (fs ∈ ss)); [|done].
  destruct (decide (ss ∖ {[fs]} = ∅)).
  - split; [done|]. split; [|split; [done|]].
    + intros x ss'.
      cbn [fqdnToSelectorItems set_dnsEntryCache set_fqdnToSelectorItems].
      intros Hx%lookup_delete_Some. by apply (H2 x), Hx.
    + intros x meta.
      cbn [dnsEntryCache set_dnsEntryCache set_fqdnToSelectorItems].
      intros Hx%lookup_delete_Some. by apply (H4 x), Hx.
  - split; [done|]. split; [|done]. intros x ss'.
    cbn [fqdnToSelectorItems set_fqdnToSelectorItems].
    rewrite lookup_insert. case_decide; [|by apply H2]. by intros [= <-].
Qed.

Lemma cleanupFQDNSelectorItem_nonEmptyInv fs f :
  nonEmptyInv f → nonEmptyInv (cleanupFQDNSelectorItem fs f).
Proof.
  intros Hinv. unfold cleanupFQDNSelectorItem.
  set (l := elements _). clearbody l.
  assert (nonEmptyInv (foldl (cleanupFQDN fs) f l)) as (H1 & H2 & H3 & H4).
  { revert f Hinv. induction l as [|x l IH]; intros f Hinv; [done|].
    cbn [foldl]. by apply IH, cleanupFQDN_nonEmptyInv. }
  split; [|split; [done|split; [|done]]].
  - intros y rules.
    cbn [selectorItemToRuleIDs set_selectorItemToRuleIDs set_selectorItemToFQDN].
    intros Hy%lookup_delete_Some. by apply (H1 y), Hy.
  - intros y ns.
    cbn [selectorItemToFQDN set_selectorItemToRuleIDs set_selectorItemToFQDN].
    intros Hy%lookup_delete_Some. by apply (H3 y), Hy.
Qed.

Lemma deleteFQDNSelector1_nonEmptyInv ruleID f e :
  nonEmptyInv f → nonEmptyInv (deleteFQDNSelector1 ruleID f e).
Proof.
  intros Hinv. unfold deleteFQDNSelector1.
  destruct (selectorItemToRuleIDs f !! fqdnToSelectorItem e) as [rules|];
    [|done].
  destruct (decide (ruleID ∈ rules)); [|done].
  destruct (decide (0 < size (rules ∖ {[ruleID]}))%nat) as [Hpos|].
  - destruct Hinv as (H1 & H2 & H3 & H4). split; [|done]. intros y rs.
    cbn [selectorItemToRuleIDs set_selectorItemToRuleIDs].
    rewrite lookup_insert. case_decide; [|by apply H1]. intros [= <-] Hemp.
    rewrite Hemp, size_empty in Hpos. lia.
  - by apply cleanupFQDNSelectorItem_nonEmptyInv.
Qed.

Lemma onDNSResponse_nonEmptyInv fqdn new waitCh f log :
  nonEmptyInv f → nonEmptyInv (onDNSResponse fqdn new waitCh (f, log)).1.
Proof.
  intros Hinv.
  destruct (decide (new = ∅)) as [->|Hne].
  { unfold onDNSResponse. rewrite decide_True by apply map_size_empty.
    by destruct waitCh. }
  assert (∀ f1 upd, nonEmptyInv f1 →
            nonEmptyInv (syncDirtyRules fqdn waitCh upd (f1, log)).1) as Hsync.
  { intros f1 upd Hf1.
    destruct (syncDirtyRules_index fqdn waitCh upd f1 log) as (Hc & Hf & Hs & Hr).
    by eapply nonEmptyInv_ext. }
  destruct (dnsEntryCache f !! fqdn) as [cached|] eqn:Hc.
  - destruct (onDNSResponse_cached fqdn new waitCh f log cached Hc Hne)
      as (f1 & -> & Hcache & Hf2s & Hs2f & Hs2r & _).
    apply Hsync. destruct Hinv as (H1 & H2 & H3 & H4).
    unfold nonEmptyInv. rewrite Hcache, Hf2s, Hs2f, Hs2r.
    split; [done|]. split; [done|]. split; [done|].
    intros x meta. rewrite lookup_insert. case_decide; [|by apply H4].
    intros [= <-] Hemp. cbn [responseIPs] in Hemp.
    pose proof (mergeResponse_nonempty (responseIPs cached) new
                  (clock f 0%nat) Hne) as Hsz.
    rewrite Hemp, map_size_empty in Hsz. lia.
  - destruct (onDNSResponse_new fqdn new waitCh f log Hc Hne)
      as (f1 & -> & Hcache & Hf2s & Hs2f & Hs2r).
    apply Hsync.
    pose proof (matchNewFQDN_nonEmptyInv fqdn
                  (map_to_list (selectorItemToRuleIDs f))
                  (set_clock (λ n, clock f (S n)) f) false Hinv)
      as (H1 & H2 & H3 & H4).
    unfold nonEmptyInv. rewrite Hcache, Hf2s, Hs2f, Hs2r.
    split; [done|]. split; [done|]. split; [done|].
    destruct (foldl _ _ _).2; [|done].
    intros x meta. rewrite lookup_insert. case_decide; [|by apply H4].
    by intros [= <-].
Qed.

Lemma reachable_nonEmptyInv (id : Z) (st : fqdnController * chanLog) :
  reachable id st → nonEmptyInv st.1.
Proof.
  induction 1 as [f Hnew|st op _ IH].
  - destruct Hnew as (client & over & host & port & v4 & v6 & gw & clk & ttl
                      & Hnew).
    unfold newFQDNController in Hnew.
    destruct (ofInvoke client _) as [c [e|]]; [done|]. injection Hnew as <-.
    cbn [fst]. repeat split; intros ? ?; cbn; by rewrite ?lookup_empty.
  - destruct op as [ruleID fqdns|ruleID fqdns|fqdn new waitCh];
      cbn [runIndexOp fst].
    + unfold addFQDNSelector. generalize st.1 IH. clear.
      induction fqdns as [|e fqdns IHl]; intros f Hinv; [done|].
      cbn [foldl]. by apply IHl, addFQDNSelector1_nonEmptyInv.
    + unfold deleteFQDNSelector. generalize st.1 IH. clear.
      induction fqdns as [|e fqdns IHl]; intros f Hinv; [done|].
      cbn [foldl]. by apply IHl, deleteFQDNSelector1_nonEmptyInv.
    + destruct st as [f log]. by apply onDNSResponse_nonEmptyInv.
Qed.

(** X8.  In every reachable state no map of the index or of the cache holds
    an empty set: every registered selector item has a rule, every
    recorded name a selector item and the reverse, and every cached name
    at least one address. *)
Theorem reachable_no_empty_set (id : Z) (st : fqdnController * chanLog) :
  reachable id st →
  (∀ s rules, selectorItemToRuleIDs st.1 !! s = Some rules →
              (0 < size rules)%nat) ∧
  (∀ x selectors, fqdnToSelectorItems st.1 !! x = Some selectors →
                  (0 < size selectors)%nat) ∧
  (∀ s names, selectorItemToFQDN st.1 !! s = Some names →
              (0 < size names)%nat) ∧
  (∀ x meta, dnsEntryCache st.1 !! x = Some meta →
             (0 < size (responseIPs meta))%nat).
Proof.
  intros (H1 & H2 & H3 & H4)%reachable_nonEmptyInv.
  repeat split; intros k v Hk.
  - destruct (decide (size v = 0%nat)) as [Hz|]; [|lia].
    apply size_empty_inv, leibniz_equiv in Hz. by eapply H1 in Hk.
  - destruct (decide (size v = 0%nat)) as [Hz|]; [|lia].
    apply size_empty_inv, leibniz_equiv in Hz. by eapply H2 in Hk.
  - destruct (decide (size v = 0%nat)) as [Hz|]; [|lia].
    apply size_empty_inv, leibniz_equiv in Hz. by eapply H3 in Hk.
  - destruct (decide (size (responseIPs v) = 0%nat)) as [Hz|]; [|lia].
    apply map_size_empty_inv in Hz. by eapply H4 in Hk.
Qed.

(** X9.  Adding a rule and deleting it again restores the registry of a
    reachable state, when no selector item held the rule before. *)
Theorem add_delete_registry (id : Z) (st : fqdnController * chanLog)
    (ruleID : string) (fqdns : list string) :
  reachable id st →
  (∀ s rules, selectorItemToRuleIDs st.1 !! s = Some rules → ruleID ∉ rules) →
  selectorItemToRuleIDs
    (deleteFQDNSelector ruleID fqdns (addFQDNSelector ruleID fqdns st.1)) =
  selectorItemToRuleIDs st.1.
Proof.
  intros (Hne & _)%reachable_nonEmptyInv Hfresh. apply map_eq. intros s.
  rewrite deleteFQDNSelector_lookup, addFQDNSelector_lookup.
  destruct (decide (s ∈ fqdnToSelectorItem <$> fqdns)); [|done].
  unfold releaseRule. rewrite decide_True by set_solver.
  destruct (selectorItemToRuleIDs st.1 !! s) as [rules|] eqn:Hs;
    cbn [default from_option]; unfold Datatypes.id.
  - pose proof (Hfresh s rules Hs) as Hnin. pose proof (Hne s rules Hs).
    assert ((rules ∪ {[ruleID]}) ∖ {[ruleID]} = rules) as -> by set_solver.
    by rewrite decide_False.
  - rewrite decide_True; [done|]. set_solver.
Qed.
End NonEmpty.

Section Eviction.
Context {golib : GoLib}.

Lemma releaseRule_is_Some ruleID o : is_Some (releaseRule ruleID o) → is_Some o.
Proof. destruct o; [by eauto|]. by intros [? [=]]. Qed.

Lemma deleteFQDNSelector_registered ruleID fqdns f s :
  registered (deleteFQDNSelector ruleID fqdns f) s → registered f s.
Proof.
  unfold registered. rewrite deleteFQDNSelector_lookup.
  case_decide; [apply releaseRule_is_Some|done].
Qed.

Lemma cleanupFQDNSelectorItem_cache_sub fs f :
  dnsEntryCache (cleanupFQDNSelectorItem fs f) ⊆ dnsEntryCache f.
Proof.
  unfold cleanupFQDNSelectorItem.
  cbn [dnsEntryCache set_selectorItemToRuleIDs set_selectorItemToFQDN].
  generalize (elements (default ∅ (selectorItemToFQDN f !! fs))).
  intros l. revert f. induction l as [|x0 l IH]; intros f; cbn [foldl]; [done|].
  etrans; [apply IH|]. rewrite cleanupFQDN_unfold.
  destruct (fqdnToSelectorItems f !! x0); [|done].
  repeat case_decide; try done.
  cbn [dnsEntryCache set_dnsEntryCache set_fqdnToSelectorItems].
  apply delete_subseteq.
Qed.

Lemma deleteFQDNSelector1_cache_sub ruleID f e :
  dnsEntryCache (deleteFQDNSelector1 ruleID f e) ⊆ dnsEntryCache f.
Proof.
  unfold deleteFQDNSelector1.
  destruct (selectorItemToRuleIDs f !! fqdnToSelectorItem e); [|done].
  repeat case_decide; try done. apply cleanupFQDNSelectorItem_cache_sub.
Qed.

Lemma deleteFQDNSelector_cache_sub ruleID fqdns f :
  dnsEntryCache (deleteFQDNSelector ruleID fqdns f) ⊆ dnsEntryCache f.
Proof.
  unfold deleteFQDNSelector. revert f.
  induction fqdns as [|e fqdns IH]; intros f; cbn [foldl]; [done|].
  etrans; [apply IH|apply deleteFQDNSelector1_cache_sub].
Qed.

Lemma deleteFQDNSelector1_keeps ruleID f e x s :
  indexInv f → cachedName f x →
  registered (deleteFQDNSelector1 ruleID f e) s → matches s x = true →
  cachedName (deleteFQDNSelector1 ruleID f e) x.
Proof.
  intros [(Hl & Hr & _) Hcomp] Hx Hreg Hm.
  assert (registered f s) as Hs.
  { apply (deleteFQDNSelector_registered ruleID [e]). exact Hreg. }
  assert (linked f x s) as Hxs by (by apply Hr, Hcomp).
  revert Hreg. unfold deleteFQDNSelector1.
  destruct (selectorItemToRuleIDs f !! fqdnToSelectorItem e) as [rules|] eqn:He;
    [|done].
  destruct (decide (ruleID ∈ rules)); [|done].
  destruct (decide (0 < size (rules ∖ {[ruleID]}))%nat); [done|].
  intros Hreg.
  assert (s ≠ fqdnToSelectorItem e) as Hne.
  { intros ->. revert Hreg. unfold registered.
    rewrite cleanupFQDNSelectorItem_registry, lookup_delete_eq.
    by intros [? [=]]. }
  unfold cleanupFQDNSelectorItem.
  destruct (cleanupLoop_spec (fqdnToSelectorItem e)
              (elements (default ∅ (selectorItemToFQDN f !! fqdnToSelectorItem e)))
              f) as (_ & Hc & _).
  apply Hc. split; [done|]. intros [_ (ss & Hss & Hin & Hemp)].
  destruct Hxs as (ss' & Hss' & Hs'). simplify_eq. set_solver.
Qed.

(** The cached names after [deleteFQDNSelector]: those that a selector
    item still registered matches. *)
Lemma deleteFQDNSelector_cachedName ruleID fqdns f x :
  indexInv f →
  cachedName (deleteFQDNSelector ruleID fqdns f) x ↔
  cachedName f x ∧
  ∃ s, registered (deleteFQDNSelector ruleID fqdns f) s ∧ matches s x = true.
Proof.
  intros Hinv. split.
  - intros Hx. split.
    + destruct Hx as [meta Hmeta]. exists meta.
      by eapply lookup_weaken; [|apply deleteFQDNSelector_cache_sub].
    + destruct (deleteFQDNSelector_indexInv ruleID fqdns f Hinv)
        as [(Hl & _ & Hcn & _) _].
      destruct (Hcn x Hx) as [s Hs]. exists s.
      destruct (Hl x s Hs) as (? & ? & _). done.
  - intros [Hx (s & Hreg & Hm)]. revert Hreg.
    unfold deleteFQDNSelector. revert f Hinv Hx.
    induction fqdns as [|e fqdns IH]; intros f Hinv Hx Hreg; cbn [foldl] in *;
      [done|].
    apply IH; [by apply deleteFQDNSelector1_indexInv| |done].
    apply (deleteFQDNSelector1_keeps ruleID f e x s); try done.
    by apply (deleteFQDNSelector_registered ruleID fqdns).
Qed.

(** X10.  Eviction on deletion, in a reachable state.  [deleteFQDNSelector]
    only removes entries of the cache, it does not alter one; and a
    cached name stays cached exactly when a selector item that is still
    registered after the deletion matches it. *)
Theorem deleteFQDNSelector_evicts_unselected (id : Z)
    (st : fqdnController * chanLog) (ruleID : string) (fqdns : list string) :
  reachable id st →
  let f' := deleteFQDNSelector ruleID fqdns st.1 in
  dnsEntryCache f' ⊆ dnsEntryCache st.1 ∧
  ∀ x, cachedName f' x ↔
       cachedName st.1 x ∧ ∃ s, registered f' s ∧ matches s x = true.
Proof.
  intros Hinv%reachable_indexInv f'.
  split; [apply deleteFQDNSelector_cache_sub|].
  intros x. by apply deleteFQDNSelector_cachedName.
Qed.
End Eviction.

(** ** The earliest expiration and the query queue *)


Lemma syncDirtyRules_dnsQueryQueue (fqdn : string) (waitCh : option chanId)
    (addressUpdate : bool) (f : fqdnController) (log : chanLog) :
  dnsQueryQueue (syncDirtyRules fqdn waitCh addressUpdate (f, log)).1 =
    dnsQueryQueue f.
Proof.
  unfold syncDirtyRules.
  destruct waitCh, addressUpdate; try done; by case_decide.
Qed.

Section Requery.
Context {golib : GoLib}.

Lemma matchNewFQDN_fields (fqdn : string)
    (l : list (fqdnSelectorItem * gset string)) (f : fqdnController)
    (add : bool) :
  let r := foldl (matchNewFQDN fqdn) (f, add) l in
  dnsEntryCache r.1 = dnsEntryCache f ∧ dnsQueryQueue r.1 = dnsQueryQueue f ∧
  selectorItemToRuleIDs r.1 = selectorItemToRuleIDs f.
Proof.
  revert f add. induction l as [|[s v] l IH]; intros f add; cbn [foldl];
    [done|].
  change (matchNewFQDN fqdn (f, add) (s, v))
    with (if matches s fqdn then (setFQDNMatchSelector fqdn s f, true)
          else (f, add)).
  destruct (matches s fqdn); [|apply IH].
  destruct (IH (setFQDNMatchSelector fqdn s f) true) as (-> & -> & ->).
  by rewrite setFQDNMatchSelector_dnsEntryCache,
    setFQDNMatchSelector_dnsQueryQueue,
    setFQDNMatchSelector_selectorItemToRuleIDs.
Qed.

(** X11.  The next query of a name.  After a response with at least one
    address, a name that is in the cache has had exactly one delayed
    query added to the queue, due at the earliest expiration time among
    the addresses now cached for it (the delay is that time minus the
    reading of the clock, saturated); a name that is not in the cache has
    had none. *)
Theorem onDNSResponse_requery_at_earliest (fqdn : string)
    (new : gmap string ipWithExpiration) (waitCh : option chanId)
    (f : fqdnController) (log : chanLog) :
  new ≠ ∅ →
  let f' := (onDNSResponse fqdn new waitCh (f, log)).1 in
  match dnsEntryCache f' !! fqdn with
  | Some merged =>
      ∃ t, dnsQueryQueue f' =
             dnsQueryQueue f ++ [QAddAfter fqdn (Time_Sub t (clock f 0%nat))] ∧
           (∃ k v, responseIPs merged !! k = Some v ∧ expirationTime v = t) ∧
           ∀ k v, responseIPs merged !! k = Some v → t ≤ expirationTime v
  | None => dnsQueryQueue f' = dnsQueryQueue f
  end.
Proof.
  intros Hne f'. subst f'. unfold onDNSResponse.
  rewrite decide_False by (by intros ?%map_size_empty_inv).
  cbn [clock_Now]. cbn [set_clock dnsEntryCache selectorItemToRuleIDs].
  destruct (dnsEntryCache f !! fqdn) as [cached|] eqn:Hc.
  - pose proof (mergeResponse_nonempty (responseIPs cached) new
                  (clock f 0%nat) Hne) as Hsz.
    pose proof (mergeResponse_earliest (responseIPs cached) new
                  (clock f 0%nat)) as He.
    cbv zeta in He.
    destruct (mergeResponse _ _ _) as [[m t] u]. cbn [fst snd] in *.
    rewrite decide_True by done.
    destruct t as [t0|]; cbn [earliest] in He.
    + rewrite syncDirtyRules_dnsEntryCache, syncDirtyRules_dnsQueryQueue.
      cbn [dnsEntryCache dnsQueryQueue set_dnsQueryQueue set_dnsEntryCache].
      rewrite lookup_insert_eq. exists t0. done.
    + subst m. rewrite map_size_empty in Hsz. lia.
  - match goal with
    | |- context [foldl (matchNewFQDN fqdn) (?f0, false) ?l] =>
        pose proof (matchNewFQDN_fields fqdn l f0 false) as (Hcache & Hq & _);
        destruct (foldl (matchNewFQDN fqdn) (f0, false) l) as [f2 add]
    end.
    cbn [fst snd dnsEntryCache dnsQueryQueue set_clock] in Hcache, Hq.
    destruct add.
    + pose proof (foldl_updateIPWithExpiration_map new) as Hmap.
      pose proof (foldl_updateIPWithExpiration_earliest (map_to_list new)
                    (∅, None) (NoDup_fst_map_to_list _)) as He.
      cbv zeta in He. cbn [fst snd] in He.
      specialize (He (λ k _, lookup_empty k) eq_refl).
      destruct (foldl _ (∅, None) (map_to_list new)) as [m t].
      cbn [fst snd] in *. subst m.
      rewrite decide_True.
      2:{ destruct (decide (size new = 0%nat)) as [Hz|]; [|lia].
          by apply map_size_empty_inv in Hz. }
      destruct t as [t0|]; cbn [earliest] in He; [|done].
      rewrite syncDirtyRules_dnsEntryCache, syncDirtyRules_dnsQueryQueue.
      cbn [dnsEntryCache dnsQueryQueue set_dnsQueryQueue set_dnsEntryCache].
      rewrite lookup_insert_eq, Hq. exists t0. done.
    + rewrite decide_False by (rewrite map_size_empty; lia).
      rewrite syncDirtyRules_dnsEntryCache, syncDirtyRules_dnsQueryQueue.
      by rewrite Hcache, Hc, Hq.
Qed.
End Requery.

(** ** What the index operations leave alone *)

Section Frame.
Context {golib : GoLib}.

Lemma setFQDNMatchSelector_frame fqdn s f :
  datapathFields (setFQDNMatchSelector fqdn s f) = datapathFields f ∧
  tracker (setFQDNMatchSelector fqdn s f) = tracker f ∧
  dirtyRuleHandler (setFQDNMatchSelector fqdn s f) = dirtyRuleHandler f.
Proof.
  unfold setFQDNMatchSelector.
  destruct (fqdnToSelectorItems f !! fqdn);
    cbn [selectorItemToFQDN set_fqdnToSelectorItems];
    by destruct (selectorItemToFQDN f !! s).
Qed.

Lemma matchCachedNames_frame {A} (s : fqdnSelectorItem)
    (l : list (string * A)) (f : fqdnController) :
  let f' :=
    foldl (λ f kv, if matches s kv.1 then setFQDNMatchSelector kv.1 s f else f)
          f l in
  datapathFields f' = datapathFields f ∧ tracker f' = tracker f ∧
  dirtyRuleHandler f' = dirtyRuleHandler f.
Proof.
  revert f. induction l as [|[k v] l IH]; intros f; cbn [foldl fst]; [done|].
  destruct (IH (if matches s k then setFQDNMatchSelector k s f else f))
    as (-> & -> & ->).
  destruct (matches s k); [|done]. apply setFQDNMatchSelector_frame.
Qed.

Lemma matchNewFQDN_frame (fqdn : string)
    (l : list (fqdnSelectorItem * gset string)) (f : fqdnController)
    (add : bool) :
  let r := foldl (matchNewFQDN fqdn) (f, add) l in
  datapathFields r.1 = datapathFields f ∧ tracker r.1 = tracker f ∧
  dirtyRuleHandler r.1 = dirtyRuleHandler f.
Proof.
  revert f add. induction l as [|[s v] l IH]; intros f add; cbn [foldl];
    [done|].
  change (matchNewFQDN fqdn (f, add) (s, v))
    with (if matches s fqdn then (setFQDNMatchSelector fqdn s f, true)
          else (f, add)).
  destruct (matches s fqdn); [|apply IH].
  destruct (IH (setFQDNMatchSelector fqdn s f) true) as (-> & -> & ->).
  apply setFQDNMatchSelector_frame.
Qed.

Lemma addFQDNSelector1_frame ruleID f e :
  datapathFields (addFQDNSelector1 ruleID f e) = datapathFields f ∧
  tracker (addFQDNSelector1 ruleID f e) = tracker f ∧
  dirtyRuleHandler (addFQDNSelector1 ruleID f e) = dirtyRuleHandler f.
Proof.
  unfold addFQDNSelector1.
  destruct (selectorItemToRuleIDs f !! fqdnToSelectorItem e); [done|].
  cbv zeta. case_decide.
  - match goal with
    | |- context [foldl ?g ?f0 ?l] =>
        destruct (matchCachedNames_frame (fqdnToSelectorItem e) l f0)
          as (-> & -> & ->)
    end.
    done.
  - match goal with
    | |- context [setFQDNMatchSelector ?x ?s ?f0] =>
        destruct (setFQDNMatchSelector_frame x s f0) as (Hd & Ht & Hh)
    end.
    unfold datapathFields in *.
    cbn [ofClient fqdnRuleToSelectedPods dnsServerAddr minTTL ipv4Enabled
         ipv6Enabled gwPort tracker dirtyRuleHandler set_dnsQueryQueue
         set_selectorItemToRuleIDs] in *.
    done.
Qed.

Lemma cleanupFQDNSelectorItem_frame fs f :
  datapathFields (cleanupFQDNSelectorItem fs f) = datapathFields f ∧
  tracker (cleanupFQDNSelectorItem fs f) = tracker f ∧
  dirtyRuleHandler (cleanupFQDNSelectorItem fs f) = dirtyRuleHandler f.
Proof.
  unfold cleanupFQDNSelectorItem.
  generalize (elements (default ∅ (selectorItemToFQDN f !! fs))). intros l.
  assert (datapathFields (foldl (cleanupFQDN fs) f l) = datapathFields f ∧
          tracker (foldl (cleanupFQDN fs) f l) = tracker f ∧
          dirtyRuleHandler (foldl (cleanupFQDN fs) f l) = dirtyRuleHandler f)
    as (Hd & Ht & Hh).
  { revert f. induction l as [|x0 l IH]; intros f; cbn [foldl]; [done|].
    destruct (IH (cleanupFQDN fs f x0)) as (-> & -> & ->).
    rewrite cleanupFQDN_unfold.
    destruct (fqdnToSelectorItems f !! x0); [|done].
    repeat case_decide; done. }
  by rewrite <- Hd, <- Ht, <- Hh.
Qed.

Lemma deleteFQDNSelector1_frame ruleID f e :
  datapathFields (deleteFQDNSelector1 ruleID f e) = datapathFields f ∧
  tracker (deleteFQDNSelector1 ruleID f e) = tracker f ∧
  dirtyRuleHandler (deleteFQDNSelector1 ruleID f e) = dirtyRuleHandler f.
Proof.
  unfold deleteFQDNSelector1.
  destruct (selectorItemToRuleIDs f !! fqdnToSelectorItem e); [|done].
  repeat case_decide; try done. apply cleanupFQDNSelectorItem_frame.
Qed.

Lemma syncDirtyRules_frame fqdn waitCh addressUpdate f log :
  datapathFields (syncDirtyRules fqdn waitCh addressUpdate (f, log)).1 =
    datapathFields f.
Proof.
  unfold syncDirtyRules.
  destruct waitCh, addressUpdate; try done; by case_decide.
Qed.

(** [onDNSResponse] for a response with an address: the merge, which
    leaves the datapath, the tracker and the handler alone, and then
    [syncDirtyRules]. *)
Lemma onDNSResponse_then_sync (fqdn : string)
    (new : gmap string ipWithExpiration) (waitCh : option chanId)
    (f : fqdnController) (log : chanLog) :
  new ≠ ∅ →
  ∃ addressUpdate f1,
    onDNSResponse fqdn new waitCh (f, log) =
      syncDirtyRules fqdn waitCh addressUpdate (f1, log) ∧
    datapathFields f1 = datapathFields f ∧ tracker f1 = tracker f ∧
    dirtyRuleHandler f1 = dirtyRuleHandler f.
Proof.
  intros Hne. unfold onDNSResponse.
  rewrite decide_False by (by intros ?%map_size_empty_inv).
  cbn [clock_Now]. cbn [set_clock dnsEntryCache selectorItemToRuleIDs].
  destruct (dnsEntryCache f !! fqdn) as [cached|].
  - destruct (mergeResponse _ _ _) as [[m t] u].
    case_decide; [destruct t|]; eexists _, _; (split; [reflexivity|]); done.
  - match goal with
    | |- context [foldl (matchNewFQDN fqdn) (?f0, false) ?l] =>
        pose proof (matchNewFQDN_frame fqdn l f0 false) as (Hd & Ht & Hh);
        change (datapathFields f0) with (datapathFields f) in Hd;
        change (tracker f0) with (tracker f) in Ht;
        change (dirtyRuleHandler f0) with (dirtyRuleHandler f) in Hh;
        destruct (foldl (matchNewFQDN fqdn) (f0, false) l) as [f2 add]
    end.
    cbn [fst] in Hd, Ht, Hh.
    destruct add.
    + destruct (foldl _ (∅, None) (map_to_list new)) as [m t].
      case_decide; [destruct t|]; eexists _, _; (split; [reflexivity|]);
        by rewrite <- Hd, <- Ht, <- Hh.
    + rewrite decide_False by (rewrite map_size_empty; lia).
      eexists _, _. split; [reflexivity|]. by rewrite <- Hd, <- Ht, <- Hh.
Qed.

Lemma onDNSResponse_frame fqdn new waitCh f log :
  datapathFields (onDNSResponse fqdn new waitCh (f, log)).1 = datapathFields f.
Proof.
  destruct (decide (new = ∅)) as [->|Hne].
  { unfold onDNSResponse. rewrite decide_True by apply map_size_empty.
    by destruct waitCh. }
  destruct (onDNSResponse_then_sync fqdn new waitCh f log Hne)
    as (u & f1 & -> & <- & _).
  apply syncDirtyRules_frame.
Qed.

(** X12.  The operations on the selector index and on the cache never call the
    datapath and never change the Pods of a rule or the configuration. *)
Theorem runIndexOp_datapathFields (st : fqdnController * chanLog)
    (op : indexOp) :
  datapathFields (runIndexOp st op).1 = datapathFields st.1.
Proof.
  destruct op as [ruleID fqdns|ruleID fqdns|fqdn new waitCh];
    cbn [runIndexOp fst].
  - unfold addFQDNSelector. generalize st.1.
    induction fqdns as [|e fqdns IH]; intros f; cbn [foldl]; [done|].
    rewrite IH. apply addFQDNSelector1_frame.
  - unfold deleteFQDNSelector. generalize st.1.
    induction fqdns as [|e fqdns IH]; intros f; cbn [foldl]; [done|].
    rewrite IH. apply deleteFQDNSelector1_frame.
  - destruct st as [f log]. apply onDNSResponse_frame.
Qed.

(** With a nil [waitCh], [onDNSResponse] sends on no channel and leaves
    the tracker as it is. *)
Lemma onDNSResponse_nil_waitCh fqdn new f log :
  (onDNSResponse fqdn new None (f, log)).2 = log ∧
  tracker (onDNSResponse fqdn new None (f, log)).1 = tracker f.
Proof.
  destruct (decide (new = ∅)) as [->|Hne].
  { unfold onDNSResponse. by rewrite decide_True by apply map_size_empty. }
  destruct (onDNSResponse_then_sync fqdn new None f log Hne)
    as (u & f1 & -> & _ & <- & _).
  unfold syncDirtyRules. by destruct u.
Qed.

Lemma onDNSResponse_waitCh fqdn new ch f log :
  let r := onDNSResponse fqdn new (Some ch) (f, log) in
  (r.2 = log ++ [(ch, None)] ∧ tracker r.1 = tracker f ∧
   dirtyRuleHandler r.1 = dirtyRuleHandler f) ∨
  (r.2 = log ∧
   ∃ dirty, dirty ≠ ∅ ∧ tracker r.1 = subscribe ch dirty (tracker f) ∧
            dirtyRuleHandler r.1 = dirtyRuleHandler f ++ elements dirty).
Proof.
  intros r. subst r.
  destruct (decide (new = ∅)) as [->|Hne].
  { unfold onDNSResponse. rewrite decide_True by apply map_size_empty.
    by left. }
  destruct (onDNSResponse_then_sync fqdn new (Some ch) f log Hne)
    as (u & f1 & -> & _ & <- & <-).
  unfold syncDirtyRules.
  match goal with
  | |- context [decide (0 < size ?d)%nat] =>
      destruct (decide (0 < size d)%nat) as [Hpos|]; [|by left];
      right; split; [done|]; exists d
  end.
  split; [|done]. intros Hemp. rewrite Hemp, size_empty in Hpos. lia.
Qed.

(** X13.  The barrier of a DNS response, for a [waitCh] that is not nil:
    [onDNSResponse] either sends nil on [waitCh] and leaves the tracker
    and the handler alone, or sends nothing, subscribes [waitCh] to a set
    of rules that is not empty and runs the handler on these rules.
    Never both, and never neither. *)
Theorem onDNSResponse_releases_or_subscribes (fqdn : string)
    (new : gmap string ipWithExpiration) (ch : chanId)
    (f : fqdnController) (log : chanLog) :
  let r := onDNSResponse fqdn new (Some ch) (f, log) in
  (r.2 = log ++ [(ch, None)] ∧ tracker r.1 = tracker f ∧
   dirtyRuleHandler r.1 = dirtyRuleHandler f) ∨
  (r.2 = log ∧
   ∃ dirty, dirty ≠ ∅ ∧ tracker r.1 = subscribe ch dirty (tracker f) ∧
            dirtyRuleHandler r.1 = dirtyRuleHandler f ++ elements dirty).
Proof. apply onDNSResponse_waitCh. Qed.

Lemma matchNewFQDN_none (fqdn : string)
    (l : list (fqdnSelectorItem * gset string)) (f : fqdnController) :
  (∀ kv, kv ∈ l → matches kv.1 fqdn = false) →
  foldl (matchNewFQDN fqdn) (f, false) l = (f, false).
Proof.
  induction l as [|[s v] l IH]; intros Hno; cbn [foldl]; [done|].
  change (matchNewFQDN fqdn (f, false) (s, v))
    with (if matches s fqdn then (setFQDNMatchSelector fqdn s f, true)
          else (f, false)).
  pose proof (Hno (s, v)) as Hs. cbn [fst] in Hs.
  rewrite Hs by (apply elem_of_cons; by left).
  apply IH. intros kv Hkv. apply Hno, elem_of_cons. by right.
Qed.

(** X14.  A response for a name that is not cached and that no registered
    selector item matches is dropped: in a reachable state
    [onDNSResponse] only reads the clock, and releases the packet at
    once when there is a [waitCh]. *)
Theorem onDNSResponse_unselected_name (id : Z) (fqdn : string)
    (new : gmap string ipWithExpiration) (waitCh : option chanId)
    (st : fqdnController * chanLog) :
  reachable id st →
  new ≠ ∅ →
  dnsEntryCache st.1 !! fqdn = None →
  (∀ s, registered st.1 s → matches s fqdn = false) →
  onDNSResponse fqdn new waitCh st =
    (set_clock (λ n, clock st.1 (S n)) st.1,
     match waitCh with
     | Some ch => st.2 ++ [(ch, None)]
     | None => st.2
     end).
Proof.
  intros [(Hl & _) _]%reachable_indexInv Hne Hc Hno.
  destruct st as [f log]. cbn [fst snd] in *.
  unfold onDNSResponse.
  rewrite decide_False by (by intros ?%map_size_empty_inv).
  cbn [clock_Now]. cbn [set_clock dnsEntryCache selectorItemToRuleIDs].
  rewrite Hc. rewrite matchNewFQDN_none.
  2:{ intros [s v] Hkv%elem_of_map_to_list. apply Hno. by exists v. }
  rewrite decide_False by (rewrite map_size_empty; lia).
  unfold syncDirtyRules. destruct waitCh as [ch|]; [|done].
  set (f0 := set_clock _ f).
  assert (rulesSelecting f0 fqdn = ∅) as ->.
  { apply set_eq. intros r. rewrite rulesSelecting_elem. split; [|set_solver].
    intros (ss & s & rules & Hss & Hs & Hrules & _). exfalso.
    destruct (Hl fqdn s) as (Hm & Hreg & _); [by exists ss|].
    rewrite Hno in Hm; done. }
  rewrite intersection_empty_r_L, decide_False; [done|].
  rewrite size_empty. lia.
Qed.
End Frame.

(** ** The packet-in worker *)

Section Worker.
Context {golib : GoLib}.

Lemma parseDNSResponse_fields (msg : dnsMsg) (f : fqdnController) :
  let r := parseDNSResponse msg f in
  datapathFields r.1 = datapathFields f ∧ tracker r.1 = tracker f ∧
  (Question msg = [] ↔ r.2 = inr "invalid DNS message") ∧
  (Question msg = [] → r.1 = f).
Proof.
  unfold parseDNSResponse. destruct (Question msg); cbn; [done|].
  repeat split; done.
Qed.

Lemma onDNSResponseMsg_waitCh (msg : dnsMsg) (ch : chanId)
    (f : fqdnController) (log : chanLog) :
  let r := onDNSResponseMsg msg (Some ch) (f, log) in
  (∃ v, r.2 = log ++ [(ch, v)] ∧ tracker r.1 = tracker f ∧
        (v = None ∨
         Question msg = [] ∧
         v = Some "failed to parse DNS response: invalid DNS message")) ∨
  (r.2 = log ∧
   ∃ dirty, dirty ≠ ∅ ∧ tracker r.1 = subscribe ch dirty (tracker f)).
Proof.
  intros r. subst r. unfold onDNSResponseMsg, parseDNSResponse.
  destruct (Question msg) as [|q qs].
  - left. eexists. split; [reflexivity|]. split; [done|]. by right.
  - cbn [clock_Now].
    match goal with
    | |- context [onDNSResponse ?n ?i (Some ch) (?f1, log)] =>
        destruct (onDNSResponse_waitCh n i ch f1 log)
          as [(-> & -> & _)|(-> & dirty & Hne & -> & _)]
    end.
    + left. exists None. eauto.
    + right. split; [done|]. by exists dirty.
Qed.

(** X15.  What the worker of [HandlePacketIn] does with a packet.  For a frame
    that is neither IPv4 nor IPv6, or whose protocol is neither UDP nor
    TCP, it does nothing at all, so that nothing is ever sent on [waitCh].
    For every other packet exactly one of two things happens: one value
    is sent on [waitCh] and the tracker is left alone (the value is nil,
    or the parse error of a message without question), or nothing is sent
    and [waitCh] is subscribed to a set of rules that is not empty. *)
Theorem packetInWorker_outcomes (pktIn : PacketIn) (ch : chanId)
    (st : fqdnController * chanLog) :
  let r := packetInWorker pktIn ch st in
  match GetEthernetPacket pktIn with
  | Some Eth_other | Some (Eth_IPv4 L4_other) | Some (Eth_IPv6 L4_other) =>
      r = st
  | _ =>
      (∃ v, r.2 = st.2 ++ [(ch, v)] ∧ tracker r.1 = tracker st.1 ∧
            (v = None ∨
             v = Some "failed to parse DNS response: invalid DNS message")) ∨
      (r.2 = st.2 ∧
       ∃ dirty, dirty ≠ ∅ ∧ tracker r.1 = subscribe ch dirty (tracker st.1))
  end.
Proof.
  intros r. subst r. destruct st as [f log]. unfold packetInWorker.
  assert (∀ msg,
            let r := onDNSResponseMsg msg (Some ch) (f, log) in
            (∃ v, r.2 = log ++ [(ch, v)] ∧ tracker r.1 = tracker f ∧
                  (v = None ∨
                   v = Some "failed to parse DNS response: invalid DNS message"))
            ∨ (r.2 = log ∧
               ∃ dirty, dirty ≠ ∅ ∧
                        tracker r.1 = subscribe ch dirty (tracker f)))
    as Hmsg.
  { intros msg. destruct (onDNSResponseMsg_waitCh msg ch f log)
      as [(v & ? & ? & Hv)|?]; [left|by right].
    exists v. split; [done|]. split; [done|]. naive_solver. }
  assert (∃ v, (sendNil ch (f, log)).2 = log ++ [(ch, v)] ∧
               tracker (sendNil ch (f, log)).1 = tracker f ∧
               (v = None ∨
                v = Some "failed to parse DNS response: invalid DNS message"))
    as Hnil by (exists None; eauto).
  assert (∀ l4, match l4 with
                | L4_other => handleL4 l4 ch (f, log) = (f, log)
                | _ =>
                    let r := handleL4 l4 ch (f, log) in
                    (∃ v, r.2 = log ++ [(ch, v)] ∧ tracker r.1 = tracker f ∧
                          (v = None ∨
                           v = Some "failed to parse DNS response: invalid DNS message"))
                    ∨ (r.2 = log ∧
                       ∃ dirty, dirty ≠ ∅ ∧
                                tracker r.1 = subscribe ch dirty (tracker f))
                end) as Hl4.
  { intros [[msg|]|[[d|]|]|]; cbn [handleL4 handleUDP handleTCP];
      try (by left); try apply Hmsg; [|done].
    case_decide; [destruct (unpackPartially d)|destruct (unpackTCP d)];
      try (by left); apply Hmsg. }
  destruct (GetEthernetPacket pktIn) as [[l4|l4|]|]; cbn [fst snd];
    [| | done | by left].
  - specialize (Hl4 l4). by destruct l4.
  - specialize (Hl4 l4). by destruct l4.
Qed.
End Worker.

(** ** Proactive queries *)

Section ProactiveProperties.
Context {golib : GoLib}.

Lemma lastByte_None (s : string) : lastByte s = None ↔ s = "".
Proof.
  split; [|by intros ->].
  induction s as [|c s IH]; [done|]. cbn [lastByte].
  destruct s; [done|]. intros Hs%IH. done.
Qed.

(** X16.  [makeDNSRequest] panics exactly when a DNS server is configured and
    the name is empty: the index expression on the last byte of the name
    is evaluated only on that path. *)
Theorem makeDNSRequest_panics_iff (fqdn : string)
    (lookup4 lookup6 : list IP + error) (exchange : string → Z → dnsMsg + error)
    (st : fqdnController * chanLog) :
  makeDNSRequest fqdn lookup4 lookup6 exchange st = None ↔
  dnsServerAddr st.1 ≠ "" ∧ fqdn = "".
Proof.
  unfold makeDNSRequest. case_decide as Haddr.
  - split; [done|]. by intros [? _].
  - destruct (lastByte fqdn) as [c|] eqn:Hlast.
    + split.
      * destruct (ipv4Enabled st.1); [destruct (exchange _ dns_TypeA)|]; done.
      * intros [_ ->]. done.
    + apply lastByte_None in Hlast. done.
Qed.

Lemma makeResponseIPs_fields (ips : list IP) (f : fqdnController) :
  datapathFields (makeResponseIPs ips f).1 = datapathFields f ∧
  tracker (makeResponseIPs ips f).1 = tracker f.
Proof.
  unfold makeResponseIPs.
  generalize (∅ : gmap string ipWithExpiration). revert f.
  induction ips as [|a ips IH]; intros f m; cbn [foldl]; [done|].
  cbn [clock_Now fst snd].
  match goal with
  | |- context [foldl ?g (?f1, ?m1) ips] =>
      destruct (IH f1 m1) as [Hd Ht]
  end.
  split; [etrans; [exact Hd|done]|etrans; [exact Ht|done]].
Qed.

Lemma onDNSResponseMsg_nil_waitCh (msg : dnsMsg) (st : fqdnController * chanLog) :
  let r := onDNSResponseMsg msg None st in
  r.2 = st.2 ∧ tracker r.1 = tracker st.1 ∧
  datapathFields r.1 = datapathFields st.1.
Proof.
  destruct st as [f log]. cbn [fst snd]. unfold onDNSResponseMsg.
  pose proof (parseDNSResponse_fields msg f) as (Hd & Ht & _).
  cbv zeta in Hd, Ht.
  destruct (parseDNSResponse msg f) as [f1 [[name ips]|e]]; cbn [fst snd] in *;
    [|done].
  destruct (onDNSResponse_nil_waitCh name ips f1 log) as [-> ->].
  by rewrite onDNSResponse_frame.
Qed.

Lemma lookupIP_family (fqdn : string) (prefix : string) (enabled : bool)
    (lookup : list IP + error) (st : fqdnController * chanLog)
    (errs : list error) :
  let r :=
    if enabled then
      match lookup with
      | inl ips =>
          let '(f, responseIPs) := makeResponseIPs ips st.1 in
          (onDNSResponse fqdn responseIPs None (f, st.2), errs)
      | inr e => (st, errs ++ [prefix +:+ e])
      end
    else (st, errs) in
  r.1.2 = st.2 ∧ tracker r.1.1 = tracker st.1 ∧
  datapathFields r.1.1 = datapathFields st.1 ∧
  r.2 = errs ++ requestError prefix enabled lookup.
Proof.
  unfold requestError. destruct enabled; [|by rewrite app_nil_r].
  destruct lookup as [ips|e]; [|done].
  pose proof (makeResponseIPs_fields ips st.1) as [Hd Ht].
  destruct (makeResponseIPs ips st.1) as [f m]. cbn [fst snd] in *.
  destruct (onDNSResponse_nil_waitCh fqdn m f st.2) as [-> ->].
  by rewrite onDNSResponse_frame, app_nil_r.
Qed.

Lemma exchange_family (prefix : string) (enabled : bool)
    (answer : dnsMsg + error) (st : fqdnController * chanLog)
    (errs : list error) :
  let r :=
    if enabled then
      match answer with
      | inl res => (onDNSResponseMsg res None st, errs)
      | inr e => (st, errs ++ [prefix +:+ e])
      end
    else (st, errs) in
  r.1.2 = st.2 ∧ tracker r.1.1 = tracker st.1 ∧
  datapathFields r.1.1 = datapathFields st.1 ∧
  r.2 = errs ++ requestError prefix enabled answer.
Proof.
  unfold requestError. destruct enabled; [|by rewrite app_nil_r].
  destruct answer as [res|e]; [|done]. cbn [fst snd].
  destruct (onDNSResponseMsg_nil_waitCh res st) as (-> & -> & ->).
  by rewrite app_nil_r.
Qed.

Lemma datapathFields_ipv6Enabled (f f' : fqdnController) :
  datapathFields f = datapathFields f' → ipv6Enabled f = ipv6Enabled f'.
Proof. unfold datapathFields. congruence. Qed.

Lemma makeDNSRequest_result (fqdn : string)
    (lookup4 lookup6 : list IP + error) (exchange : string → Z → dnsMsg + error)
    (st : fqdnController * chanLog)
    (r : fqdnController * chanLog * list error) :
  makeDNSRequest fqdn lookup4 lookup6 exchange st = Some r →
  let fqdnToQuery :=
    if decide (lastByte fqdn = Some "."%char) then fqdn else fqdn +:+ "." in
  r.1.2 = st.2 ∧ tracker r.1.1 = tracker st.1 ∧
  datapathFields r.1.1 = datapathFields st.1 ∧
  r.2 =
    if decide (dnsServerAddr st.1 = "") then
      requestError "DNS request failed for IPv4: " (ipv4Enabled st.1) lookup4 ++
      requestError "DNS request failed for IPv6: " (ipv6Enabled st.1) lookup6
    else
      requestError "DNS request failed for IPv4: " (ipv4Enabled st.1)
        (exchange fqdnToQuery dns_TypeA) ++
      requestError "DNS request failed for IPv6: " (ipv6Enabled st.1)
        (exchange fqdnToQuery dns_TypeAAAA).
Proof.
  intros Hrun fqdnToQuery. unfold makeDNSRequest in Hrun.
  destruct (decide (dnsServerAddr st.1 = "")) as [Haddr|Haddr].
  - injection Hrun as <-. unfold lookupIP.
    pose proof (lookupIP_family fqdn "DNS request failed for IPv4: "
                  (ipv4Enabled st.1) lookup4 st []) as H4.
    cbv zeta in H4. cbn [app] in H4.
    set (r4 := if ipv4Enabled st.1 then _ else _) in *.
    assert (r4 = (r4.1, r4.2)) as Hr4 by (by destruct r4).
    rewrite Hr4. destruct H4 as (Hl4 & Ht4 & Hd4 & He4).
    pose proof (lookupIP_family fqdn "DNS request failed for IPv6: "
                  (ipv6Enabled r4.1.1) lookup6 r4.1 r4.2) as H6.
    cbv zeta in H6. destruct H6 as (Hl6 & Ht6 & Hd6 & He6).
    pose proof (datapathFields_ipv6Enabled _ _ Hd4) as Hv6.
    split; [etrans; [exact Hl6|exact Hl4]|].
    split; [etrans; [exact Ht6|exact Ht4]|].
    split; [etrans; [exact Hd6|exact Hd4]|].
    etrans; [exact He6|]. by rewrite He4, Hv6.
  - destruct (lastByte fqdn) as [c|] eqn:Hlast; [|done].
    assert ((if decide (c ≠ "."%char) then fqdn +:+ "." else fqdn)
            = fqdnToQuery) as Hq.
    { subst fqdnToQuery. destruct (decide (c = "."%char)) as [->|Hc].
      - rewrite decide_False by (by intros []). by rewrite decide_True.
      - rewrite decide_True by done. rewrite decide_False; [done|]. congruence. }
    rewrite Hq in Hrun. clear Hq.
    pose proof (exchange_family "DNS request failed for IPv4: "
                  (ipv4Enabled st.1) (exchange fqdnToQuery dns_TypeA) st [])
      as H4.
    cbv zeta in H4. cbn [app] in H4.
    set (r4 := if ipv4Enabled st.1 then _ else _) in *.
    assert (r4 = (r4.1, r4.2)) as Hr4 by (by destruct r4).
    rewrite Hr4 in Hrun. injection Hrun as <-.
    destruct H4 as (Hl4 & Ht4 & Hd4 & He4).
    pose proof (exchange_family "DNS request failed for IPv6: "
                  (ipv6Enabled r4.1.1) (exchange fqdnToQuery dns_TypeAAAA)
                  r4.1 r4.2) as H6.
    cbv zeta in H6. destruct H6 as (Hl6 & Ht6 & Hd6 & He6).
    pose proof (datapathFields_ipv6Enabled _ _ Hd4) as Hv6.
    split; [etrans; [exact Hl6|exact Hl4]|].
    split; [etrans; [exact Ht6|exact Ht4]|].
    split; [etrans; [exact Hd6|exact Hd4]|].
    etrans; [exact He6|]. f_equal; [exact He4|]. f_equal. exact Hv6.
Qed.

(** X17.  A proactive query sends on no channel, subscribes nothing, and makes
    no call on the datapath: the rules are resynchronised through the
    dirty rule handler only. *)
Theorem makeDNSRequest_silent (fqdn : string)
    (lookup4 lookup6 : list IP + error) (exchange : string → Z → dnsMsg + error)
    (st : fqdnController * chanLog)
    (r : fqdnController * chanLog * list error) :
  makeDNSRequest fqdn lookup4 lookup6 exchange st = Some r →
  r.1.2 = st.2 ∧ tracker r.1.1 = tracker st.1 ∧
  datapathFields r.1.1 = datapathFields st.1.
Proof.
  intros Hrun.
  destruct (makeDNSRequest_result fqdn lookup4 lookup6 exchange st r Hrun)
    as (? & ? & ? & _).
  done.
Qed.

(** X18.  The errors of a proactive query are the failed requests of the
    enabled address families, IPv4 first, on the host resolver when no
    DNS server is configured and on the server otherwise, where the name
    is queried with a final dot.  An answer that cannot be parsed or
    holds no address is no error.  [handleErr] then forgets the name when
    there is no error and queues it again, rate limited, otherwise. *)
Theorem makeDNSRequest_errors (fqdn : string)
    (lookup4 lookup6 : list IP + error) (exchange : string → Z → dnsMsg + error)
    (st : fqdnController * chanLog)
    (r : fqdnController * chanLog * list error) :
  makeDNSRequest fqdn lookup4 lookup6 exchange st = Some r →
  let fqdnToQuery :=
    if decide (lastByte fqdn = Some "."%char) then fqdn else fqdn +:+ "." in
  let errs :=
    if decide (dnsServerAddr st.1 = "") then
      requestError "DNS request failed for IPv4: " (ipv4Enabled st.1) lookup4 ++
      requestError "DNS request failed for IPv6: " (ipv6Enabled st.1) lookup6
    else
      requestError "DNS request failed for IPv4: " (ipv4Enabled st.1)
        (exchange fqdnToQuery dns_TypeA) ++
      requestError "DNS request failed for IPv6: " (ipv6Enabled st.1)
        (exchange fqdnToQuery dns_TypeAAAA) in
  r.2 = errs ∧
  dnsQueryQueue (handleErr r.2 fqdn r.1.1) =
    dnsQueryQueue r.1.1 ++
    [if decide (errs = []) then QForget fqdn else QAddRateLimited fqdn].
Proof.
  intros Hrun fqdnToQuery errs.
  destruct (makeDNSRequest_result fqdn lookup4 lookup6 exchange st r Hrun)
    as (_ & _ & _ & He).
  cbv zeta in He. fold fqdnToQuery in He. fold errs in He.
  split; [done|]. rewrite He. unfold handleErr.
  destruct errs; [by rewrite decide_True|by rewrite decide_False].
Qed.
End ProactiveProperties.

(** ** The tracker *)

Lemma Run_update_maps (st : ruleSyncTracker * chanLog)
    (u : ruleRealizationUpdate) :
  dirtyRules (Run_update st u).1 =
    match err u with
    | None => dirtyRules st.1 ∖ {[ruleId u]}
    | Some _ => dirtyRules st.1
    end ∧
  ruleToSubscribers (Run_update st u).1 =
    delete (ruleId u) (ruleToSubscribers st.1).
Proof.
  destruct st as [rst log]. unfold Run_update. cbn [fst].
  destruct (ruleToSubscribers rst !! ruleId u) as [subscribers|] eqn:Hsub.
  - destruct (foldl _ _ subscribers) as [heap log']. done.
  - cbn [fst dirtyRules ruleToSubscribers]. split; [done|].
    symmetry. by apply delete_id.
Qed.

(** X19.  The maps of the tracker after [Run] has received [updates].  A rule
    stops being dirty only when it is reported as realized; the
    subscribers of a rule are dropped at its first report, realized or
    failed. *)
Theorem Run_tracker_maps (st : ruleSyncTracker * chanLog)
    (updates : list ruleRealizationUpdate) :
  dirtyRules (Run st updates).1 =
    dirtyRules st.1 ∖
      list_to_set (ruleId <$> filter (λ u, err u = None) updates) ∧
  ∀ r, ruleToSubscribers (Run st updates).1 !! r =
         if decide (r ∈ ruleId <$> updates) then None
         else ruleToSubscribers st.1 !! r.
Proof.
  unfold Run. revert st.
  induction updates as [|u updates IH]; intros st; cbn [foldl].
  - split; [set_solver|]. intros r.
    by rewrite decide_False by apply not_elem_of_nil.
  - destruct (IH (Run_update st u)) as [Hd Hr].
    destruct (Run_update_maps st u) as [Hd1 Hr1].
    split.
    + rewrite Hd, Hd1. rewrite filter_cons.
      destruct (err u); [rewrite decide_False by done|rewrite decide_True by done].
      * done.
      * cbn [fmap list_fmap list_to_set foldr]. set_solver.
    + intros r. rewrite Hr, Hr1. cbn [fmap list_fmap].
      destruct (decide (r = ruleId u)) as [->|Hne].
      * rewrite lookup_delete_eq.
        rewrite (decide_True (P := _ ∈ _ :: _)) by (apply elem_of_cons; by left).
        by case_decide.
      * rewrite lookup_delete_ne by done.
        destruct (decide (r ∈ ruleId <$> updates)) as [Hin|Hnin].
        -- by rewrite decide_True by (apply elem_of_cons; by right).
        -- rewrite decide_False; [done|]. by intros [?|?]%elem_of_cons.
Qed.

Lemma notifySubscriber_channels (update : ruleRealizationUpdate)
    (heap : list subscriber) (log : chanLog) (p : nat) :
  let r := notifySubscriber update (heap, log) p in
  waitCh <$> r.1 = waitCh <$> heap ∧
  ∃ sent, r.2 = log ++ sent ∧ ∀ c v, (c, v) ∈ sent → c ∈ waitCh <$> heap.
Proof.
  assert (∀ s n, heap !! p = Some s →
            waitCh <$> <[p := mkSubscriber (waitCh s) n]> heap = waitCh <$> heap)
    as Hins.
  { intros s n Hs. rewrite list_fmap_insert. cbn [waitCh].
    apply list_insert_id. by rewrite list_lookup_fmap, Hs. }
  assert (∀ s (v : option error), heap !! p = Some s →
            ∀ c (v' : option error),
              (c, v') ∈ [(waitCh s, v)] → c ∈ waitCh <$> heap) as Hone.
  { intros s v Hs c v' [= -> ->]%list_elem_of_singleton.
    apply list_elem_of_fmap. exists s. split; [done|].
    by eapply list_elem_of_lookup_2. }
  assert (∃ sent : chanLog, log = log ++ sent ∧
            ∀ c (v : option error), (c, v) ∈ sent → c ∈ waitCh <$> heap)
    as Hnone.
  { exists []. rewrite app_nil_r. split; [done|]. by intros c v ?%elem_of_nil. }
  unfold notifySubscriber.
  destruct (heap !! p) as [s|] eqn:Hs; cbn [fst snd]; [|done].
  destruct (err update).
  - split; [by eapply Hins|]. eexists. split; [reflexivity|]. by eapply Hone.
  - case_decide; [done|]. case_decide; cbn [fst snd].
    + split; [by eapply Hins|]. eexists. split; [reflexivity|]. by eapply Hone.
    + split; [by eapply Hins|done].
Qed.

Lemma Run_update_channels (st : ruleSyncTracker * chanLog)
    (u : ruleRealizationUpdate) :
  let r := Run_update st u in
  waitCh <$> subscriberHeap r.1 = waitCh <$> subscriberHeap st.1 ∧
  ∃ sent, r.2 = st.2 ++ sent ∧
          ∀ c v, (c, v) ∈ sent → c ∈ waitCh <$> subscriberHeap st.1.
Proof.
  destruct st as [rst log]. unfold Run_update. cbn [fst snd].
  destruct (ruleToSubscribers rst !! ruleId u) as [subscribers|].
  2:{ cbn [fst snd subscriberHeap]. split; [done|]. exists [].
      rewrite app_nil_r. split; [done|]. by intros c v ?%elem_of_nil. }
  assert (∀ (l : list nat) heap log0,
            let r := foldl (notifySubscriber u) (heap, log0) l in
            waitCh <$> r.1 = waitCh <$> heap ∧
            ∃ sent, r.2 = log0 ++ sent ∧
                    ∀ c v, (c, v) ∈ sent → c ∈ waitCh <$> heap) as Hfold.
  { induction l as [|p l IH]; intros heap log0; cbn [foldl].
    - split; [done|]. exists []. rewrite app_nil_r. split; [done|].
      by intros c v ?%elem_of_nil.
    - destruct (notifySubscriber_channels u heap log0 p)
        as (Hch & sent1 & Hlog1 & Hsent1).
      destruct (notifySubscriber u (heap, log0) p) as [heap1 log1].
      cbn [fst snd] in *. subst log1.
      destruct (IH heap1 (log0 ++ sent1)) as (Hch2 & sent2 & Hlog2 & Hsent2).
      split; [congruence|]. exists (sent1 ++ sent2).
      rewrite Hlog2, app_assoc. split; [done|].
      intros c v [?|?]%elem_of_app; [by eapply Hsent1|].
      rewrite <- Hch. by eapply Hsent2. }
  specialize (Hfold subscribers (subscriberHeap rst) log).
  destruct (foldl _ _ subscribers) as [heap log']. exact Hfold.
Qed.

(** X20.  [Run] sends only on channels of subscribers of the tracker, and it
    neither adds nor removes a subscriber object nor changes its
    channel. *)
Theorem Run_sends_to_subscribers_only (st : ruleSyncTracker * chanLog)
    (updates : list ruleRealizationUpdate) :
  waitCh <$> subscriberHeap (Run st updates).1 = waitCh <$> subscriberHeap st.1 ∧
  ∃ sent, (Run st updates).2 = st.2 ++ sent ∧
          ∀ c v, (c, v) ∈ sent → c ∈ waitCh <$> subscriberHeap st.1.
Proof.
  unfold Run. revert st.
  induction updates as [|u updates IH]; intros st; cbn [foldl].
  - split; [done|]. exists []. rewrite app_nil_r. split; [done|].
    by intros c v ?%elem_of_nil.
  - destruct (Run_update_channels st u) as (Hch & sent1 & Hlog1 & Hsent1).
    destruct (IH (Run_update st u)) as (Hch2 & sent2 & Hlog2 & Hsent2).
    split; [congruence|]. exists (sent1 ++ sent2).
    rewrite Hlog2, Hlog1, app_assoc. split; [done|].
    intros c v [?|?]%elem_of_app; [by eapply Hsent1|].
    rewrite <- Hch. by eapply Hsent2.
Qed.

Lemma sentToSubscriber_empty (failed : bool)
    (updates : list ruleRealizationUpdate) :
  sentToSubscriber ∅ failed updates = [].
Proof.
  induction updates as [|u updates IH]; [done|]. cbn [sentToSubscriber].
  by rewrite decide_False by set_solver.
Qed.

Lemma sentToSubscriber_failed (S : gset string)
    (updates : list ruleRealizationUpdate) :
  None ∉ sentToSubscriber S true updates.
Proof.
  revert S. induction updates as [|u updates IH]; intros S;
    cbn [sentToSubscriber]; [apply not_elem_of_nil|].
  case_decide; [|apply IH]. destruct (err u).
  - intros [?|?]%elem_of_cons; [done|]. by eapply IH.
  - cbn [negb andb app]. apply IH.
Qed.

Lemma difference_singleton_empty (S : gset string) (r : string) :
  S ∖ {[r]} = ∅ → S ⊆ {[r]}.
Proof.
  intros He x Hx. destruct (decide (x = r)) as [->|Hne]; [set_solver|].
  assert (x ∈ S ∖ {[r]}) as Hd by set_solver.
  rewrite He in Hd. by apply not_elem_of_empty in Hd.
Qed.

Lemma size_1_difference (S : gset string) (r : string) :
  r ∈ S → size S = 1%nat ↔ S ∖ {[r]} = ∅.
Proof.
  intros Hr. split.
  - intros Hsz. apply size_1_elem_of in Hsz as [x Hx].
    apply leibniz_equiv in Hx. set_solver.
  - intros He%difference_singleton_empty.
    assert (S = {[r]}) as -> by set_solver. apply size_singleton.
Qed.

Lemma sentToSubscriber_nil (S : gset string)
    (updates : list ruleRealizationUpdate) :
  None ∈ sentToSubscriber S false updates →
  sentToSubscriber S false updates = [None].
Proof.
  revert S. induction updates as [|u updates IH]; intros S;
    cbn [sentToSubscriber]; [by intros ?%elem_of_nil|].
  case_decide as Hin; [|apply IH]. destruct (err u).
  - intros [?|Hn]%elem_of_cons; [done|]. by apply sentToSubscriber_failed in Hn.
  - cbn [negb andb]. case_bool_decide as Hsz.
    + apply (size_1_difference S _ Hin) in Hsz. rewrite Hsz.
      by rewrite sentToSubscriber_empty.
    + cbn [app]. apply IH.
Qed.

(** X21.  A subscriber that is sent nil has been sent nothing else: nil comes
    only when no rule of the subscriber has failed, and no value follows
    it. *)
Theorem Run_release_is_only_value (ch : chanId) (X : gset string)
    (updates : list ruleRealizationUpdate) :
  let sent :=
    sentOn ch (Run (subscribe ch X newRuleSyncTracker, []) updates).2 in
  sent = [None] ∨ ∀ v, v ∈ sent → v ≠ None.
Proof.
  intros sent. subst sent.
  rewrite (Run_loneSubscriber ch X false) by apply subscribe_loneSubscriber.
  cbn [sentOn filter list_filter fmap list_fmap app].
  destruct (decide (None ∈ sentToSubscriber X false updates)) as [Hin|Hnin].
  - left. by apply sentToSubscriber_nil.
  - right. by intros v Hv ->.
Qed.

Lemma sentToSubscriber_all_realized (S : gset string)
    (updates : list ruleRealizationUpdate) :
  (∀ u, u ∈ updates → err u = None) →
  sentToSubscriber S false updates =
    if decide (S ≠ ∅ ∧ S ⊆ list_to_set (ruleId <$> updates))
    then [None] else [].
Proof.
  revert S. induction updates as [|u updates IH]; intros S Hall;
    cbn [sentToSubscriber].
  - rewrite decide_False; [done|]. cbn. set_solver.
  - assert (∀ u, u ∈ updates → err u = None) as Hall'
      by (intros u' Hu'; apply Hall, elem_of_cons; by right).
    rewrite (Hall u) by (apply elem_of_cons; by left).
    cbn [negb andb fmap list_fmap list_to_set foldr].
    destruct (decide (ruleId u ∈ S)) as [Hin|Hnin].
    + case_bool_decide as Hsz.
      * apply (size_1_difference S _ Hin) in Hsz. rewrite Hsz.
        rewrite sentToSubscriber_empty. rewrite decide_True; [done|].
        apply difference_singleton_empty in Hsz.
        clear IH Hall Hall'. set_solver.
      * rewrite IH by done. cbn [app]. apply decide_ext.
        rewrite (size_1_difference S _ Hin) in Hsz.
        clear IH Hall Hall'. split.
        -- intros [_ Hsub]. split; [set_solver|].
           intros x Hx. destruct (decide (x = ruleId u)); set_solver.
        -- intros [_ Hsub]. split; [done|]. set_solver.
    + rewrite IH by done. apply decide_ext. clear IH Hall Hall'. set_solver.
Qed.

(** X22.  When every update reports a realized rule, the subscriber is sent
    nil exactly once if its set of rules is not empty and every rule of
    the set has been reported, and nothing before that. *)
Theorem Run_all_realized (ch : chanId) (X : gset string)
    (updates : list ruleRealizationUpdate) :
  (∀ u, u ∈ updates → err u = None) →
  sentOn ch (Run (subscribe ch X newRuleSyncTracker, []) updates).2 =
    if decide (X ≠ ∅ ∧ X ⊆ list_to_set (ruleId <$> updates))
    then [None] else [].
Proof.
  intros Hall.
  rewrite (Run_loneSubscriber ch X false) by apply subscribe_loneSubscriber.
  cbn [sentOn filter list_filter fmap list_fmap app].
  by apply sentToSubscriber_all_realized.
Qed.

(** ** The barrier, end to end *)

Lemma Run_no_subscribers (rst : ruleSyncTracker) (log : chanLog)
    (updates : list ruleRealizationUpdate) :
  ruleToSubscribers rst = ∅ → (Run (rst, log) updates).2 = log.
Proof.
  unfold Run. revert rst.
  induction updates as [|u updates IH]; intros rst Hemp; cbn [foldl]; [done|].
  unfold Run_update at 2. rewrite Hemp, lookup_empty.
  apply IH. reflexivity.
Qed.

Lemma subscribe_soleSubscriber (ch : chanId) (X : gset string)
    (rst : ruleSyncTracker) :
  ruleToSubscribers rst = ∅ →
  soleSubscriber (length (subscriberHeap rst)) ch X false (subscribe ch X rst).
Proof.
  intros Hemp. destruct (subscribe_subscribed ch X rst) as (Hheap & _ & Hr2s).
  split.
  - rewrite Hheap. by rewrite list_lookup_middle.
  - intros r. rewrite Hr2s, Hemp, lookup_empty. by case_decide.
Qed.

Lemma Run_update_soleSubscriber p ch S failed rst log u :
  soleSubscriber p ch S failed rst →
  let st' := Run_update (rst, log) u in
  soleSubscriber p ch (S ∖ {[ruleId u]})
    (failed || (bool_decide (ruleId u ∈ S) && bool_decide (is_Some (err u))))
    st'.1 ∧
  st'.2 = log ++ ((λ v, (ch, v)) <$> sentToSubscriber S failed [u]).
Proof.
  destruct rst as [heap r2s dirty]. intros [Hheap Hr2s].
  cbn [subscriberHeap ruleToSubscribers] in Hheap, Hr2s.
  pose proof (lookup_lt_Some _ _ _ Hheap) as Hlt.
  assert (∀ r, delete (ruleId u) r2s !! r =
               if decide (r ∈ S ∖ {[ruleId u]}) then Some [p] else None)
    as Hdel.
  { intros r. rewrite lookup_delete, Hr2s.
    repeat case_decide; try done; exfalso; set_solver. }
  unfold Run_update. cbn [subscriberHeap ruleToSubscribers]. rewrite Hr2s.
  cbn [sentToSubscriber].
  destruct (decide (ruleId u ∈ S)) as [Hin|Hnin].
  - rewrite bool_decide_eq_true_2 by done.
    assert (size (S ∖ {[ruleId u]}) = (size S - 1)%nat) as Hsize.
    { rewrite size_difference by set_solver. by rewrite size_singleton. }
    assert (size S ≠ 0%nat) as Hpos.
    { intros Hz%size_empty_inv. set_solver. }
    cbn [foldl notifySubscriber]. rewrite Hheap.
    destruct (err u) as [e|] eqn:He.
    + rewrite bool_decide_eq_true_2 by eauto. rewrite orb_true_r.
      cbn [fst snd waitCh]. split; [|done]. split; [|done].
      cbn [subscriberHeap]. by rewrite list_lookup_insert_eq.
    + rewrite bool_decide_eq_false_2 by (by intros [? [=]]).
      rewrite andb_false_r, orb_false_r.
      destruct failed; cbn [rulesToSyncCount waitCh negb andb].
      * rewrite decide_True by done. cbn [fst snd]. split; [by split|].
        cbn. by rewrite app_nil_r.
      * rewrite decide_False by lia.
        destruct (decide (Z.of_nat (size S) - 1 = 0)) as [Hz|Hnz];
          cbn [fst snd].
        -- split; [split; [|done]|].
           ++ cbn [subscriberHeap]. rewrite list_lookup_insert_eq by done.
              rewrite Hsize. do 2 f_equal. lia.
           ++ by rewrite bool_decide_eq_true_2 by lia.
        -- split; [split; [|done]|].
           ++ cbn [subscriberHeap]. rewrite list_lookup_insert_eq by done.
              rewrite Hsize. do 2 f_equal. lia.
           ++ rewrite bool_decide_eq_false_2 by lia. cbn.
              by rewrite app_nil_r.
  - rewrite bool_decide_eq_false_2 by done. rewrite andb_false_l, orb_false_r.
    cbn [fst snd]. split.
    + assert (S ∖ {[ruleId u]} = S) as -> by set_solver. by split.
    + cbn. by rewrite app_nil_r.
Qed.

(** Everything [Run] sends when one subscriber only is listed in the
    tracker. *)
Lemma Run_soleSubscriber p ch S failed rst log updates :
  soleSubscriber p ch S failed rst →
  (Run (rst, log) updates).2 =
    log ++ ((λ v, (ch, v)) <$> sentToSubscriber S failed updates).
Proof.
  revert S failed rst log.
  induction updates as [|u updates IH]; intros S failed rst log Hsole.
  - cbn. by rewrite app_nil_r.
  - cbn [Run foldl].
    destruct (Run_update_soleSubscriber p ch S failed rst log u Hsole)
      as [Hsole' Hsent].
    destruct (Run_update (rst, log) u) as [rst' log'] eqn:Hstep.
    cbn [fst snd] in *. unfold Run in IH. rewrite (IH _ _ _ _ Hsole'), Hsent.
    rewrite <- app_assoc, <- fmap_app. do 2 f_equal. cbn [sentToSubscriber].
    destruct (decide (ruleId u ∈ S)) as [Hin|Hnin].
    + rewrite (bool_decide_eq_true_2 (ruleId u ∈ S)) by done.
      destruct (err u) as [e|].
      * rewrite (bool_decide_eq_true_2 (is_Some (Some e))) by eauto.
        by rewrite orb_true_r.
      * rewrite (bool_decide_eq_false_2 (is_Some None)) by (by intros [? [=]]).
        rewrite andb_false_r, orb_false_r. by rewrite app_nil_r.
    + rewrite (bool_decide_eq_false_2 (ruleId u ∈ S)) by done.
      rewrite andb_false_l, orb_false_r.
      by assert (S ∖ {[ruleId u]} = S) as -> by set_solver.
Qed.

Section Barrier.
Context {golib : GoLib}.

(** X30.  The barrier of an intercepted response, from the response to
    the reports of the reconciler, when no subscriber is listed in the
    tracker (whatever subscribers it has served and whatever rules are
    still dirty) and every report is a realized rule.  Either
    [onDNSResponse] has sent nil on [waitCh] at once, and [Run] sends
    nothing; or it has sent nothing, has run the dirty rule handler on a
    set of rules that is not empty, and [Run] sends nil on [waitCh], once,
    exactly when all these rules have been reported, and nothing else.
    In both cases one value at most is ever sent, and it is sent on
    [waitCh]. *)
Theorem onDNSResponse_then_Run (fqdn : string)
    (new : gmap string ipWithExpiration) (ch : chanId)
    (st : fqdnController * chanLog)
    (updates : list ruleRealizationUpdate) :
  ruleToSubscribers (tracker st.1) = ∅ →
  (∀ u, u ∈ updates → err u = None) →
  let r := onDNSResponse fqdn new (Some ch) st in
  let final := (Run (tracker r.1, r.2) updates).2 in
  (r.2 = st.2 ++ [(ch, None)] ∧ final = r.2) ∨
  (r.2 = st.2 ∧
   ∃ dirty : gset string,
     dirty ≠ ∅ ∧
     dirtyRuleHandler r.1 = dirtyRuleHandler st.1 ++ elements dirty ∧
     final =
       st.2 ++ if decide (dirty ⊆ list_to_set (ruleId <$> updates))
               then [(ch, None)] else []).
Proof.
  intros Hnone Hall r final. subst final. destruct st as [f log].
  cbn [fst snd] in *.
  destruct (onDNSResponse_waitCh fqdn new ch f log)
    as [(Hlog & Ht & _)|(Hlog & dirty & Hne & Ht & Hh)]; fold r in Hlog, Ht.
  - left. split; [done|]. rewrite Ht. by apply Run_no_subscribers.
  - right. split; [done|]. exists dirty. split; [done|]. split; [exact Hh|].
    rewrite Ht, Hlog.
    rewrite (Run_soleSubscriber (length (subscriberHeap (tracker f))) ch
               dirty false) by (by apply subscribe_soleSubscriber).
    rewrite sentToSubscriber_all_realized by done. f_equal.
    destruct (decide (dirty ⊆ list_to_set (ruleId <$> updates))).
    + by rewrite decide_True.
    + rewrite decide_False; [done|]. by intros [_ ?].
Qed.
End Barrier.

(** ** The Pods of the rules and the address set of the flow *)

Lemma mergedPods_elem (m : gmap string (gset Z)) (x : Z) :
  x ∈ mergedPods m ↔ ∃ r pods, m !! r = Some pods ∧ x ∈ pods.
Proof.
  unfold mergedPods.
  assert (∀ (l : list (string * gset Z)) (acc : gset Z),
            x ∈ foldl (λ acc kv, MergeInt32 acc kv.2) acc l ↔
            x ∈ acc ∨ ∃ kv, kv ∈ l ∧ x ∈ kv.2) as Hfold.
  { induction l as [|kv l IH]; intros acc; cbn [foldl].
    - setoid_rewrite elem_of_nil. naive_solver.
    - rewrite IH. unfold MergeInt32. rewrite elem_of_union.
      setoid_rewrite elem_of_cons. naive_solver. }
  rewrite Hfold. split.
  - intros [?%not_elem_of_empty|([r pods] & Hin%elem_of_map_to_list & Hx)];
      [done|]. by exists r, pods.
  - intros (r & pods & Hr & Hx). right. exists (r, pods).
    split; [by apply elem_of_map_to_list|done].
Qed.

Lemma mergedPods_split (m : gmap string (gset Z)) (ruleID : string) :
  mergedPods m = default ∅ (m !! ruleID) ∪ mergedPods (delete ruleID m).
Proof.
  apply set_eq. intros x. rewrite elem_of_union, !mergedPods_elem. split.
  - intros (r & pods & Hr & Hx). destruct (decide (r = ruleID)) as [->|Hne].
    + left. by rewrite Hr.
    + right. exists r, pods. by rewrite lookup_delete_ne.
  - intros [Hx|(r & pods & Hr%lookup_delete_Some & Hx)].
    + destruct (m !! ruleID) as [pods|] eqn:Hr;
        [|by apply not_elem_of_empty in Hx].
      by exists ruleID, pods.
    + exists r, pods. by destruct Hr.
Qed.

Lemma mergedPods_insert (m : gmap string (gset Z)) (ruleID : string)
    (pods : gset Z) :
  mergedPods (<[ruleID := pods]> m) = pods ∪ mergedPods (delete ruleID m).
Proof.
  rewrite (mergedPods_split (<[ruleID := pods]> m) ruleID).
  by rewrite lookup_insert_eq, delete_insert_eq.
Qed.

Lemma size_pos_nonempty (X : gset Z) : (0 < size X)%nat ↔ X ≠ ∅.
Proof.
  split.
  - intros Hpos ->. rewrite size_empty in Hpos. lia.
  - intros Hne. destruct (decide (size X = 0%nat)) as [Hz|]; [|lia].
    by apply size_empty_inv, leibniz_equiv in Hz.
Qed.

Section Pods.
Variable id : Z.

Lemma updateRuleSelectedPods_ofCalls (ruleID : string) (podOFAddrs : gset Z)
    (f : fqdnController) :
  let former := default ∅ (fqdnRuleToSelectedPods f !! ruleID) in
  let others := mergedPods (delete ruleID (fqdnRuleToSelectedPods f)) in
  let added := podOFAddrs ∖ (former ∪ others) in
  let removed := former ∖ (podOFAddrs ∪ others) in
  let r := updateRuleSelectedPods id ruleID podOFAddrs f in
  let add := AddAddressToDNSConjunction id (elements added) in
  ofCalls (ofClient r.1) =
    ofCalls (ofClient f) ++
    (if decide (added = ∅) then [] else [add]) ++
    (if decide (removed = ∅) then []
     else if decide (added = ∅) then
       [DeleteAddressFromDNSConjunction id (elements removed)]
     else
       match ofReply (ofClient f) (ofCalls (ofClient f)) add with
       | None => [DeleteAddressFromDNSConjunction id (elements removed)]
       | Some _ => []
       end).
Proof.
  intros former others added removed r add. subst r.
  unfold updateRuleSelectedPods.
  cbn [fqdnRuleToSelectedPods set_fqdnRuleToSelectedPods].
  rewrite (mergedPods_insert _ ruleID podOFAddrs).
  rewrite (mergedPods_split (fqdnRuleToSelectedPods f) ruleID).
  fold former. fold others.
  assert ((podOFAddrs ∪ others) ∖ (former ∪ others) = added) as ->
    by (subst added; set_solver).
  assert ((former ∪ others) ∖ (podOFAddrs ∪ others) = removed) as ->
    by (subst removed; set_solver).
  fold add.
  destruct (decide (added = ∅)) as [Ha|Ha].
  - rewrite decide_False by (rewrite size_pos_nonempty; by intros []).
    destruct (decide (removed = ∅)) as [Hr|Hr].
    + rewrite decide_False by (rewrite size_pos_nonempty; by intros []).
      cbn. by rewrite app_nil_r.
    + rewrite decide_True by (by rewrite size_pos_nonempty). done.
  - rewrite decide_True by (by rewrite size_pos_nonempty).
    unfold ofInvoke at 1. cbn [ofClient set_ofClient set_fqdnRuleToSelectedPods].
    destruct (ofReply (ofClient f) (ofCalls (ofClient f)) add) as [e|].
    + cbn. by destruct (decide (removed = ∅)).
    + destruct (decide (removed = ∅)) as [Hr|Hr].
      * rewrite decide_False by (rewrite size_pos_nonempty; by intros []).
        done.
      * rewrite decide_True by (by rewrite size_pos_nonempty).
        cbn. by rewrite <- app_assoc.
Qed.

(** X23.  The datapath calls of [updateRuleSelectedPods].  It makes at most
    two calls, on the DNS interception flow: first it adds the new Pods
    of the rule that no rule selected before, then it deletes the former
    Pods of the rule that no rule selects any more, the second only when
    the first did not fail.  It never makes a call with an empty list, so
    a Pod that another rule still selects is never deleted. *)
Theorem updateRuleSelectedPods_calls (ruleID : string) (podOFAddrs : gset Z)
    (f : fqdnController) :
  let former := default ∅ (fqdnRuleToSelectedPods f !! ruleID) in
  let others := mergedPods (delete ruleID (fqdnRuleToSelectedPods f)) in
  let added := podOFAddrs ∖ (former ∪ others) in
  let removed := former ∖ (podOFAddrs ∪ others) in
  let r := updateRuleSelectedPods id ruleID podOFAddrs f in
  let add := AddAddressToDNSConjunction id (elements added) in
  ofCalls (ofClient r.1) =
    ofCalls (ofClient f) ++
    (if decide (added = ∅) then [] else [add]) ++
    (if decide (removed = ∅) then []
     else if decide (added = ∅) then
       [DeleteAddressFromDNSConjunction id (elements removed)]
     else
       match ofReply (ofClient f) (ofCalls (ofClient f)) add with
       | None => [DeleteAddressFromDNSConjunction id (elements removed)]
       | Some _ => []
       end).
Proof. apply updateRuleSelectedPods_ofCalls. Qed.

Lemma set_fqdnRuleToSelectedPods_id (f : fqdnController) :
  set_fqdnRuleToSelectedPods (fqdnRuleToSelectedPods f) f = f.
Proof. by destruct f. Qed.

(** X24.  A call of [updateRuleSelectedPods] with the Pods the rule already
    has makes no datapath call and changes nothing.  This holds whether
    or not the Pods were programmed: after a call that failed, the retry
    with the same Pods is such a call. *)
Theorem updateRuleSelectedPods_same_pods (ruleID : string)
    (podOFAddrs : gset Z) (f : fqdnController) :
  fqdnRuleToSelectedPods f !! ruleID = Some podOFAddrs →
  updateRuleSelectedPods id ruleID podOFAddrs f = (f, None).
Proof.
  intros Hsame. unfold updateRuleSelectedPods.
  rewrite (insert_id _ _ _ Hsame), set_fqdnRuleToSelectedPods_id.
  rewrite difference_diag_L, size_empty.
  by rewrite !decide_False by lia.
Qed.

End Pods.

Lemma programmedCall_prefix (id : Z) (reply : list ofCall → ofCall → option error)
    (calls before : list ofCall) (ports : gset Z) :
  (foldl (programmedCall id reply) (before, ports) calls).1 = before ++ calls.
Proof.
  revert before ports. induction calls as [|call calls IH];
    intros before ports; cbn [foldl].
  - by rewrite app_nil_r.
  - unfold programmedCall at 2. cbn [fst snd]. rewrite IH.
    by rewrite <- app_assoc.
Qed.

(** The address set after one more call. *)
Lemma programmedPorts_invoke (id : Z) (c : ofClientT) (call : ofCall) :
  programmedPorts id (ofInvoke c call).1 =
    match ofReply c (ofCalls c) call with
    | None => programmedStep id (programmedPorts id c) call
    | Some _ => programmedPorts id c
    end.
Proof.
  unfold programmedPorts, ofInvoke. cbn [fst ofCalls ofReply].
  rewrite foldl_app. cbn [foldl]. unfold programmedCall at 1. cbn [snd].
  by rewrite programmedCall_prefix.
Qed.

Section PodsProgrammed.
Variable id : Z.

(** The datapath client and the error after [updateRuleSelectedPods]. *)
Lemma updateRuleSelectedPods_client (ruleID : string) (podOFAddrs : gset Z)
    (f : fqdnController) :
  let former := default ∅ (fqdnRuleToSelectedPods f !! ruleID) in
  let others := mergedPods (delete ruleID (fqdnRuleToSelectedPods f)) in
  let added := podOFAddrs ∖ (former ∪ others) in
  let removed := former ∖ (podOFAddrs ∪ others) in
  let r := updateRuleSelectedPods id ruleID podOFAddrs f in
  let add := AddAddressToDNSConjunction id (elements added) in
  let del := DeleteAddressFromDNSConjunction id (elements removed) in
  (ofClient r.1, r.2) =
    let c1 :=
      if decide (added = ∅) then (ofClient f, None)
      else ofInvoke (ofClient f) add in
    match c1.2 with
    | Some e => (c1.1, Some e)
    | None => if decide (removed = ∅) then (c1.1, None) else ofInvoke c1.1 del
    end.
Proof.
  intros former others added removed r add del. subst r.
  unfold updateRuleSelectedPods.
  cbn [fqdnRuleToSelectedPods set_fqdnRuleToSelectedPods].
  rewrite (mergedPods_insert _ ruleID podOFAddrs).
  rewrite (mergedPods_split (fqdnRuleToSelectedPods f) ruleID).
  fold former. fold others.
  assert ((podOFAddrs ∪ others) ∖ (former ∪ others) = added) as ->
    by (subst added; set_solver).
  assert ((former ∪ others) ∖ (podOFAddrs ∪ others) = removed) as ->
    by (subst removed; set_solver).
  fold add. fold del.
  destruct (decide (added = ∅)) as [Ha|Ha].
  - rewrite decide_False by (rewrite size_pos_nonempty; by intros []).
    cbn [fst snd].
    destruct (decide (removed = ∅)) as [Hr|Hr].
    + rewrite decide_False by (rewrite size_pos_nonempty; by intros []).
      reflexivity.
    + rewrite decide_True by (by rewrite size_pos_nonempty).
      cbn [ofClient set_fqdnRuleToSelectedPods].
      destruct (ofInvoke (ofClient f) del). reflexivity.
  - rewrite decide_True by (by rewrite size_pos_nonempty).
    cbn [ofClient set_fqdnRuleToSelectedPods].
    destruct (ofInvoke (ofClient f) add) as [c1 [e|]]; cbn [fst snd];
      [reflexivity|].
    destruct (decide (removed = ∅)) as [Hr|Hr].
    + rewrite decide_False by (rewrite size_pos_nonempty; by intros []).
      reflexivity.
    + rewrite decide_True by (by rewrite size_pos_nonempty).
      cbn [ofClient set_ofClient]. destruct (ofInvoke c1 del). reflexivity.
Qed.

(** X25.  The address set of the flow follows the Pods of the rules
    exactly as long as the datapath accepts the calls.  When the address
    set holds the Pods that some rule selects before a call of
    [updateRuleSelectedPods], it does so after the call if and only if
    the call returns no error: after a call that the datapath refused
    the address set and the Pods of the rules differ. *)
Theorem updateRuleSelectedPods_programs_union (ruleID : string)
    (podOFAddrs : gset Z) (f : fqdnController) :
  let r := updateRuleSelectedPods id ruleID podOFAddrs f in
  programmedPorts id (ofClient f) = mergedPods (fqdnRuleToSelectedPods f) →
  programmedPorts id (ofClient r.1) = mergedPods (fqdnRuleToSelectedPods r.1)
  ↔ r.2 = None.
Proof.
  intros r Hinv. subst r.
  rewrite (updateRuleSelectedPods_mapping id ruleID podOFAddrs f).
  pose proof (updateRuleSelectedPods_client ruleID podOFAddrs f) as Hcl.
  cbv zeta in Hcl.
  rewrite mergedPods_insert.
  rewrite (mergedPods_split (fqdnRuleToSelectedPods f) ruleID) in Hinv.
  set (former := default ∅ (fqdnRuleToSelectedPods f !! ruleID)) in *.
  set (others := mergedPods (delete ruleID (fqdnRuleToSelectedPods f))) in *.
  set (added := podOFAddrs ∖ (former ∪ others)) in *.
  set (removed := former ∖ (podOFAddrs ∪ others)) in *.
  set (add := AddAddressToDNSConjunction id (elements added)) in *.
  set (del := DeleteAddressFromDNSConjunction id (elements removed)) in *.
  set (old := former ∪ others) in *.
  set (new := podOFAddrs ∪ others).
  assert (∀ x, x ∈ added ↔ x ∈ new ∧ x ∉ old) as Hadded.
  { intros x. subst added new old. rewrite !elem_of_difference, !elem_of_union.
    destruct (decide (x ∈ podOFAddrs)), (decide (x ∈ former)),
      (decide (x ∈ others)); naive_solver. }
  assert (∀ x, x ∈ removed ↔ x ∈ old ∧ x ∉ new) as Hremoved.
  { intros x. subst removed new old. rewrite !elem_of_difference, !elem_of_union.
    destruct (decide (x ∈ podOFAddrs)), (decide (x ∈ former)),
      (decide (x ∈ others)); naive_solver. }
  clearbody added removed old new.
  assert (∀ P : gset Z,
            P = new ↔ ∀ x, x ∈ P ↔ x ∈ new) as Hext
    by (intros P; split; [by intros ->|apply set_eq]).
  assert (programmedStep id old add = old ∪ added) as Hstep_add.
  { unfold programmedStep, add. rewrite decide_True by done.
    by rewrite list_to_set_elements_L. }
  assert (∀ P, programmedStep id P del = P ∖ removed) as Hstep_del.
  { intros P. unfold programmedStep, del. rewrite decide_True by done.
    by rewrite list_to_set_elements_L. }
  destruct (decide (added = ∅)) as [Ha|Ha].
  - cbn [fst snd] in Hcl.
    destruct (decide (removed = ∅)) as [Hr|Hr].
    + injection Hcl as -> ->. split; [done|]. intros _. rewrite Hinv.
      apply set_eq. intros x.
      pose proof (Hadded x) as Hax. pose proof (Hremoved x) as Hrx.
      rewrite Ha in Hax. rewrite Hr in Hrx.
      destruct (decide (x ∈ new)), (decide (x ∈ old)); set_solver.
    + pose proof (programmedPorts_invoke id (ofClient f) del) as Hinvoke.
      unfold ofInvoke in Hcl, Hinvoke. cbn [fst snd] in Hinvoke.
      injection Hcl as -> ->. rewrite Hinvoke, Hinv, Hstep_del.
      apply set_choose_L in Hr as [y Hy].
      destruct (proj1 (Hremoved y) Hy) as [Hyo Hyn].
      destruct (ofReply (ofClient f) (ofCalls (ofClient f)) del) as [e|].
      * split; [|done]. intros Heq. rewrite Heq in Hyo. done.
      * split; [done|]. intros _. apply set_eq. intros x.
        rewrite elem_of_difference, Hremoved.
        pose proof (Hadded x) as Hax. rewrite Ha in Hax.
        destruct (decide (x ∈ new)), (decide (x ∈ old)); set_solver.
  - pose proof (programmedPorts_invoke id (ofClient f) add) as Hinvoke.
    unfold ofInvoke in Hcl, Hinvoke. cbn [fst snd] in Hcl, Hinvoke.
    pose proof Ha as Ha'. apply set_choose_L in Ha' as [z Hz].
    destruct (proj1 (Hadded z) Hz) as [Hzn Hzo].
    destruct (ofReply (ofClient f) (ofCalls (ofClient f)) add) as [e|].
    + injection Hcl as -> ->. rewrite Hinvoke, Hinv.
      split; [|done]. intros Heq. rewrite Heq in Hzo. done.
    + destruct (decide (removed = ∅)) as [Hr|Hr].
      * injection Hcl as -> ->. rewrite Hinvoke, Hinv, Hstep_add.
        split; [done|]. intros _. apply set_eq. intros x.
        rewrite elem_of_union, Hadded.
        pose proof (Hremoved x) as Hrx. rewrite Hr in Hrx.
        destruct (decide (x ∈ new)), (decide (x ∈ old)); set_solver.
      * pose proof (programmedPorts_invoke id
                      (mkOFClient (ofCalls (ofClient f) ++ [add])
                         (ofReply (ofClient f))) del) as Hinvoke2.
        unfold ofInvoke in Hinvoke2.
        cbn [fst snd ofCalls ofReply] in Hinvoke2.
        injection Hcl as -> ->. rewrite Hinvoke2, Hinvoke, Hinv, Hstep_add,
          Hstep_del.
        apply set_choose_L in Hr as [y Hy].
        destruct (proj1 (Hremoved y) Hy) as [Hyo Hyn].
        destruct (ofReply (ofClient f) (ofCalls (ofClient f) ++ [add]) del)
          as [e|].
        -- split; [|done]. intros Heq.
           assert (y ∈ old ∪ added) as Hin by set_solver.
           rewrite Heq in Hin. done.
        -- split; [done|]. intros _. apply set_eq. intros x.
           rewrite elem_of_difference, elem_of_union, Hadded, Hremoved.
           destruct (decide (x ∈ new)), (decide (x ∈ old)); naive_solver.
Qed.

(** X26.  The same for [deleteRuleSelectedPods], which removes the rule
    from the mapping whether or not the datapath accepts the call: when
    the address set holds the Pods that some rule selects before the
    call, it holds the Pods that the remaining rules select after the
    call if and only if the call returns no error. *)
Theorem deleteRuleSelectedPods_programs_union (ruleID : string)
    (f : fqdnController) :
  let r := deleteRuleSelectedPods id ruleID f in
  programmedPorts id (ofClient f) = mergedPods (fqdnRuleToSelectedPods f) →
  fqdnRuleToSelectedPods r.1 = delete ruleID (fqdnRuleToSelectedPods f) ∧
  (programmedPorts id (ofClient r.1) = mergedPods (fqdnRuleToSelectedPods r.1)
   ↔ r.2 = None).
Proof.
  intros r Hinv. subst r. unfold deleteRuleSelectedPods.
  destruct (fqdnRuleToSelectedPods f !! ruleID) as [pods|] eqn:Hrule.
  2:{ cbn [fst snd]. split; [symmetry; by apply delete_id|]. done. }
  cbn [fqdnRuleToSelectedPods set_fqdnRuleToSelectedPods].
  set (old := mergedPods (fqdnRuleToSelectedPods f)) in *.
  set (new := mergedPods (delete ruleID (fqdnRuleToSelectedPods f))).
  assert (new ⊆ old) as Hsub.
  { subst old. rewrite (mergedPods_split (fqdnRuleToSelectedPods f) ruleID).
    fold new. set_solver. }
  clearbody old.
  set (del := DeleteAddressFromDNSConjunction id (elements (old ∖ new))).
  destruct (decide (0 < size (old ∖ new))%nat) as [Hr|Hr].
  - pose proof (programmedPorts_invoke id (ofClient f) del) as Hinvoke.
    unfold ofInvoke in *.
    cbn [fst snd ofClient set_ofClient fqdnRuleToSelectedPods
         set_fqdnRuleToSelectedPods] in *.
    split; [done|]. rewrite Hinvoke, Hinv. fold new.
    apply size_pos_nonempty in Hr. apply set_choose_L in Hr as [y Hy].
    destruct (ofReply (ofClient f) (ofCalls (ofClient f)) del) as [e|].
    + split; [|done]. intros Heq.
      apply elem_of_difference in Hy as [Hyo Hyn]. rewrite Heq in Hyo. done.
    + split; [done|]. intros _. unfold programmedStep, del.
      rewrite decide_True by done. rewrite list_to_set_elements_L.
      apply set_eq. intros x. rewrite !elem_of_difference.
      destruct (decide (x ∈ new)), (decide (x ∈ old)); naive_solver.
  - cbn [fst snd ofClient fqdnRuleToSelectedPods set_fqdnRuleToSelectedPods].
    split; [done|]. split; [done|]. intros _. rewrite Hinv. fold new.
    assert (old ∖ new = ∅) as Hemp.
    { destruct (decide (old ∖ new = ∅)) as [|Hne]; [done|].
      apply size_pos_nonempty in Hne. done. }
    apply set_eq. intros x.
    destruct (decide (x ∈ new)), (decide (x ∈ old)); try naive_solver.
    exfalso. assert (x ∈ old ∖ new) as Hx by set_solver.
    rewrite Hemp in Hx. by apply not_elem_of_empty in Hx.
Qed.
End PodsProgrammed.

(** ** Parsing a DNS response *)

Section ParseMore.
Context {golib : GoLib}.

Lemma parseAnswer_fold (f : fqdnController) (now : Time) (l : list dnsRR)
    (m : gmap string ipWithExpiration) (k : string) (v : ipWithExpiration) :
  foldl (parseAnswer f now) m l !! k = Some v →
  m !! k = Some v ∨
  k = net_IP_String (ip v) ∧
  ∃ ttl,
    (ipv4Enabled f = true ∧ RR_A ttl (ip v) ∈ l ∨
     ipv6Enabled f = true ∧ RR_AAAA ttl (ip v) ∈ l) ∧
    expirationTime v =
      Time_Add now (Duration_mul (Z.max (minTTL f) ttl) time_Second).
Proof.
  revert m. induction l as [|rr l IH]; intros m; cbn [foldl]; [by left|].
  intros [Hm|(Hk & ttl & Hrr & Hexp)]%IH.
  - unfold parseAnswer in Hm.
    destruct rr as [ttl a|ttl a|];
      [destruct (ipv4Enabled f) eqn:Hv4|destruct (ipv6Enabled f) eqn:Hv6|];
      try (by left).
    + rewrite lookup_insert in Hm. case_decide; [|by left].
      injection Hm as <-. right. cbn [ip expirationTime]. split; [done|].
      exists ttl. split; [|done]. left. split; [done|]. apply elem_of_cons.
      by left.
    + rewrite lookup_insert in Hm. case_decide; [|by left].
      injection Hm as <-. right. cbn [ip expirationTime]. split; [done|].
      exists ttl. split; [|done]. right. split; [done|]. apply elem_of_cons.
      by left.
  - right. split; [done|]. exists ttl. split; [|done].
    destruct Hrr as [[? ?]|[? ?]]; [left|right]; (split; [done|]);
      apply elem_of_cons; by right.
Qed.

Lemma parseAnswer_fold_is_Some (f : fqdnController) (now : Time)
    (l : list dnsRR) (m : gmap string ipWithExpiration) (k : string) :
  is_Some (m !! k) ∨
  (∃ ttl a, k = net_IP_String a ∧
            (ipv4Enabled f = true ∧ RR_A ttl a ∈ l ∨
             ipv6Enabled f = true ∧ RR_AAAA ttl a ∈ l)) →
  is_Some (foldl (parseAnswer f now) m l !! k).
Proof.
  revert m. induction l as [|rr l IH]; intros m; cbn [foldl].
  - intros [?|(ttl & a & _ & [[_ Hin]|[_ Hin]])]; [done| |];
      by apply elem_of_nil in Hin.
  - intros Hk. apply IH.
    assert (is_Some (m !! k) → is_Some (parseAnswer f now m rr !! k)) as Hkeep.
    { intros Hm. unfold parseAnswer.
      destruct rr as [ttl a|ttl a|];
        [destruct (ipv4Enabled f)|destruct (ipv6Enabled f)|]; try done;
        rewrite lookup_insert; by case_decide. }
    destruct Hk as [Hm|(ttl & a & -> & [[Hv Hin]|[Hv Hin]])];
      [by left; apply Hkeep| |].
    + apply elem_of_cons in Hin as [<-|Hin]; [|right; by eauto 10].
      left. unfold parseAnswer. rewrite Hv. by rewrite lookup_insert_eq.
    + apply elem_of_cons in Hin as [<-|Hin]; [|right; by eauto 10].
      left. unfold parseAnswer. rewrite Hv. by rewrite lookup_insert_eq.
Qed.

(** X27.  What [parseDNSResponse] returns.  It fails exactly on a message
    without question, and then leaves the clock unread.  Otherwise it
    reads the clock once, and the addresses it returns are those of the
    A records when IPv4 is enabled and of the AAAA records when IPv6 is
    enabled, each under its printed form and expiring the floored TTL of
    one of its records after the reading of the clock: records of a
    disabled family and records of other types leave nothing. *)
Theorem parseDNSResponse_answers (msg : dnsMsg) (f : fqdnController) :
  match parseDNSResponse msg f with
  | (f', inr e) => Question msg = [] ∧ e = "invalid DNS message" ∧ f' = f
  | (f', inl (_, ips)) =>
      Question msg ≠ [] ∧ f' = set_clock (λ n, clock f (S n)) f ∧
      (∀ k v, ips !! k = Some v →
         k = net_IP_String (ip v) ∧
         ∃ ttl,
           (ipv4Enabled f = true ∧ RR_A ttl (ip v) ∈ Answer msg ∨
            ipv6Enabled f = true ∧ RR_AAAA ttl (ip v) ∈ Answer msg) ∧
           expirationTime v =
             Time_Add (clock f 0%nat)
               (Duration_mul (Z.max (minTTL f) ttl) time_Second)) ∧
      (∀ ttl a,
         ipv4Enabled f = true ∧ RR_A ttl a ∈ Answer msg ∨
         ipv6Enabled f = true ∧ RR_AAAA ttl a ∈ Answer msg →
         is_Some (ips !! net_IP_String a))
  end.
Proof.
  unfold parseDNSResponse. destruct (Question msg) as [|q qs]; [done|].
  cbn [clock_Now]. split; [done|]. split; [done|]. split.
  - intros k v Hk. apply parseAnswer_fold in Hk as [Hk|Hk]; [|exact Hk].
    by rewrite lookup_empty in Hk.
  - intros ttl a Hrr. apply parseAnswer_fold_is_Some. right.
    exists ttl, a. split; [done|]. exact Hrr.
Qed.

Lemma trimSuffix1_app (s : string) (c : ascii) :
  trimSuffix1 (s +:+ String c "") c = s.
Proof.
  induction s as [|d s IH].
  - change ("" +:+ String c "") with (String c ""). cbn [trimSuffix1].
    by rewrite decide_True.
  - change (String d s +:+ String c "") with (String d (s +:+ String c "")).
    cbn [trimSuffix1]. destruct (s +:+ String c "") eqn:Hs; [by destruct s|].
    by rewrite IH.
Qed.

Lemma trimSuffix1_other (s : string) (c : ascii) :
  lastByte s ≠ Some c → trimSuffix1 s c = s.
Proof.
  induction s as [|d s IH]; [done|]. cbn [lastByte trimSuffix1].
  destruct s as [|d' s].
  - intros Hd. rewrite decide_False; [done|]. congruence.
  - intros Hlast. by rewrite IH.
Qed.

Lemma trimSuffix1_last (s : string) (c : ascii) :
  lastByte s = Some c → trimSuffix1 s c +:+ String c "" = s.
Proof.
  induction s as [|d s IH]; [done|]. cbn [lastByte trimSuffix1].
  destruct s as [|d' s].
  - intros [= ->]. by rewrite decide_True.
  - intros Hlast.
    change (String d (trimSuffix1 (String d' s) c) +:+ String c "")
      with (String d (trimSuffix1 (String d' s) c +:+ String c "")).
    by rewrite IH.
Qed.

(** X28.  The name of a proactive query comes back without its final dot.
    When the answer of the DNS server repeats the question, which is the
    queried name with a final dot added if it has none, and that name is
    in lower case, [parseDNSResponse] returns the queried name less one
    final dot: a name that was given with a final dot is merged under a
    different name. *)
Theorem parseDNSResponse_queried_name (fqdn : string) (msg : dnsMsg)
    (f : fqdnController) :
  let fqdnToQuery :=
    if decide (lastByte fqdn = Some "."%char) then fqdn else fqdn +:+ "." in
  strings_ToLower fqdnToQuery = fqdnToQuery →
  head (Question msg) = Some fqdnToQuery →
  ∃ f' ips,
    parseDNSResponse msg f = (f', inl (trimSuffix1 fqdn "."%char, ips)) ∧
    (trimSuffix1 fqdn "."%char = fqdn ↔ lastByte fqdn ≠ Some "."%char).
Proof.
  intros fqdnToQuery Hlower Hq. unfold parseDNSResponse.
  destruct (Question msg) as [|q qs]; [done|]. injection Hq as ->.
  cbn [clock_Now]. rewrite Hlower. eexists _, _. split.
  - do 3 f_equal. subst fqdnToQuery.
    destruct (decide (lastByte fqdn = Some "."%char)) as [Hdot|Hdot]; [done|].
    rewrite trimSuffix1_app. symmetry. by apply trimSuffix1_other.
  - split.
    + intros Htrim Hdot. apply trimSuffix1_last in Hdot.
      rewrite Htrim in Hdot. clear -Hdot.
      induction fqdn as [|c s IH]; [done|]. cbn in Hdot.
      injection Hdot as Hs. by apply IH.
    + apply trimSuffix1_other.
Qed.
End ParseMore.

(** ** The new controller *)

Section NewController.
Variable id : Z.

Lemma net_JoinHostPort_nonempty (host port : string) :
  net_JoinHostPort host port ≠ "".
Proof.
  unfold net_JoinHostPort. destruct (contains1 _ _); [done|].
  destruct host; [done|done].
Qed.

(** X29.  [newFQDNController] fails exactly when the datapath refuses the DNS
    interception flow, which is the only call it makes.  The controller
    it returns has nothing cached, registered, queued, subscribed or
    selected, and has no DNS server, so that proactive queries go to the
    host resolver, exactly when there is no override and one of the two
    variables of the environment is empty. *)
Theorem newFQDNController_result (client : ofClientT)
    (dnsServerOverride envHost envPort : string) (v4Enabled v6Enabled : bool)
    (gw : Z) (clk : Clock) (fqdnCacheMinTTL : Z) :
  let install := NewDNSPacketInConjunction id in
  match newFQDNController id client dnsServerOverride envHost envPort
          v4Enabled v6Enabled gw clk fqdnCacheMinTTL with
  | inr e =>
      ∃ e0, ofReply client (ofCalls client) install = Some e0 ∧
            e = "failed to install flow for DNS response interception: "
                +:+ e0
  | inl f =>
      ofReply client (ofCalls client) install = None ∧
      ofCalls (ofClient f) = ofCalls client ++ [install] ∧
      (dnsServerAddr f = "" ↔
       dnsServerOverride = "" ∧ (envHost = "" ∨ envPort = "")) ∧
      (dnsServerOverride ≠ "" → dnsServerAddr f = dnsServerOverride) ∧
      dnsEntryCache f = ∅ ∧ selectorItemToRuleIDs f = ∅ ∧
      fqdnToSelectorItems f = ∅ ∧ selectorItemToFQDN f = ∅ ∧
      fqdnRuleToSelectedPods f = ∅ ∧ dnsQueryQueue f = [] ∧
      tracker f = newRuleSyncTracker
  end.
Proof.
  intros install. unfold newFQDNController, ofInvoke. fold install.
  destruct (ofReply client (ofCalls client) install) as [e0|]; [by eauto|].
  cbn [ofClient ofCalls dnsServerAddr dnsEntryCache selectorItemToRuleIDs
       fqdnToSelectorItems selectorItemToFQDN fqdnRuleToSelectedPods
       dnsQueryQueue tracker].
  assert (dnsServerOverride = "" ∨ dnsServerOverride ≠ "") as [->|Hover]
    by (destruct (decide (dnsServerOverride = "")); eauto).
  - rewrite decide_False by (by intros []).
    destruct (decide (envHost = "" ∨ envPort = "")) as [Henv|Henv].
    + repeat split; try done.
    + repeat split; try done.
      * match goal with
        | Hj : net_JoinHostPort _ _ = "" |- _ =>
            by apply net_JoinHostPort_nonempty in Hj
        end.
      * by intros [_ ?].
  - rewrite decide_True by done. repeat split; try done.
    by intros [? _].
Qed.
End NewController.

(** ** The theorems on the examples *)

(** The registry of the example with one rule. *)
Lemma oneRule_registry (s : fqdnSelectorItem) :
  selectorItemToRuleIDs ExampleLib.oneRule.1 !! s =
    if decide (s = mkSelectorItem "api.example.com" "") then Some {["r1"]}
    else None.
Proof.
  change (ExampleLib.oneRule.1)
    with (addFQDNSelector (golib := ExampleLib.lib) "r1" ["api.example.com"]
            (ExampleLib.controller ExampleLib.okClient 0)).
  rewrite addFQDNSelector_lookup.
  change (selectorItemToRuleIDs (ExampleLib.controller ExampleLib.okClient 0))
    with (∅ : gmap fqdnSelectorItem (gset string)).
  rewrite lookup_empty.
  change (fqdnToSelectorItem (golib := ExampleLib.lib) <$> ["api.example.com"])
    with [mkSelectorItem "api.example.com" ""].
  destruct (decide (s = mkSelectorItem "api.example.com" "")) as [->|Hne].
  - rewrite decide_True by (apply list_elem_of_singleton; done).
    cbn [default from_option]. unfold Datatypes.id. f_equal; set_solver.
  - rewrite decide_False; [done|]. by intros ?%list_elem_of_singleton.
Qed.

(** X2 on an example. *)
Lemma reachable_bidirectional_witness :
  let st := ExampleLib.wildcardResolved in
  let s := fqdnToSelectorItem (golib := ExampleLib.lib) "*.example.com" in
  reachable (golib := ExampleLib.lib) 1 st ∧
  ((∃ selectors,
      fqdnToSelectorItems st.1 !! "api.example.com" = Some selectors ∧
      s ∈ selectors)
   ↔ (∃ names,
        selectorItemToFQDN st.1 !! s = Some names ∧
        "api.example.com" ∈ names)).
Proof.
  intros st s. split; [exact wildcardResolved_reachable|].
  exact (reachable_bidirectional (golib := ExampleLib.lib) 1 st
           "api.example.com" s wildcardResolved_reachable).
Defined.

(** X3 on an example. *)
Lemma rulesSelecting_cached_name_witness :
  let st := ExampleLib.wildcardResolved in
  reachable (golib := ExampleLib.lib) 1 st ∧
  is_Some (dnsEntryCache st.1 !! "api.example.com") ∧
  ("r1" ∈ rulesSelecting st.1 "api.example.com" ↔
   ∃ s rules,
     selectorItemToRuleIDs st.1 !! s = Some rules ∧
     matches (golib := ExampleLib.lib) s "api.example.com" = true ∧
     "r1" ∈ rules).
Proof.
  intros st.
  assert (is_Some (dnsEntryCache st.1 !! "api.example.com")) as Hc
    by (vm_compute; eauto).
  split; [exact wildcardResolved_reachable|]. split; [exact Hc|].
  exact (rulesSelecting_cached_name (golib := ExampleLib.lib) 1 st
           "api.example.com" "r1" wildcardResolved_reachable Hc).
Defined.

(** X7 on an example. *)
Lemma deleteFQDNSelector_not_held_witness :
  let f := ExampleLib.oneRule.1 in
  let fqdns := ["api.example.com"; "*.example.com"] in
  (∀ e rules, e ∈ fqdns →
     selectorItemToRuleIDs f !! fqdnToSelectorItem (golib := ExampleLib.lib) e
       = Some rules →
     "r2" ∉ rules) ∧
  deleteFQDNSelector (golib := ExampleLib.lib) "r2" fqdns f = f.
Proof.
  intros f fqdns.
  assert (∀ e rules, e ∈ fqdns →
            selectorItemToRuleIDs f
              !! fqdnToSelectorItem (golib := ExampleLib.lib) e = Some rules →
            "r2" ∉ rules) as Hnot.
  { intros e rules _. subst f. rewrite oneRule_registry.
    case_decide; [|done]. intros [= <-]. set_solver. }
  split; [exact Hnot|].
  exact (deleteFQDNSelector_not_held (golib := ExampleLib.lib) "r2" fqdns f
           Hnot).
Defined.

(** X9 on an example. *)
Lemma add_delete_registry_witness :
  let st := ExampleLib.oneRule in
  let fqdns := ["*.example.com"; "api.example.com"] in
  reachable (golib := ExampleLib.lib) 1 st ∧
  (∀ s rules, selectorItemToRuleIDs st.1 !! s = Some rules → "r2" ∉ rules) ∧
  selectorItemToRuleIDs
    (deleteFQDNSelector (golib := ExampleLib.lib) "r2" fqdns
       (addFQDNSelector (golib := ExampleLib.lib) "r2" fqdns st.1)) =
  selectorItemToRuleIDs st.1.
Proof.
  intros st fqdns.
  assert (∀ s rules, selectorItemToRuleIDs st.1 !! s = Some rules →
                     "r2" ∉ rules) as Hfresh.
  { intros s rules. subst st. rewrite oneRule_registry.
    case_decide; [|done]. intros [= <-]. set_solver. }
  split; [exact oneRule_reachable|]. split; [exact Hfresh|].
  exact (add_delete_registry (golib := ExampleLib.lib) 1 st "r2" fqdns
           oneRule_reachable Hfresh).
Defined.

(** X8 on an example. *)
Lemma reachable_no_empty_set_witness :
  let st := ExampleLib.wildcardResolved in
  reachable (golib := ExampleLib.lib) 1 st ∧
  (∀ s rules, selectorItemToRuleIDs st.1 !! s = Some rules →
              (0 < size rules)%nat) ∧
  (∀ x selectors, fqdnToSelectorItems st.1 !! x = Some selectors →
                  (0 < size selectors)%nat) ∧
  (∀ s names, selectorItemToFQDN st.1 !! s = Some names →
              (0 < size names)%nat) ∧
  (∀ x meta, dnsEntryCache st.1 !! x = Some meta →
             (0 < size (responseIPs meta))%nat).
Proof.
  split; [exact wildcardResolved_reachable|].
  exact (reachable_no_empty_set (golib := ExampleLib.lib) 1
           ExampleLib.wildcardResolved wildcardResolved_reachable).
Defined.

(** X10 on an example. *)
Lemma deleteFQDNSelector_evicts_unselected_witness :
  let st := ExampleLib.wildcardResolved in
  let f' :=
    deleteFQDNSelector (golib := ExampleLib.lib) "r1" ["*.example.com"] st.1 in
  reachable (golib := ExampleLib.lib) 1 st ∧
  dnsEntryCache f' ⊆ dnsEntryCache st.1 ∧
  ∀ x, cachedName f' x ↔
       cachedName st.1 x ∧
       ∃ s, registered f' s ∧ matches (golib := ExampleLib.lib) s x = true.
Proof.
  split; [exact wildcardResolved_reachable|].
  exact (deleteFQDNSelector_evicts_unselected (golib := ExampleLib.lib) 1
           ExampleLib.wildcardResolved "r1" ["*.example.com"]
           wildcardResolved_reachable).
Defined.

(** X11 on an example. *)
Lemma onDNSResponse_requery_at_earliest_witness :
  let f := ExampleLib.twoAddresses in
  let new : gmap string ipWithExpiration :=
    {[ "10.0.0.1" := mkIPExp [10; 0; 0; 1] 1040000000000 ]} in
  let f' :=
    (onDNSResponse (golib := ExampleLib.lib) "api.example.com" new None
       (f, [])).1 in
  new ≠ ∅ ∧
  match dnsEntryCache f' !! "api.example.com" with
  | Some merged =>
      ∃ t, dnsQueryQueue f' =
             dnsQueryQueue f ++
             [QAddAfter "api.example.com" (Time_Sub t (clock f 0%nat))] ∧
           (∃ k v, responseIPs merged !! k = Some v ∧ expirationTime v = t) ∧
           ∀ k v, responseIPs merged !! k = Some v → t ≤ expirationTime v
  | None => dnsQueryQueue f' = dnsQueryQueue f
  end.
Proof.
  intros f new. split; [apply map_non_empty_singleton|].
  exact (onDNSResponse_requery_at_earliest (golib := ExampleLib.lib)
           "api.example.com" new None f [] (map_non_empty_singleton _ _)).
Defined.

(** X14 on an example. *)
Lemma onDNSResponse_unselected_name_witness :
  let st := ExampleLib.oneRule in
  let new : gmap string ipWithExpiration :=
    {[ "10.0.0.9" := mkIPExp [10; 0; 0; 9] 1040000000000 ]} in
  reachable (golib := ExampleLib.lib) 1 st ∧
  new ≠ ∅ ∧
  dnsEntryCache st.1 !! "www.example.org" = None ∧
  (∀ s, registered st.1 s →
        matches (golib := ExampleLib.lib) s "www.example.org" = false) ∧
  onDNSResponse (golib := ExampleLib.lib) "www.example.org" new (Some 5%nat) st =
    (set_clock (λ n, clock st.1 (S n)) st.1, st.2 ++ [(5%nat, None)]).
Proof.
  intros st new.
  assert (dnsEntryCache st.1 !! "www.example.org" = None) as Hc
    by (by vm_compute).
  assert (∀ s, registered st.1 s →
               matches (golib := ExampleLib.lib) s "www.example.org" = false)
    as Hno.
  { intros s [rules Hs]. subst st. rewrite oneRule_registry in Hs.
    case_decide as Heq; [|done]. rewrite Heq. by vm_compute. }
  split; [exact oneRule_reachable|].
  split; [apply map_non_empty_singleton|]. split; [exact Hc|].
  split; [exact Hno|].
  exact (onDNSResponse_unselected_name (golib := ExampleLib.lib) 1
           "www.example.org" new (Some 5%nat) st oneRule_reachable
           (map_non_empty_singleton _ _) Hc Hno).
Defined.

(** X17 on an example. *)
Lemma makeDNSRequest_silent_witness :
  let st := ExampleLib.oneRule in
  let lookup4 : list IP + error := inl [[10; 0; 0; 1]] in
  let lookup6 : list IP + error := inr "no such host" in
  let exchange : string → Z → dnsMsg + error := λ _ _, inr "timeout" in
  ∃ r,
    makeDNSRequest (golib := ExampleLib.lib) "api.example.com" lookup4 lookup6
      exchange st = Some r ∧
    r.1.2 = st.2 ∧ tracker r.1.1 = tracker st.1 ∧
    datapathFields r.1.1 = datapathFields st.1.
Proof.
  intros st lookup4 lookup6 exchange.
  destruct (makeDNSRequest (golib := ExampleLib.lib) "api.example.com"
              lookup4 lookup6 exchange st) as [r|] eqn:Hrun;
    [|by vm_compute in Hrun].
  exists r. split; [reflexivity|].
  exact (makeDNSRequest_silent (golib := ExampleLib.lib) "api.example.com"
           lookup4 lookup6 exchange st r Hrun).
Defined.

(** X18 on an example. *)
Lemma makeDNSRequest_errors_witness :
  let st := ExampleLib.oneRule in
  let lookup4 : list IP + error := inr "no such host" in
  let lookup6 : list IP + error := inr "no such host" in
  let exchange : string → Z → dnsMsg + error := λ _ _, inr "timeout" in
  let errs :=
    if decide (dnsServerAddr st.1 = "") then
      requestError "DNS request failed for IPv4: " (ipv4Enabled st.1) lookup4 ++
      requestError "DNS request failed for IPv6: " (ipv6Enabled st.1) lookup6
    else
      requestError "DNS request failed for IPv4: " (ipv4Enabled st.1)
        (exchange "api.example.com." dns_TypeA) ++
      requestError "DNS request failed for IPv6: " (ipv6Enabled st.1)
        (exchange "api.example.com." dns_TypeAAAA) in
  ∃ r,
    makeDNSRequest (golib := ExampleLib.lib) "api.example.com" lookup4 lookup6
      exchange st = Some r ∧
    r.2 = errs ∧
    dnsQueryQueue (handleErr r.2 "api.example.com" r.1.1) =
      dnsQueryQueue r.1.1 ++
      [if decide (errs = []) then QForget "api.example.com"
       else QAddRateLimited "api.example.com"].
Proof.
  intros st lookup4 lookup6 exchange.
  destruct (makeDNSRequest (golib := ExampleLib.lib) "api.example.com"
              lookup4 lookup6 exchange st) as [r|] eqn:Hrun;
    [|by vm_compute in Hrun].
  exists r. split; [reflexivity|].
  exact (makeDNSRequest_errors (golib := ExampleLib.lib) "api.example.com"
           lookup4 lookup6 exchange st r Hrun).
Defined.

(** X22 on an example. *)
Lemma Run_all_realized_witness :
  let updates := [mkUpdate "r1" None; mkUpdate "r2" None] in
  (∀ u, u ∈ updates → err u = None) ∧
  sentOn 5%nat
    (Run (subscribe 5%nat {["r1"; "r2"]} newRuleSyncTracker, []) updates).2 =
    if decide (({["r1"; "r2"]} : gset string) ≠ ∅ ∧
               ({["r1"; "r2"]} : gset string) ⊆ list_to_set (ruleId <$> updates))
    then [None] else [].
Proof.
  intros updates.
  assert (∀ u, u ∈ updates → err u = None) as Hall.
  { intros u [->|[->|[]%elem_of_nil]%elem_of_cons]%elem_of_cons; reflexivity. }
  split; [exact Hall|].
  exact (Run_all_realized 5%nat {["r1"; "r2"]} updates Hall).
Defined.

(** X24 on an example. *)
Lemma updateRuleSelectedPods_same_pods_witness :
  let f := (updateRuleSelectedPods 1 "r1" {[7]}
              (ExampleLib.controller ExampleLib.failingClient 0)).1 in
  fqdnRuleToSelectedPods f !! "r1" = Some {[7]} ∧
  updateRuleSelectedPods 1 "r1" {[7]} f = (f, None).
Proof.
  intros f.
  assert (fqdnRuleToSelectedPods f !! "r1" = Some {[7]}) as Hsame.
  { subst f. rewrite updateRuleSelectedPods_mapping. apply lookup_insert_eq. }
  split; [exact Hsame|].
  exact (updateRuleSelectedPods_same_pods 1 "r1" {[7]} f Hsame).
Defined.

(** X28 on an example. *)
Lemma parseDNSResponse_queried_name_witness :
  let fqdn := "api.example.com" in
  let msg := mkDNSMsg ["api.example.com."] [RR_A 60 [10; 0; 0; 1]] in
  let f := ExampleLib.controller ExampleLib.okClient 0 in
  let fqdnToQuery :=
    if decide (lastByte fqdn = Some "."%char) then fqdn else fqdn +:+ "." in
  strings_ToLower (GoLib := ExampleLib.lib) fqdnToQuery = fqdnToQuery ∧
  head (Question msg) = Some fqdnToQuery ∧
  ∃ f' ips,
    parseDNSResponse (golib := ExampleLib.lib) msg f =
      (f', inl (trimSuffix1 fqdn "."%char, ips)) ∧
    (trimSuffix1 fqdn "."%char = fqdn ↔ lastByte fqdn ≠ Some "."%char).
Proof.
  intros fqdn msg f fqdnToQuery.
  assert (strings_ToLower (GoLib := ExampleLib.lib) fqdnToQuery = fqdnToQuery)
    as Hlower by (by vm_compute).
  assert (head (Question msg) = Some fqdnToQuery) as Hq by (by vm_compute).
  split; [exact Hlower|]. split; [exact Hq|].
  exact (parseDNSResponse_queried_name (golib := ExampleLib.lib) fqdn msg f
           Hlower Hq).
Defined.

(** X25 on two examples: a datapath that accepts the call, and one that
    refuses it. *)
Lemma updateRuleSelectedPods_programs_union_witness :
  let f := ExampleLib.controller ExampleLib.okClient 0 in
  let g := ExampleLib.controller ExampleLib.failingClient 0 in
  let r := updateRuleSelectedPods 1 "r1" {[7; 8]} f in
  let q := updateRuleSelectedPods 1 "r1" {[7; 8]} g in
  programmedPorts 1 (ofClient f) = mergedPods (fqdnRuleToSelectedPods f) ∧
  programmedPorts 1 (ofClient g) = mergedPods (fqdnRuleToSelectedPods g) ∧
  (programmedPorts 1 (ofClient r.1) = mergedPods (fqdnRuleToSelectedPods r.1)
   ↔ r.2 = None) ∧
  (programmedPorts 1 (ofClient q.1) = mergedPods (fqdnRuleToSelectedPods q.1)
   ↔ q.2 = None) ∧
  r.2 = None ∧ q.2 = Some "ovs: connection refused".
Proof.
  intros f g r q.
  assert (programmedPorts 1 (ofClient f) =
            mergedPods (fqdnRuleToSelectedPods f)) as Hf by (by vm_compute).
  assert (programmedPorts 1 (ofClient g) =
            mergedPods (fqdnRuleToSelectedPods g)) as Hg by (by vm_compute).
  split; [exact Hf|]. split; [exact Hg|].
  split; [exact (updateRuleSelectedPods_programs_union 1 "r1" {[7; 8]} f Hf)|].
  split; [exact (updateRuleSelectedPods_programs_union 1 "r1" {[7; 8]} g Hg)|].
  split; by vm_compute.
Defined.

(** X26 on two examples: the Pods of a rule programmed by a datapath that
    then accepts the deletion, and by one that then refuses it. *)
Lemma deleteRuleSelectedPods_programs_union_witness :
  let refuseDelete : ofClientT :=
    mkOFClient []
      (λ _ call,
         match call with
         | DeleteAddressFromDNSConjunction _ _ => Some "ovs: connection refused"
         | _ => None
         end) in
  let f := (updateRuleSelectedPods 1 "r1" {[7; 8]}
              (ExampleLib.controller ExampleLib.okClient 0)).1 in
  let g := (updateRuleSelectedPods 1 "r1" {[7; 8]}
              (ExampleLib.controller refuseDelete 0)).1 in
  let r := deleteRuleSelectedPods 1 "r1" f in
  let q := deleteRuleSelectedPods 1 "r1" g in
  programmedPorts 1 (ofClient f) = mergedPods (fqdnRuleToSelectedPods f) ∧
  programmedPorts 1 (ofClient g) = mergedPods (fqdnRuleToSelectedPods g) ∧
  (fqdnRuleToSelectedPods r.1 = delete "r1" (fqdnRuleToSelectedPods f) ∧
   (programmedPorts 1 (ofClient r.1) = mergedPods (fqdnRuleToSelectedPods r.1)
    ↔ r.2 = None)) ∧
  (fqdnRuleToSelectedPods q.1 = delete "r1" (fqdnRuleToSelectedPods g) ∧
   (programmedPorts 1 (ofClient q.1) = mergedPods (fqdnRuleToSelectedPods q.1)
    ↔ q.2 = None)) ∧
  r.2 = None ∧ q.2 = Some "ovs: connection refused".
Proof.
  intros refuseDelete f g r q.
  assert (programmedPorts 1 (ofClient f) =
            mergedPods (fqdnRuleToSelectedPods f)) as Hf by (by vm_compute).
  assert (programmedPorts 1 (ofClient g) =
            mergedPods (fqdnRuleToSelectedPods g)) as Hg by (by vm_compute).
  split; [exact Hf|]. split; [exact Hg|].
  split; [exact (deleteRuleSelectedPods_programs_union 1 "r1" f Hf)|].
  split; [exact (deleteRuleSelectedPods_programs_union 1 "r1" g Hg)|].
  split; by vm_compute.
Defined.

(** X30 on two examples: a tracker that is new, and the same tracker
    after a subscriber of it has seen its rule fail, which leaves the
    subscriber in the heap and the rule dirty. *)
Lemma onDNSResponse_then_Run_witness :
  let f := ExampleLib.oneRule.1 in
  let g :=
    set_tracker
      (Run (subscribe 4%nat {["r1"]} (tracker f), [])
         [mkUpdate "r1" (Some "ovs: connection refused")]).1 f in
  let new : gmap string ipWithExpiration :=
    {[ "10.0.0.1" := mkIPExp [10; 0; 0; 1] 1040000000000 ]} in
  let updates := [mkUpdate "r1" None] in
  let outcome (st : fqdnController * chanLog) :=
    let r :=
      onDNSResponse (golib := ExampleLib.lib) "api.example.com" new
        (Some 5%nat) st in
    let final := (Run (tracker r.1, r.2) updates).2 in
    (r.2 = st.2 ++ [(5%nat, None)] ∧ final = r.2) ∨
    (r.2 = st.2 ∧
     ∃ dirty : gset string,
       dirty ≠ ∅ ∧
       dirtyRuleHandler r.1 = dirtyRuleHandler st.1 ++ elements dirty ∧
       final =
         st.2 ++ if decide (dirty ⊆ list_to_set (ruleId <$> updates))
                 then [(5%nat, None)] else []) in
  ruleToSubscribers (tracker f) = ∅ ∧
  ruleToSubscribers (tracker g) = ∅ ∧
  subscriberHeap (tracker g) ≠ [] ∧ dirtyRules (tracker g) ≠ ∅ ∧
  (∀ u, u ∈ updates → err u = None) ∧
  outcome (f, []) ∧ outcome (g, []).
Proof.
  intros f g new updates outcome.
  assert (ruleToSubscribers (tracker f) = ∅) as Hf by (by vm_compute).
  assert (ruleToSubscribers (tracker g) = ∅) as Hg by (by vm_compute).
  assert (∀ u, u ∈ updates → err u = None) as Hall.
  { intros u [->|[]%elem_of_nil]%elem_of_cons. reflexivity. }
  split; [exact Hf|]. split; [exact Hg|].
  split; [by vm_compute|]. split; [by vm_compute|]. split; [exact Hall|].
  split.
  - exact (onDNSResponse_then_Run (golib := ExampleLib.lib) "api.example.com"
             new 5%nat (f, []) updates Hf Hall).
  - exact (onDNSResponse_then_Run (golib := ExampleLib.lib) "api.example.com"
             new 5%nat (g, []) updates Hg Hall).
Defined.

(** ** The names in the cache *)

Section CachedNames.
Context {golib : GoLib}.

Lemma addFQDNSelector_dnsEntryCache ruleID fqdns f :
  dnsEntryCache (addFQDNSelector ruleID fqdns f) = dnsEntryCache f.
Proof.
  unfold addFQDNSelector. revert f.
  induction fqdns as [|e fqdns IH]; intros f; cbn [foldl]; [done|].
  rewrite IH. by destruct (addFQDNSelector1_fields ruleID f e) as (_ & -> & _).
Qed.

Lemma matchNewFQDN_added (fqdn : string)
    (l : list (fqdnSelectorItem * gset string)) (f : fqdnController)
    (add : bool) :
  (foldl (matchNewFQDN fqdn) (f, add) l).2 = true ↔
  add = true ∨ ∃ kv, kv ∈ l ∧ matches kv.1 fqdn = true.
Proof.
  revert f add. induction l as [|[s v] l IH]; intros f add; cbn [foldl snd].
  - setoid_rewrite elem_of_nil. naive_solver.
  - change (matchNewFQDN fqdn (f, add) (s, v))
      with (if matches s fqdn then (setFQDNMatchSelector fqdn s f, true)
            else (f, add)).
    setoid_rewrite elem_of_cons.
    destruct (matches s fqdn) eqn:Hm; rewrite IH.
    + split; [|by left]. intros _. right. exists (s, v). split; [by left|done].
    + split; [naive_solver|].
      intros [?|(kv & [->|?] & Hkv)]; [by left| |by eauto].
      cbn [fst] in Hkv. congruence.
Qed.

(** The cached names after [onDNSResponse]: the name of a response with
    an address is added when a registered selector item matches it, and
    no name is removed. *)
Lemma onDNSResponse_cachedName fqdn new waitCh f log x :
  cachedName (onDNSResponse fqdn new waitCh (f, log)).1 x ↔
  cachedName f x ∨
  (x = fqdn ∧ new ≠ ∅ ∧ ∃ s, registered f s ∧ matches s fqdn = true).
Proof.
  destruct (decide (new = ∅)) as [->|Hne].
  { unfold onDNSResponse. rewrite decide_True by apply map_size_empty.
    destruct waitCh; cbn [fst]; naive_solver. }
  unfold cachedName.
  destruct (dnsEntryCache f !! fqdn) as [cached|] eqn:Hc.
  - destruct (onDNSResponse_cached fqdn new waitCh f log cached Hc Hne)
      as (f1 & -> & Hcache & _).
    rewrite syncDirtyRules_dnsEntryCache, Hcache, lookup_insert.
    case_decide as Hx; [|naive_solver]. subst x. rewrite Hc.
    split; [by left; eauto|by eauto].
  - destruct (onDNSResponse_new fqdn new waitCh f log Hc Hne)
      as (f1 & -> & Hcache & _).
    rewrite syncDirtyRules_dnsEntryCache, Hcache.
    pose proof (matchNewFQDN_added fqdn
                  (map_to_list (selectorItemToRuleIDs f))
                  (set_clock (λ n, clock f (S n)) f) false) as Hadd.
    pose proof (matchNewFQDN_fields fqdn
                  (map_to_list (selectorItemToRuleIDs f))
                  (set_clock (λ n, clock f (S n)) f) false) as (Hc2 & _).
    cbv zeta in Hc2. cbn [dnsEntryCache set_clock] in Hc2.
    assert ((∃ kv, kv ∈ map_to_list (selectorItemToRuleIDs f) ∧
                   matches kv.1 fqdn = true) ↔
            ∃ s, registered f s ∧ matches s fqdn = true) as Hreg.
    { split.
      - intros ([s v] & Hin%elem_of_map_to_list & Hm). exists s.
        split; [by exists v|done].
      - intros (s & [v Hs] & Hm). exists (s, v).
        split; [by apply elem_of_map_to_list|done]. }
    destruct (foldl _ _ _) as [f2 add]. cbn [fst snd] in *.
    destruct add.
    + rewrite lookup_insert, Hc2.
      assert (∃ s, registered f s ∧ matches s fqdn = true) as Hs.
      { apply Hreg. destruct (proj1 Hadd eq_refl) as [?|?]; done. }
      case_decide as Hx; [|naive_solver]. subst x.
      split; [by right|by eauto].
    + rewrite Hc2. split; [by left|].
      intros [?|(-> & _ & Hs%Hreg)]; [done|].
      assert (false = true) by (apply Hadd; by right). done.
Qed.

(** C7, as the code has it.  In every reachable state a name that is
    cached is matched by a registered selector item.  The converse does
    not hold, because registering a selector item caches nothing.  From
    a reachable state the names in the cache change as follows.
    [addFQDNSelector] leaves them as they are.  [onDNSResponse] removes
    none, and adds the name of the response exactly when the response
    has an address and a registered selector item matches the name.
    [deleteFQDNSelector] keeps exactly the cached names that a selector
    item still registered after the deletion matches. *)
Theorem cached_name_has_registered_selector (id : Z)
    (st : fqdnController * chanLog) :
  reachable id st →
  (∀ x, is_Some (dnsEntryCache st.1 !! x) →
        ∃ s, is_Some (selectorItemToRuleIDs st.1 !! s) ∧
             matches s x = true) ∧
  (∀ ruleID fqdns x,
     is_Some (dnsEntryCache (addFQDNSelector ruleID fqdns st.1) !! x) ↔
     is_Some (dnsEntryCache st.1 !! x)) ∧
  (∀ fqdn new waitCh x,
     is_Some (dnsEntryCache (onDNSResponse fqdn new waitCh st).1 !! x) ↔
     is_Some (dnsEntryCache st.1 !! x) ∨
     (x = fqdn ∧ new ≠ ∅ ∧
      ∃ s, is_Some (selectorItemToRuleIDs st.1 !! s) ∧
           matches s fqdn = true)) ∧
  (∀ ruleID fqdns x,
     let f' := deleteFQDNSelector ruleID fqdns st.1 in
     is_Some (dnsEntryCache f' !! x) ↔
     is_Some (dnsEntryCache st.1 !! x) ∧
     ∃ s, is_Some (selectorItemToRuleIDs f' !! s) ∧ matches s x = true).
Proof.
  intros Hinv%reachable_indexInv. split; [|split; [|split]].
  - destruct Hinv as [(Hl & _ & Hcn & _) _].
    intros x Hx. destruct (Hcn x Hx) as [s Hs]. exists s.
    destruct (Hl x s Hs) as (? & ? & _). done.
  - intros ruleID fqdns x. by rewrite addFQDNSelector_dnsEntryCache.
  - intros fqdn new waitCh x. destruct st as [f log].
    apply onDNSResponse_cachedName.
  - intros ruleID fqdns x f'. by apply deleteFQDNSelector_cachedName.
Qed.
End CachedNames.

(** The theorem of C7 on the example of a wildcard rule and a resolved
    name. *)
Lemma cached_name_has_registered_selector_witness :
  let st := ExampleLib.wildcardResolved in
  reachable (golib := ExampleLib.lib) 1 st ∧
  (∀ x, is_Some (dnsEntryCache st.1 !! x) →
        ∃ s, is_Some (selectorItemToRuleIDs st.1 !! s) ∧
             matches (golib := ExampleLib.lib) s x = true) ∧
  (∀ ruleID fqdns x,
     is_Some (dnsEntryCache
                (addFQDNSelector (golib := ExampleLib.lib) ruleID fqdns st.1)
                !! x) ↔
     is_Some (dnsEntryCache st.1 !! x)) ∧
  (∀ fqdn new waitCh x,
     is_Some (dnsEntryCache
                (onDNSResponse (golib := ExampleLib.lib) fqdn new waitCh st).1
                !! x) ↔
     is_Some (dnsEntryCache st.1 !! x) ∨
     (x = fqdn ∧ new ≠ ∅ ∧
      ∃ s, is_Some (selectorItemToRuleIDs st.1 !! s) ∧
           matches (golib := ExampleLib.lib) s fqdn = true)) ∧
  (∀ ruleID fqdns x,
     let f' := deleteFQDNSelector (golib := ExampleLib.lib) ruleID fqdns st.1 in
     is_Some (dnsEntryCache f' !! x) ↔
     is_Some (dnsEntryCache st.1 !! x) ∧
     ∃ s, is_Some (selectorItemToRuleIDs f' !! s) ∧
          matches (golib := ExampleLib.lib) s x = true).
Proof.
  split; [exact wildcardResolved_reachable|].
  exact (cached_name_has_registered_selector (golib := ExampleLib.lib) 1
           ExampleLib.wildcardResolved wildcardResolved_reachable).
Defined.
